(** * A limit order book with price-time priority

    Shallow embedding of the matching core of the C++ sources
    ([types.hpp], [order_book.hpp], [order_book.cpp], [matching_engine.hpp],
    [metrics.hpp]) and the properties of it that the specification states.

    Conventions of the embedding:
    - [std::int64_t] and [std::uint64_t] values are integers of [Z]; every
      arithmetic operation of the source is written with its 64-bit
      wrap-around ([Int64.add], [Int64.sub], [UInt64.sub]).
    - [std::map<int64_t, PriceLevel, Cmp>] is an association list kept in the
      order of its comparator, so that [begin()] is the head of the list.
    - [std::deque<Order>] is a list, front first.
    - [while] loops are iterated by a fuel-indexed runner that returns [None]
      when the fuel runs out; the section on termination shows that the number
      of resting orders and levels is always enough fuel. *)

From Stdlib Require Import ZArith List Bool Lia Permutation.
From Stdlib Require Strings.String Numbers.DecimalString.
Import ListNotations.
Open Scope Z_scope.

(** ** Machine integers *)

Module Int64.
Definition min_signed : Z := - 2 ^ 63.
Definition max_signed : Z := 2 ^ 63 - 1.

(** The value of an integer once stored in a two's complement 64-bit cell.
    The C++ standard leaves signed overflow undefined; the model takes the
    result the compiled code computes. *)
Definition wrap (x : Z) : Z := (x + 2 ^ 63) mod 2 ^ 64 - 2 ^ 63.

Definition add (a b : Z) : Z := wrap (a + b).
Definition sub (a b : Z) : Z := wrap (a - b).

Definition in_range (x : Z) : Prop := min_signed <= x <= max_signed.
End Int64.

Module UInt64.
Definition max_unsigned : Z := 2 ^ 64 - 1.
Definition wrap (x : Z) : Z := x mod 2 ^ 64.
Definition sub (a b : Z) : Z := wrap (a - b).
Definition in_range (x : Z) : Prop := 0 <= x <= max_unsigned.
End UInt64.

(** ** types.hpp *)

Inductive Side : Type := Buy | Sell.

Record Order : Type := mkOrder {
  id : Z;
  side : Side;
  price : Z;
  qty : Z;
  ts_ns : Z
}.

(** The members [price] and [qty] of [Trade] are [trade_price] and
    [trade_qty] here, the names being taken by the members of [Order]. *)
Record Trade : Type := mkTrade {
  taker_id : Z;
  maker_id : Z;
  trade_price : Z;
  trade_qty : Z
}.

(** Assignment to the [qty] member of an order. *)
Definition set_qty (o : Order) (q : Z) : Order :=
  mkOrder (id o) (side o) (price o) q (ts_ns o).

(** The values an [Order] object can hold. *)
Definition order_typed (o : Order) : Prop :=
  UInt64.in_range (id o) /\ Int64.in_range (price o) /\
  Int64.in_range (qty o) /\ UInt64.in_range (ts_ns o).

(** ** order_book.hpp *)

Record PriceLevel : Type := mkLevel {
  orders : list Order;
  total_qty : Z
}.

(** A value-initialised [PriceLevel], as [operator[]] creates it. *)
Definition new_level : PriceLevel := mkLevel [] 0.

Definition PriceMap : Type := list (Z * PriceLevel).

(** The comparators [std::less<>] and [std::greater<>]. *)
Definition less (a b : Z) : bool := a <? b.
Definition greater (a b : Z) : bool := b <? a.

Definition is_nil {A : Type} (l : list A) : bool :=
  match l with [] => true | _ :: _ => false end.

(** [f] applied to [book[k]]: the entry with a key equivalent to [k] under the
    comparator [lt], created in its place in the order when there is none. *)
Fixpoint map_at (lt : Z -> Z -> bool) (k : Z) (f : PriceLevel -> PriceLevel)
    (book : PriceMap) : PriceMap :=
  match book with
  | [] => [(k, f new_level)]
  | (k', level) :: rest =>
      if lt k k' then (k, f new_level) :: book
      else if lt k' k then (k', level) :: map_at lt k f rest
      else (k', f level) :: rest
  end.

Fixpoint sum_qty (l : list Order) : Z :=
  match l with
  | [] => 0
  | o :: rest => qty o + sum_qty rest
  end.

Fixpoint sum_trades (l : list Trade) : Z :=
  match l with
  | [] => 0
  | t :: rest => trade_qty t + sum_trades rest
  end.

(** The resting orders of one side in the order matching visits them: levels
    from [begin()] on, each level from its front. *)
Fixpoint resting (book : PriceMap) : list Order :=
  match book with
  | [] => []
  | (_, level) :: rest => orders level ++ resting rest
  end.

(** Number of levels plus number of resting orders of one side. *)
Definition book_size (book : PriceMap) : nat :=
  (length book + length (resting book))%nat.

(** *** The two loops of [OrderBook::match] *)

(** State of the inner loop: the taker, the level at [begin()] and the
    caller's trade vector. *)
Record FillState : Type := mkFill {
  f_taker : Order;
  f_level : PriceLevel;
  f_trades : list Trade
}.

(** [incoming.qty > 0 && !level.orders.empty()] *)
Definition fill_cond (s : FillState) : bool :=
  (0 <? qty (f_taker s)) && negb (is_nil (orders (f_level s))).

(** One pass through the body of the inner loop at the level of key [px]. *)
Definition fill_body (px : Z) (s : FillState) : FillState :=
  match orders (f_level s) with
  | [] => s
  | maker :: rest =>
      let incoming := f_taker s in
      let exec_qty := Z.min (qty incoming) (qty maker) in
      let incoming' := set_qty incoming (Int64.sub (qty incoming) exec_qty) in
      let maker' := set_qty maker (Int64.sub (qty maker) exec_qty) in
      let total' := Int64.sub (total_qty (f_level s)) exec_qty in
      let trades' :=
        f_trades s ++ [mkTrade (id incoming) (id maker) px exec_qty] in
      mkFill incoming'
        (mkLevel (if qty maker' =? 0 then rest else maker' :: rest) total')
        trades'
  end.

Fixpoint fill_loop (fuel : nat) (px : Z) (s : FillState) : option FillState :=
  if fill_cond s then
    match fuel with
    | O => None
    | S n => fill_loop n px (fill_body px s)
    end
  else Some s.

(** State of the outer loop: the taker, the opposite side of the book and the
    trade vector. *)
Record SweepState : Type := mkSweep {
  s_taker : Order;
  s_book : PriceMap;
  s_trades : list Trade
}.

Inductive Ctl : Type := Continue | Break.

(** [incoming.qty > 0 && !asks_.empty()] (or [bids_]) *)
Definition sweep_cond (s : SweepState) : bool :=
  (0 <? qty (s_taker s)) && negb (is_nil (s_book s)).

(** One pass through the body of the outer loop.  [stop p k] is the test that
    leaves the loop: [incoming.price < it->first] for a buy taker and
    [incoming.price > it->first] for a sell taker; the two arms of the source
    differ in nothing else. *)
Definition sweep_body (stop : Z -> Z -> bool) (fuel : nat) (s : SweepState)
    : option (Ctl * SweepState) :=
  match s_book s with
  | [] => Some (Break, s)
  | (px, level) :: rest =>
      if stop (price (s_taker s)) px then Some (Break, s)
      else
        match fill_loop fuel px (mkFill (s_taker s) level (s_trades s)) with
        | None => None
        | Some f =>
            Some (Continue,
                  mkSweep (f_taker f)
                    (if is_nil (orders (f_level f)) then rest
                     else (px, f_level f) :: rest)
                    (f_trades f))
        end
  end.

Fixpoint sweep_loop (stop : Z -> Z -> bool) (fuel : nat) (s : SweepState)
    : option SweepState :=
  if sweep_cond s then
    match fuel with
    | O => None
    | S n =>
        match sweep_body stop n s with
        | None => None
        | Some (Break, s') => Some s'
        | Some (Continue, s') => sweep_loop stop n s'
        end
    end
  else Some s.

(** The exit tests of the two arms. *)
Definition buy_stop (p k : Z) : bool := p <? k.
Definition sell_stop (p k : Z) : bool := k <? p.

Definition stop_of (s : Side) : Z -> Z -> bool :=
  match s with Buy => buy_stop | Sell => sell_stop end.

Module OrderBook.

Record t : Type := mk {
  bids_ : PriceMap;   (* std::greater<>: highest price first *)
  asks_ : PriceMap    (* std::less<>: lowest price first *)
}.

(** A default-constructed book. *)
Definition empty : t := mk [] [].

(** The lambda [insert] of [OrderBook::add]. *)
Definition insert (lt : Z -> Z -> bool) (book : PriceMap) (o : Order)
    : PriceMap :=
  map_at lt (price o)
    (fun level =>
       mkLevel (orders level ++ [o]) (Int64.add (total_qty level) (qty o)))
    book.

Definition add (b : t) (order : Order) : t :=
  match side order with
  | Buy => mk (insert greater (bids_ b) order) (asks_ b)
  | Sell => mk (bids_ b) (insert less (asks_ b) order)
  end.

(** The side an incoming order is matched against. *)
Definition opposite (b : t) (s : Side) : PriceMap :=
  match s with Buy => asks_ b | Sell => bids_ b end.

Definition set_opposite (b : t) (s : Side) (m : PriceMap) : t :=
  match s with Buy => mk (bids_ b) m | Sell => mk m (asks_ b) end.

(** [OrderBook::match] run with [fuel] loop iterations at its disposal. *)
Definition match_fuel (fuel : nat) (b : t) (incoming : Order)
    (trades : list Trade) : option (t * Order * list Trade) :=
  if qty incoming <=? 0 then Some (b, incoming, trades)
  else
    match side incoming with
    | Buy =>
        match sweep_loop buy_stop fuel (mkSweep incoming (asks_ b) trades) with
        | Some s => Some (mk (bids_ b) (s_book s), s_taker s, s_trades s)
        | None => None
        end
    | Sell =>
        match sweep_loop sell_stop fuel (mkSweep incoming (bids_ b) trades) with
        | Some s => Some (mk (s_book s) (asks_ b), s_taker s, s_trades s)
        | None => None
        end
    end.

(** [OrderBook::match]: the book, the taker and the trade vector it leaves.
    The fuel given is the size of the opposite side, which the termination
    theorem shows to be enough, so that the last branch is never taken. *)
Definition match_ (b : t) (incoming : Order) (trades : list Trade)
    : t * Order * list Trade :=
  match match_fuel (book_size (opposite b (side incoming))) b incoming
          trades with
  | Some r => r
  | None => (b, incoming, trades)
  end.

Definition best_bid (b : t) : Z :=
  match bids_ b with
  | [] => 0
  | (k, _) :: _ => k
  end.

Definition best_ask (b : t) : Z :=
  match asks_ b with
  | [] => 0
  | (k, _) :: _ => k
  end.

End OrderBook.

(** ** metrics.hpp *)

Module LatencyStats.

(** [samples_], [min_] and [max_]; the [long double] accumulator [sum_],
    read by [report] only, is a floating-point value and is left out. *)
Record t : Type := mk {
  samples_ : list Z;
  min_ : Z;
  max_ : Z
}.

Definition empty : t := mk [] UInt64.max_unsigned 0.

Definition add (l : t) (ns : Z) : t :=
  mk (samples_ l ++ [ns])
     (if ns <? min_ l then ns else min_ l)
     (if max_ l <? ns then ns else max_ l).

Definition count (l : t) : nat := length (samples_ l).

End LatencyStats.

(** ** matching_engine.hpp *)

Module MatchingEngine.

Record t : Type := mk {
  book_ : OrderBook.t;
  latency_ : LatencyStats.t
}.

Definition init (latency : LatencyStats.t) : t := mk OrderBook.empty latency.

(** [MatchingEngine::process].  [clock] holds the two readings of
    [now_ns()], at entry and at exit.  The function returns nothing to its
    caller: its effects are the new engine state and the trade vector. *)
Definition process (clock : Z * Z) (e : t) (order : Order)
    (trades : list Trade) : t * list Trade :=
  let '(start, end_) := clock in
  let '(book1, order1, trades1) := OrderBook.match_ (book_ e) order trades in
  let book2 := if 0 <? qty order1 then OrderBook.add book1 order1 else book1 in
  (mk book2 (LatencyStats.add (latency_ e) (UInt64.sub end_ start)), trades1).

(** A run of the engine: the orders are processed in sequence, each with
    its own clock readings, and all trades accumulate in one vector. *)
Fixpoint run (e : t) (trades : list Trade) (input : list (Z * Z * Order))
    : t * list Trade :=
  match input with
  | [] => (e, trades)
  | (clock, order) :: rest =>
      let '(e', trades') := process clock e order trades in
      run e' trades' rest
  end.

End MatchingEngine.

(** ** Notions used to state the properties *)

(** The own side of an order, where its unfilled remainder is posted. *)
Definition own (b : OrderBook.t) (s : Side) : PriceMap :=
  match s with Buy => OrderBook.bids_ b | Sell => OrderBook.asks_ b end.

(** The comparator of the map that holds the orders of side [s]. *)
Definition cmp_of (s : Side) : Z -> Z -> bool :=
  match s with Buy => greater | Sell => less end.

Definition flip (s : Side) : Side :=
  match s with Buy => Sell | Sell => Buy end.

(** An order as it rests at the level of key [k] on side [sd]. *)
Definition resting_ok (sd : Side) (k : Z) (o : Order) : Prop :=
  side o = sd /\ price o = k /\ 0 < qty o <= Int64.max_signed.

(** A level as the engine leaves it: its queue is not empty, every order in
    it has a positive quantity, and the cached total is the 64-bit sum of
    the quantities. *)
Definition level_ok (sd : Side) (e : Z * PriceLevel) : Prop :=
  orders (snd e) <> [] /\
  Forall (resting_ok sd (fst e)) (orders (snd e)) /\
  total_qty (snd e) = Int64.wrap (sum_qty (orders (snd e))).

(** Keys in the strict order of the comparator, as [std::map] keeps them. *)
Fixpoint sorted_keys (lt : Z -> Z -> bool) (ks : list Z) : Prop :=
  match ks with
  | [] => True
  | k :: rest => Forall (fun k' => lt k k' = true) rest /\ sorted_keys lt rest
  end.

Definition side_ok (sd : Side) (m : PriceMap) : Prop :=
  sorted_keys (cmp_of sd) (map fst m) /\ Forall (level_ok sd) m.

(** The best bid is below the best ask when both sides have a level. *)
Definition uncrossed (b : OrderBook.t) : Prop :=
  match OrderBook.bids_ b, OrderBook.asks_ b with
  | (kb, _) :: _, (ka, _) :: _ => kb < ka
  | _, _ => True
  end.

Definition book_ok (b : OrderBook.t) : Prop :=
  side_ok Buy (OrderBook.bids_ b) /\ side_ok Sell (OrderBook.asks_ b) /\
  uncrossed b.

(** The best prices of the two sides are apart, seen from a taker of side
    [sd]: the best price of its own side is strictly better for it than the
    best price of the side it takes from, so that it cannot trade there. *)
Definition apart (sd : Side) (own_side opp_side : PriceMap) : Prop :=
  forall ko kp,
    hd_error (map fst own_side) = Some ko ->
    hd_error (map fst opp_side) = Some kp ->
    match sd with Buy => ko < kp | Sell => kp < ko end.

(** [consumed tid q ms q' ms' ts]: a taker [tid] with quantity [q] takes
    liquidity from the queue [ms] strictly from its front, leaving the taker
    with [q'], the queue as [ms'] and emitting the trades [ts].  Every maker
    reached before the last one is filled for its whole quantity. *)
Inductive consumed (tid : Z)
    : Z -> list Order -> Z -> list Order -> list Trade -> Prop :=
| consumed_none (q : Z) (ms : list Order) : consumed tid q ms q ms []
| consumed_full (q : Z) (m : Order) (ms : list Order) (q' : Z)
    (ms' : list Order) (ts : list Trade) :
    qty m <= q ->
    consumed tid (q - qty m) ms q' ms' ts ->
    consumed tid q (m :: ms) q' ms'
      (mkTrade tid (id m) (price m) (qty m) :: ts)
| consumed_part (q : Z) (m : Order) (ms : list Order) :
    0 < q < qty m ->
    consumed tid q (m :: ms) 0 (set_qty m (qty m - q) :: ms)
      [mkTrade tid (id m) (price m) q].

(** [a] is strictly better than [b] for a taker of side [s]: lower for a
    buyer, who takes asks, and higher for a seller, who takes bids. *)
Definition better (s : Side) (a b : Z) : Prop :=
  match s with Buy => a < b | Sell => b < a end.

(** [A] has priority over [B] among the orders a taker of side [s] can
    meet in [m]: a strictly better price, or the same level and an earlier
    place in its queue. *)
Definition has_priority (s : Side) (m : PriceMap) (A B : Order) : Prop :=
  (In A (resting m) /\ In B (resting m) /\ better s (price A) (price B))
  \/ (exists k level l1 l2 l3,
        In (k, level) m /\ orders level = l1 ++ A :: l2 ++ B :: l3).

(** The fields of an order the engine reads. *)
Definition key_of (o : Order) : Z * Side * Z * Z :=
  (id o, side o, price o, qty o).

(** [g] applied to every resting order of a side. *)
Definition map_orders (g : Order -> Order) (m : PriceMap) : PriceMap :=
  map (fun e => (fst e, mkLevel (map g (orders (snd e))) (total_qty (snd e))))
      m.

(** A book with the arrival tags of its resting orders erased. *)
Definition untag_order (o : Order) : Order :=
  mkOrder (id o) (side o) (price o) (qty o) 0.

Definition map_book (g : Order -> Order) (b : OrderBook.t) : OrderBook.t :=
  OrderBook.mk (map_orders g (OrderBook.bids_ b))
               (map_orders g (OrderBook.asks_ b)).

Definition untag (b : OrderBook.t) : OrderBook.t := map_book untag_order b.

(** Assignment to the [price] member of an order. *)
Definition set_price (o : Order) (p : Z) : Order :=
  mkOrder (id o) (side o) p (qty o) (ts_ns o).

(** What [process] does to the book and to the trade vector. *)
Definition book_step (b : OrderBook.t) (o : Order) (trades : list Trade)
    : OrderBook.t * list Trade :=
  let '(b1, o1, trades1) := OrderBook.match_ b o trades in
  (if 0 <? qty o1 then OrderBook.add b1 o1 else b1, trades1).

Fixpoint book_run (b : OrderBook.t) (trades : list Trade) (os : list Order)
    : OrderBook.t * list Trade :=
  match os with
  | [] => (b, trades)
  | o :: rest =>
      let '(b', trades') := book_step b o trades in
      book_run b' trades' rest
  end.

(** All the levels of a book, bids first. *)
Definition all_levels (b : OrderBook.t) : PriceMap :=
  OrderBook.bids_ b ++ OrderBook.asks_ b.

(** An order the contract of [submit] excludes, seen from the book [b]. *)
Definition invalid (b : OrderBook.t) (o : Order) : Prop :=
  qty o <= 0 \/ price o <= 0 \/
  In (id o)
     (map id (resting (OrderBook.bids_ b) ++ resting (OrderBook.asks_ b))).

(** The submit has no effect: the book and the trade vector are as before. *)
Definition without_effect (clock : Z * Z) (e : MatchingEngine.t) (o : Order)
    (trades : list Trade) : Prop :=
  MatchingEngine.book_ (fst (MatchingEngine.process clock e o trades))
  = MatchingEngine.book_ e /\
  snd (MatchingEngine.process clock e o trades) = trades.

(** The orders resting in a book, bids first. *)
Definition resting_orders (b : OrderBook.t) : list Order :=
  resting (OrderBook.bids_ b) ++ resting (OrderBook.asks_ b).

(** The public member functions of [OrderBook] and [MatchingEngine] that
    change the book: [add], [match] and [process].  The others ([best_bid],
    [best_ask], [dump], [dump_csv], [book]) are [const]. *)
Inductive Mutator : Type :=
| CallAdd (order : Order)
| CallMatch (incoming : Order)
| CallProcess (order : Order).

Definition call_order (c : Mutator) : Order :=
  match c with CallAdd o | CallMatch o | CallProcess o => o end.

(** The book and the trade vector after the call [c]. *)
Definition call (b : OrderBook.t) (trades : list Trade) (c : Mutator)
    : OrderBook.t * list Trade :=
  match c with
  | CallAdd order => (OrderBook.add b order, trades)
  | CallMatch incoming =>
      (fst (fst (OrderBook.match_ b incoming trades)),
       snd (OrderBook.match_ b incoming trades))
  | CallProcess order => book_step b order trades
  end.

(** The call [c] acts as a cancellation of the id [i] in the book [b]: after
    it no order with this id rests in the book, and no trade was emitted. *)
Definition cancels (c : Mutator) (b : OrderBook.t) (i : Z) : Prop :=
  forall trades,
    ~ In i (map id (resting_orders (fst (call b trades c)))) /\
    snd (call b trades c) = trades.

(** The trade that fills the maker [m] for its whole quantity. *)
Definition full_fill (tid : Z) (m : Order) : Trade :=
  mkTrade tid (id m) (price m) (qty m).

(** The states of the two loops with the taker rewritten by [phi] and the
    resting orders by [psi]. *)
Definition erase_fill (phi psi : Order -> Order) (s : FillState) : FillState :=
  mkFill (phi (f_taker s))
         (mkLevel (map psi (orders (f_level s))) (total_qty (f_level s)))
         (f_trades s).

Definition erase_sweep (phi psi : Order -> Order) (s : SweepState)
    : SweepState :=
  mkSweep (phi (s_taker s)) (map_orders psi (s_book s)) (s_trades s).

(** Equations between lists that differ in the bracketing of [++]. *)
Ltac reassoc :=
  repeat first [rewrite <- app_assoc | progress simpl]; reflexivity.

(** Orders given by numerals are within the ranges of their types. *)
Ltac typed :=
  repeat first
    [ apply Forall_nil
    | apply Forall_cons
    | progress (unfold order_typed, UInt64.in_range, Int64.in_range,
                UInt64.max_unsigned, Int64.min_signed, Int64.max_signed;
                simpl)
    | split
    | lia ].

(** ** order_book.cpp: [dump] *)

Module Dump.
Import String.
Local Open Scope string_scope.

(** The end of line ["\n"]. *)
Definition nl : string := String (Ascii.ascii_of_nat 10) EmptyString.

(** [os << n] for an [int64_t]: the decimal digits, after a minus sign when
    [n] is negative. *)
Definition dec (n : Z) : string :=
  DecimalString.NilZero.string_of_int (Z.to_int n).

(** The range-for loop of [dump] over one side, entered with the value
    [count] of the counter: a line is written, then the counter is
    incremented and compared with [depth]. *)
Fixpoint dump_levels (depth count : Z) (m : PriceMap) (os : string) : string :=
  match m with
  | [] => os
  | (px, level) :: rest =>
      let os1 :=
        ((((os ++ "  ") ++ dec px) ++ " / ") ++ dec (total_qty level)) ++ nl in
      let count1 := UInt64.wrap (count + 1) in
      if (depth <=? count1)%Z then os1 else dump_levels depth count1 rest os1
  end.

(** [OrderBook::dump]; [os] is what the stream holds before the call. *)
Definition dump (os : string) (b : OrderBook.t) (depth : Z) : string :=
  let os1 := (os ++ "BIDS (price/qty)") ++ nl in
  let os2 := dump_levels depth 0 (OrderBook.bids_ b) os1 in
  let os3 := (os2 ++ "ASKS (price/qty)") ++ nl in
  dump_levels depth 0 (OrderBook.asks_ b) os3.

(** The line [dump] writes for a level, and the lines for a list of levels. *)
Definition line (e : Z * PriceLevel) : string :=
  "  " ++ dec (fst e) ++ " / " ++ dec (total_qty (snd e)) ++ nl.

Fixpoint lines (m : PriceMap) : string :=
  match m with
  | [] => ""
  | e :: rest => line e ++ lines rest
  end.

End Dump.

(** ** intrusive_list.hpp *)

Module IntrusiveList.

(** A pointer [T*]: [None] is [nullptr], [Some a] points to the node at the
    address [a]. *)
Definition ptr : Type := option nat.

(** The members [next] and [prev] that the list requires of a node. *)
Record Links : Type := mkLinks {
  next : ptr;
  prev : ptr
}.

(** The nodes in memory: the links of the node at each address.  The nodes
    belong to the caller; the list holds pointers to them only. *)
Definition Heap : Type := nat -> Links.

(** [a->next = p] and [a->prev = p]. *)
Definition set_next (h : Heap) (a : nat) (p : ptr) : Heap :=
  fun x => if Nat.eqb x a then mkLinks p (prev (h a)) else h x.

Definition set_prev (h : Heap) (a : nat) (p : ptr) : Heap :=
  fun x => if Nat.eqb x a then mkLinks (next (h a)) p else h x.

Record t : Type := mk {
  head_ : ptr;
  tail_ : ptr;
  size_ : Z
}.

(** A default-constructed list. *)
Definition empty_list : t := mk None None 0.

Definition push_back (h : Heap) (l : t) (node : nat) : Heap * t :=
  let h1 := set_next h node None in
  let h2 := set_prev h1 node (tail_ l) in
  match tail_ l with
  | Some tl =>
      (set_next h2 tl (Some node),
       mk (head_ l) (Some node) (UInt64.wrap (size_ l + 1)))
  | None =>
      (h2, mk (Some node) (Some node) (UInt64.wrap (size_ l + 1)))
  end.

(** [pop_front]: the memory, the list and the pointer returned. *)
Definition pop_front (h : Heap) (l : t) : Heap * t * ptr :=
  match head_ l with
  | None => (h, l, None)
  | Some node =>
      let head1 := next (h node) in
      let h1 := match head1 with
                | Some hd => set_prev h hd None
                | None => h
                end in
      let tail1 := match head1 with
                   | Some _ => tail_ l
                   | None => None
                   end in
      let h2 := set_next h1 node None in
      let h3 := set_prev h2 node None in
      (h3, mk head1 tail1 (UInt64.wrap (size_ l - 1)), Some node)
  end.

Definition remove (h : Heap) (l : t) (node : nat) : Heap * t :=
  let h1 := match prev (h node) with
            | Some p => set_next h p (next (h node))
            | None => h
            end in
  let head1 := match prev (h node) with
               | Some _ => head_ l
               | None => next (h node)
               end in
  let h2 := match next (h1 node) with
            | Some n => set_prev h1 n (prev (h1 node))
            | None => h1
            end in
  let tail1 := match next (h1 node) with
               | Some _ => tail_ l
               | None => prev (h1 node)
               end in
  let h3 := set_next h2 node None in
  let h4 := set_prev h3 node None in
  (h4, mk head1 tail1 (UInt64.wrap (size_ l - 1))).

Definition front (l : t) : ptr := head_ l.

Definition empty (l : t) : bool :=
  match head_ l with None => true | Some _ => false end.

Definition size (l : t) : Z := size_ l.

(** The first address of [l], or [q] when [l] is empty; the last address of
    [l], or [p] when [l] is empty. *)
Definition first_or (q : ptr) (l : list nat) : ptr :=
  match l with [] => q | x :: _ => Some x end.

Fixpoint last_or (p : ptr) (l : list nat) : ptr :=
  match l with [] => p | x :: r => last_or (Some x) r end.

(** The nodes at the addresses [l] are linked one to the next in both
    directions, the first pointing back to [p] and the last on to [q]. *)
Fixpoint linked (h : Heap) (p : ptr) (l : list nat) (q : ptr) : Prop :=
  match l with
  | [] => True
  | x :: r =>
      prev (h x) = p /\ next (h x) = first_or q r /\ linked h (Some x) r q
  end.

(** The list object [L] and the memory [h] hold the sequence [l] of distinct
    nodes, front first. *)
Definition holds (h : Heap) (L : t) (l : list nat) : Prop :=
  NoDup l /\
  head_ L = first_or None l /\
  tail_ L = last_or None l /\
  linked h None l None /\
  size_ L = UInt64.wrap (Z.of_nat (length l)).

End IntrusiveList.

(** ** memory_pool.hpp *)

Module ObjectPool.

(** A pointer to a slot of the pool: the block, by its position in
    [blocks_], and the index of the slot in the block, which stands for the
    address [base + index * sizeof(T)].  [None] is [nullptr]. *)
Definition slot : Type := (nat * nat)%type.
Definition ptr : Type := option slot.

Definition slot_eqb (a b : slot) : bool :=
  Nat.eqb (fst a) (fst b) && Nat.eqb (snd a) (snd b).

(** What the bytes of a slot hold: a [FreeNode] with its [next] pointer, or
    something else (a constructed [T], or the bytes of a fresh block), which
    the pool cannot read as a [FreeNode]. *)
Inductive Cell : Type :=
| FreeNode (next : ptr)
| Object.

Definition Memory : Type := slot -> Cell.

Definition write (m : Memory) (a : slot) (c : Cell) : Memory :=
  fun x => if slot_eqb x a then c else m x.

(** The pool: the number of blocks in [blocks_], the three scalar members and
    the contents of the blocks. *)
Record t : Type := mk {
  blocks_ : nat;
  free_list_ : ptr;
  allocated_ : Z;
  capacity_ : Z;
  memory : Memory
}.

(** The loop of [grow] over the block [b], from [i] down to 1: the slot
    [i - 1] is made a free node that points to the head so far, and becomes
    the head. *)
Fixpoint thread (b i : nat) (m : Memory) (head : ptr) : Memory * ptr :=
  match i with
  | O => (m, head)
  | S j => thread b j (write m (b, j) (FreeNode head)) (Some (b, j))
  end.

(** [grow], for the template argument [BlockSize].  The allocation of the
    block is taken to succeed. *)
Definition grow (BlockSize : nat) (p : t) : t :=
  let threaded := thread (blocks_ p) BlockSize (memory p) (free_list_ p) in
  mk (S (blocks_ p)) (snd threaded) (allocated_ p)
     (UInt64.wrap (capacity_ p + Z.of_nat BlockSize)) (fst threaded).

(** The constructor. *)
Definition init (BlockSize : nat) : t :=
  grow BlockSize (mk 0 None 0 0 (fun _ => Object)).

(** [allocate]: the pool and the pointer returned; [None] when the call
    reads [slot->next] through a null pointer or from a slot that holds no
    free node, where the source has no defined behaviour. *)
Definition allocate (BlockSize : nat) (p : t) : option (t * slot) :=
  let p1 := match free_list_ p with
            | None => grow BlockSize p
            | Some _ => p
            end in
  match free_list_ p1 with
  | None => None
  | Some s =>
      match memory p1 s with
      | FreeNode nxt =>
          Some (mk (blocks_ p1) nxt (UInt64.wrap (allocated_ p1 + 1))
                   (capacity_ p1) (write (memory p1) s Object),
                s)
      | Object => None
      end
  end.

Definition deallocate (p : t) (s : slot) : t :=
  mk (blocks_ p) (Some s) (UInt64.wrap (allocated_ p - 1)) (capacity_ p)
     (write (memory p) s (FreeNode (free_list_ p))).

Definition allocated (p : t) : Z := allocated_ p.
Definition capacity (p : t) : Z := capacity_ p.

(** [memory_bytes], [sizeT] being [sizeof(T)]. *)
Definition memory_bytes (BlockSize : nat) (sizeT : Z) (p : t) : Z :=
  UInt64.wrap
    (UInt64.wrap (Z.of_nat (blocks_ p) * Z.of_nat BlockSize) * sizeT).

(** The slots of the block [b], lowest first, and the slots of the first
    [n] blocks. *)
Definition block_slots (BlockSize b : nat) : list slot :=
  map (fun i => (b, i)) (seq 0 BlockSize).

Fixpoint all_slots (BlockSize n : nat) : list slot :=
  match n with
  | O => []
  | S k => all_slots BlockSize k ++ block_slots BlockSize k
  end.

(** The free list that starts at [head] runs through the slots [l]. *)
Fixpoint free_chain (m : Memory) (head : ptr) (l : list slot) : Prop :=
  match l with
  | [] => head = None
  | s :: r => head = Some s /\ exists nxt, m s = FreeNode nxt /\
                                           free_chain m nxt r
  end.

(** The pool with the free list [free] and the slots [live] handed out and
    not returned: together they are the slots of the blocks, each once, and
    the counters count them. *)
Definition pool_ok (BlockSize : nat) (p : t) (free live : list slot) : Prop :=
  free_chain (memory p) (free_list_ p) free /\
  NoDup (free ++ live) /\
  Permutation (free ++ live) (all_slots BlockSize (blocks_ p)) /\
  allocated_ p = UInt64.wrap (Z.of_nat (length live)) /\
  capacity_ p = UInt64.wrap (Z.of_nat (blocks_ p * BlockSize)).

End ObjectPool.

(** ** sim.hpp and the simulation branch of main.cpp *)

Module Sim.

(** [SimConfig]; the member [buy_ratio], a [double] read by the distribution
    of sides only, is left out. *)
Record SimConfig : Type := mkConfig {
  count : nat;
  base_price : Z;
  price_range : Z;
  max_qty : Z;
  seed : Z
}.

(** What the generator, the three distributions and the clock give in one
    pass of the loop: the values of [price_delta(rng)], [side_dist(rng)],
    [qty_dist(rng)] and [now_ns()].  The algorithms of the standard library
    behind them are not modelled: a run takes these values as given. *)
Record Draw : Type := mkDraw {
  delta : Z;
  is_buy : bool;
  quantity : Z;
  now : Z
}.

(** The values the types and the distributions allow: [qty_dist] is uniform
    on the integers from 1 to [max(1, max_qty)]. *)
Definition draw_ok (cfg : SimConfig) (d : Draw) : Prop :=
  Int64.in_range (delta d) /\
  1 <= quantity d <= Z.max 1 (max_qty cfg) /\
  UInt64.in_range (now d).

(** The order built in the pass [i] of the loop. *)
Definition sim_order (cfg : SimConfig) (i : nat) (d : Draw) : Order :=
  mkOrder (UInt64.wrap (Z.of_nat i + 1))
          (if is_buy d then Buy else Sell)
          (Z.max 1 (Int64.add (base_price cfg) (delta d)))
          (quantity d)
          (now d).

(** The loop of [run_simulation], with [n] passes to go from the pass [i]
    on; [State] is what the callback [on_order] acts on. *)
Fixpoint sim_loop {State : Type} (cfg : SimConfig) (draw : nat -> Draw)
    (on_order : State -> Order -> State) (n i : nat) (st : State) : State :=
  match n with
  | O => st
  | S k =>
      sim_loop cfg draw on_order k (S i)
        (on_order st (sim_order cfg i (draw i)))
  end.

Definition run_simulation {State : Type} (cfg : SimConfig)
    (draw : nat -> Draw) (on_order : State -> Order -> State) (st : State)
    : State :=
  sim_loop cfg draw on_order (count cfg) 0 st.

(** The callback of [main]: the engine, the trade vector and the counter
    [processed]; [clock] gives the two readings [process] takes in each
    call. *)
Definition on_order (keep_trades : bool) (clock : nat -> Z * Z)
    (st : MatchingEngine.t * list Trade * nat) (order : Order)
    : MatchingEngine.t * list Trade * nat :=
  let '(e, trades, processed) := st in
  let '(e1, trades1) :=
    MatchingEngine.process (clock processed) e order trades in
  (e1, if keep_trades then trades1 else [], S processed).

(** The simulation branch of [main], up to the end of the run. *)
Definition simulate (keep_trades : bool) (cfg : SimConfig)
    (draw : nat -> Draw) (clock : nat -> Z * Z) (latency : LatencyStats.t)
    : MatchingEngine.t * list Trade * nat :=
  run_simulation cfg draw (on_order keep_trades clock)
    (MatchingEngine.init latency, [], O).

(** The orders of a run, with the clock readings of their processing. *)
Definition sim_input (cfg : SimConfig) (draw : nat -> Draw)
    (clock : nat -> Z * Z) : list (Z * Z * Order) :=
  map (fun i => (clock i, sim_order cfg i (draw i))) (seq 0 (count cfg)).

End Sim.

(** ** The scenarios of the specification, evaluated *)

Definition at_zero (os : list Order) : list (Z * Z * Order) :=
  map (fun o => (0, 0, o)) os.

Definition S_sell (i p q : Z) : Order := mkOrder i Sell p q 0.
Definition S_buy (i p q : Z) : Order := mkOrder i Buy p q 0.

Definition run_book (os : list Order) : OrderBook.t * list Trade :=
  let '(e, ts) :=
    MatchingEngine.run (MatchingEngine.init LatencyStats.empty) []
      (at_zero os) in
  (MatchingEngine.book_ e, ts).

Example scenario_S1 :
  run_book [S_sell 1 100 10; S_buy 2 100 4]
  = (OrderBook.mk [] [(100, mkLevel [S_sell 1 100 6] 6)],
     [mkTrade 2 1 100 4]).
Proof. vm_compute. reflexivity. Qed.

Example scenario_S2 :
  run_book [S_sell 1 100 5; S_sell 2 101 5; S_buy 3 101 8]
  = (OrderBook.mk [] [(101, mkLevel [S_sell 2 101 2] 2)],
     [mkTrade 3 1 100 5; mkTrade 3 2 101 3]).
Proof. vm_compute. reflexivity. Qed.

Example scenario_S3 :
  run_book [S_sell 1 100 3; S_sell 2 100 7; S_buy 3 100 4]
  = (OrderBook.mk [] [(100, mkLevel [S_sell 2 100 6] 6)],
     [mkTrade 3 1 100 3; mkTrade 3 2 100 1]).
Proof. vm_compute. reflexivity. Qed.

Example scenario_S4 :
  run_book [S_sell 1 101 5; S_buy 2 100 5]
  = (OrderBook.mk [(100, mkLevel [S_buy 2 100 5] 5)]
                  [(101, mkLevel [S_sell 1 101 5] 5)],
     []).
Proof. vm_compute. reflexivity. Qed.

Example scenario_S5 :
  run_book [S_sell 1 100 3; S_buy 2 100 10]
  = (OrderBook.mk [(100, mkLevel [S_buy 2 100 7] 7)] [],
     [mkTrade 2 1 100 3]).
Proof. vm_compute. reflexivity. Qed.

(** * Properties *)

(** ** 64-bit arithmetic *)

Lemma wrap_small (x : Z) : Int64.in_range x -> Int64.wrap x = x.
Proof.
  unfold Int64.in_range, Int64.min_signed, Int64.max_signed, Int64.wrap.
  intros H. rewrite Z.mod_small; lia.
Qed.

Lemma wrap_zero : Int64.wrap 0 = 0.
Proof. reflexivity. Qed.

Lemma sub_self (x : Z) : Int64.sub x x = 0.
Proof. unfold Int64.sub. rewrite Z.sub_diag. apply wrap_zero. Qed.

Lemma wrap_sub_wrap (a b : Z) : Int64.wrap (Int64.wrap a - b) = Int64.wrap (a - b).
Proof.
  unfold Int64.wrap. f_equal.
  replace ((a + 2 ^ 63) mod 2 ^ 64 - 2 ^ 63 - b + 2 ^ 63)
    with ((a + 2 ^ 63) mod 2 ^ 64 - b) by lia.
  rewrite Zminus_mod_idemp_l. f_equal. lia.
Qed.

Lemma wrap_add_wrap (a b : Z) : Int64.wrap (Int64.wrap a + b) = Int64.wrap (a + b).
Proof.
  replace (Int64.wrap a + b) with (Int64.wrap a - (- b)) by lia.
  rewrite wrap_sub_wrap. f_equal. lia.
Qed.

(** ** Lists of orders and trades *)

Lemma sum_qty_app (l1 l2 : list Order) :
  sum_qty (l1 ++ l2) = sum_qty l1 + sum_qty l2.
Proof. induction l1 as [|o l1 IH]; simpl; lia. Qed.

Lemma is_nil_false {A : Type} (l : list A) :
  is_nil l = false -> exists x r, l = x :: r.
Proof. destruct l as [|x r]; [discriminate | eauto]. Qed.

Lemma is_nil_true {A : Type} (l : list A) : is_nil l = true -> l = [].
Proof. destruct l; [reflexivity | discriminate]. Qed.

(** ** Termination of the two loops *)

Lemma fill_cond_true (s : FillState) :
  fill_cond s = true ->
  0 < qty (f_taker s) /\ exists m r, orders (f_level s) = m :: r.
Proof.
  unfold fill_cond. intros H. apply andb_true_iff in H. destruct H as [Hq Hn].
  split; [lia|]. apply is_nil_false. now apply negb_true_iff.
Qed.

(** What one pass of the inner loop does to a maker with a positive
    quantity, split on [min]. *)
Lemma fill_body_cases (px : Z) (s : FillState) (m : Order) (r : list Order) :
  orders (f_level s) = m :: r ->
  0 < qty (f_taker s) ->
  0 < qty m <= Int64.max_signed ->
  (qty m <= qty (f_taker s) /\
   fill_body px s =
     mkFill (set_qty (f_taker s) (Int64.sub (qty (f_taker s)) (qty m)))
            (mkLevel r (Int64.sub (total_qty (f_level s)) (qty m)))
            (f_trades s ++ [mkTrade (id (f_taker s)) (id m) px (qty m)]))
  \/
  (qty (f_taker s) < qty m /\
   fill_body px s =
     mkFill (set_qty (f_taker s) 0)
            (mkLevel (set_qty m (qty m - qty (f_taker s)) :: r)
                     (Int64.sub (total_qty (f_level s)) (qty (f_taker s))))
            (f_trades s ++
               [mkTrade (id (f_taker s)) (id m) px (qty (f_taker s))])).
Proof.
  intros Ho Hq Hm. unfold fill_body. rewrite Ho. cbv zeta.
  destruct (Z_le_gt_dec (qty m) (qty (f_taker s))) as [Hle|Hgt].
  - left. split; [assumption|].
    rewrite Z.min_r by assumption. simpl. rewrite sub_self. reflexivity.
  - right. split; [lia|].
    rewrite Z.min_l by lia. simpl. rewrite sub_self.
    unfold Int64.sub at 1 2.
    rewrite wrap_small
      by (unfold Int64.in_range, Int64.min_signed, Int64.max_signed in *; lia).
    destruct (qty m - qty (f_taker s) =? 0) eqn:E; [lia | reflexivity].
Qed.

(** Progress of the inner loop, in every state: a pass removes the maker at
    the front, or it brings the taker's quantity down to zero. *)
Lemma fill_body_progress (px : Z) (s : FillState) :
  fill_cond s = true ->
  (length (orders (f_level (fill_body px s))) < length (orders (f_level s)))%nat
  \/ (qty (f_taker (fill_body px s)) = 0 /\
      qty (f_taker (fill_body px s)) < qty (f_taker s) /\
      length (orders (f_level (fill_body px s)))
        = length (orders (f_level s))).
Proof.
  intros Hc. apply fill_cond_true in Hc. destruct Hc as [Hq (m & r & Ho)].
  unfold fill_body. rewrite Ho. cbv zeta.
  destruct (Z_le_gt_dec (qty m) (qty (f_taker s))) as [Hle|Hgt].
  - left. rewrite Z.min_r by assumption. simpl. rewrite sub_self. simpl. lia.
  - rewrite Z.min_l by lia. simpl. rewrite sub_self.
    destruct (Int64.sub (qty m) (qty (f_taker s)) =? 0); simpl.
    + left. lia.
    + right. repeat split; lia.
Qed.

Lemma fill_loop_total (fuel : nat) (px : Z) :
  forall s, (length (orders (f_level s)) <= fuel)%nat ->
            exists s', fill_loop fuel px s = Some s'.
Proof.
  induction fuel as [|n IH]; intros s Hlen; simpl.
  - destruct (fill_cond s) eqn:Hc; [|eauto].
    apply fill_cond_true in Hc. destruct Hc as [_ (m & r & Ho)].
    rewrite Ho in Hlen. simpl in Hlen. lia.
  - destruct (fill_cond s) eqn:Hc; [|eauto].
    destruct (fill_body_progress px s Hc) as [Hlt | (Hz & _ & Heq)].
    + apply IH. lia.
    + destruct n as [|n']; simpl.
      * unfold fill_cond. rewrite Hz. simpl. eauto.
      * unfold fill_cond at 1. rewrite Hz. simpl. eauto.
Qed.

Lemma fill_loop_exit (fuel : nat) (px : Z) :
  forall s s', fill_loop fuel px s = Some s' -> fill_cond s' = false.
Proof.
  induction fuel as [|n IH]; intros s s'; simpl;
    destruct (fill_cond s) eqn:Hc; intros H; try discriminate.
  - now inversion H; subst.
  - eauto.
  - now inversion H; subst.
Qed.

Lemma sweep_cond_true (s : SweepState) :
  sweep_cond s = true ->
  0 < qty (s_taker s) /\ exists px level rest, s_book s = (px, level) :: rest.
Proof.
  unfold sweep_cond. intros H. apply andb_true_iff in H. destruct H as [Hq Hn].
  split; [lia|]. apply negb_true_iff, is_nil_false in Hn.
  destruct Hn as ([px level] & rest & E). eauto.
Qed.

Lemma resting_length_cons (px : Z) (level : PriceLevel) (rest : PriceMap) :
  book_size ((px, level) :: rest)
  = (S (length (orders level)) + book_size rest)%nat.
Proof. unfold book_size. simpl. rewrite length_app. lia. Qed.

(** Progress of the outer loop, in every state: a pass leaves the loop, or
    it erases the level at [begin()], or it leaves the taker with nothing to
    fill, so that the next test of the loop condition fails. *)
Lemma sweep_body_progress (stop : Z -> Z -> bool) (fuel : nat)
    (s s' : SweepState) (c : Ctl) :
  sweep_cond s = true ->
  sweep_body stop fuel s = Some (c, s') ->
  c = Break
  \/ (S (length (s_book s')) = length (s_book s))
  \/ (sweep_cond s' = false /\ length (s_book s') = length (s_book s)).
Proof.
  intros Hc Hb. apply sweep_cond_true in Hc.
  destruct Hc as [Hq (px & level & rest & Hbk)].
  unfold sweep_body in Hb. rewrite Hbk in Hb.
  destruct (stop (price (s_taker s)) px).
  - inversion Hb. now left.
  - destruct (fill_loop fuel px (mkFill (s_taker s) level (s_trades s)))
      as [f|] eqn:Hf; [|discriminate].
    inversion Hb; subst c s'; clear Hb. right. simpl.
    apply fill_loop_exit in Hf.
    destruct (is_nil (orders (f_level f))) eqn:Hn.
    + left. rewrite Hbk. reflexivity.
    + right. rewrite Hbk. split; [|reflexivity].
      unfold fill_cond in Hf. rewrite Hn in Hf. simpl in Hf.
      rewrite andb_true_r in Hf. unfold sweep_cond. simpl. now rewrite Hf.
Qed.

Lemma sweep_loop_total (stop : Z -> Z -> bool) (fuel : nat) :
  forall s, (book_size (s_book s) <= fuel)%nat ->
            exists s', sweep_loop stop fuel s = Some s'.
Proof.
  induction fuel as [|n IH]; intros s Hsz; simpl;
    destruct (sweep_cond s) eqn:Hc; eauto.
  - apply sweep_cond_true in Hc. destruct Hc as [_ (px & level & rest & E)].
    rewrite E, resting_length_cons in Hsz. lia.
  - pose proof (sweep_cond_true s Hc) as [Hq (px & level & rest & E)].
    rewrite E, resting_length_cons in Hsz.
    unfold sweep_body. rewrite E.
    destruct (stop (price (s_taker s)) px); [eauto|].
    destruct (fill_loop_total n px (mkFill (s_taker s) level (s_trades s)))
      as [f Hf]; [simpl; lia|].
    rewrite Hf. pose proof (fill_loop_exit _ _ _ _ Hf) as Hx.
    destruct (is_nil (orders (f_level f))) eqn:Hn.
    + apply IH. simpl. lia.
    + unfold fill_cond in Hx. rewrite Hn in Hx. simpl in Hx.
      rewrite andb_true_r in Hx.
      destruct n; simpl; unfold sweep_cond; simpl; rewrite Hx; simpl; eauto.
Qed.

Lemma match_fuel_total (fuel : nat) (b : OrderBook.t) (incoming : Order)
    (trades : list Trade) :
  (book_size (OrderBook.opposite b (side incoming)) <= fuel)%nat ->
  exists r, OrderBook.match_fuel fuel b incoming trades = Some r.
Proof.
  intros Hsz. unfold OrderBook.match_fuel.
  destruct (qty incoming <=? 0); [eauto|].
  destruct (side incoming); simpl in Hsz.
  - destruct (sweep_loop_total buy_stop fuel
                (mkSweep incoming (OrderBook.asks_ b) trades) Hsz) as [s' E].
    rewrite E. eauto.
  - destruct (sweep_loop_total sell_stop fuel
                (mkSweep incoming (OrderBook.bids_ b) trades) Hsz) as [s' E].
    rewrite E. eauto.
Qed.

(** [match_] is [match_fuel] at a fuel that is enough. *)
Lemma match_eq (b : OrderBook.t) (incoming : Order) (trades : list Trade) :
  OrderBook.match_fuel (book_size (OrderBook.opposite b (side incoming)))
    b incoming trades
  = Some (OrderBook.match_ b incoming trades).
Proof.
  unfold OrderBook.match_.
  destruct (match_fuel_total
              (book_size (OrderBook.opposite b (side incoming)))
              b incoming trades (le_n _)) as [r E].
  now rewrite E.
Qed.

(** ** Consumption from the front of a queue *)

Lemma consumed_app (tid q q' : Z) (ms ms' : list Order) (ts : list Trade)
    (tail : list Order) :
  consumed tid q ms q' ms' ts ->
  consumed tid q (ms ++ tail) q' (ms' ++ tail) ts.
Proof.
  induction 1 as [q ms | q m ms q' ms' ts Hle _ IH | q m ms Hq]; simpl.
  - constructor.
  - now constructor.
  - now constructor.
Qed.

Lemma consumed_trans (tid q q1 q2 : Z) (a b c : list Order)
    (ts1 ts2 : list Trade) :
  consumed tid q a q1 b ts1 ->
  consumed tid q1 b q2 c ts2 ->
  consumed tid q a q2 c (ts1 ++ ts2).
Proof.
  intros H1. revert q2 c ts2.
  induction H1 as [q ms | q m ms q' ms' ts Hle _ IH | q m ms Hq];
    intros q2 c ts2 H2; simpl.
  - assumption.
  - constructor; [assumption|]. now apply IH.
  - inversion H2; subst; simpl in *.
    + now constructor.
    + lia.
    + lia.
Qed.

(** Conservation of quantity on both sides of the trades. *)
Lemma consumed_sum (tid q q' : Z) (ms ms' : list Order) (ts : list Trade) :
  consumed tid q ms q' ms' ts ->
  q' = q - sum_trades ts /\ sum_qty ms' = sum_qty ms - sum_trades ts.
Proof.
  induction 1 as [q ms | q m ms q' ms' ts Hle _ [IH1 IH2] | q m ms Hq]; simpl;
    lia.
Qed.

(** ** The inner loop *)

Lemma fill_loop_stop (fuel : nat) (px : Z) (s : FillState) :
  fill_cond s = false -> fill_loop fuel px s = Some s.
Proof. intros H. destruct fuel; simpl; now rewrite H. Qed.

Lemma set_qty_same (o : Order) : set_qty o (qty o) = o.
Proof. now destruct o. Qed.

Lemma resting_ok_set_qty (sd : Side) (k : Z) (o : Order) (q : Z) :
  resting_ok sd k o -> 0 < q <= qty o -> resting_ok sd k (set_qty o q).
Proof. unfold resting_ok. simpl. intuition lia. Qed.

Lemma fill_loop_spec (sd : Side) (fuel : nat) (px : Z) :
  forall s s',
    fill_loop fuel px s = Some s' ->
    Forall (resting_ok sd px) (orders (f_level s)) ->
    0 <= qty (f_taker s) <= Int64.max_signed ->
    exists new,
      f_trades s' = f_trades s ++ new /\
      consumed (id (f_taker s)) (qty (f_taker s)) (orders (f_level s))
               (qty (f_taker s')) (orders (f_level s')) new /\
      f_taker s' = set_qty (f_taker s) (qty (f_taker s')) /\
      Forall (resting_ok sd px) (orders (f_level s')) /\
      0 <= qty (f_taker s') <= qty (f_taker s) /\
      (forall x, total_qty (f_level s) = Int64.wrap x ->
                 total_qty (f_level s') = Int64.wrap (x - sum_trades new)) /\
      Forall (fun t => trade_price t = px) new.
Proof.
  assert (Hstop : forall s,
             Forall (resting_ok sd px) (orders (f_level s)) ->
             0 <= qty (f_taker s) <= Int64.max_signed ->
             exists new,
               f_trades s = f_trades s ++ new /\
               consumed (id (f_taker s)) (qty (f_taker s)) (orders (f_level s))
                        (qty (f_taker s)) (orders (f_level s)) new /\
               f_taker s = set_qty (f_taker s) (qty (f_taker s)) /\
               Forall (resting_ok sd px) (orders (f_level s)) /\
               0 <= qty (f_taker s) <= qty (f_taker s) /\
               (forall x, total_qty (f_level s) = Int64.wrap x ->
                          total_qty (f_level s)
                          = Int64.wrap (x - sum_trades new)) /\
               Forall (fun t => trade_price t = px) new).
  { intros s Hok Hq. exists []. rewrite app_nil_r, set_qty_same. simpl.
    repeat split; try constructor; try lia; try assumption.
    intros x Hx. now rewrite Z.sub_0_r. }
  induction fuel as [|n IH]; intros s s' Hrun Hok Hq; simpl in Hrun;
    destruct (fill_cond s) eqn:Hc; try discriminate;
    try (inversion Hrun; subst s'; now apply Hstop).
  destruct (fill_cond_true s Hc) as [Hpos (m & r & Ho)].
  assert (Hm : resting_ok sd px m).
  { rewrite Ho in Hok. now inversion Hok. }
  assert (Hr : Forall (resting_ok sd px) r).
  { rewrite Ho in Hok. now inversion Hok. }
  destruct Hm as (Hside & Hprice & Hmq).
  destruct (fill_body_cases px s m r Ho Hpos Hmq) as [[Hle E] | [Hlt E]];
    rewrite E in Hrun; clear E.
  - (* the maker at the front is filled and leaves the queue *)
    assert (Hsub : Int64.sub (qty (f_taker s)) (qty m)
                   = qty (f_taker s) - qty m).
    { apply wrap_small.
      unfold Int64.in_range, Int64.min_signed, Int64.max_signed in *. lia. }
    rewrite Hsub in Hrun.
    apply IH in Hrun; simpl; [|assumption|lia].
    destruct Hrun as (new & Ht & Hcons & Htk & Hok' & Hq' & Htot & Hpx).
    simpl in *.
    exists (mkTrade (id (f_taker s)) (id m) px (qty m) :: new).
    rewrite Ho. repeat split.
    + rewrite Ht, <- app_assoc. reflexivity.
    + rewrite <- Hprice at 1. now constructor.
    + rewrite Htk at 1. reflexivity.
    + assumption.
    + lia.
    + lia.
    + intros x Hx. simpl. rewrite (Htot (x - qty m)).
      * f_equal. lia.
      * unfold Int64.sub. rewrite Hx. apply wrap_sub_wrap.
    + constructor; [reflexivity | assumption].
  - (* the taker is exhausted on the maker at the front *)
    rewrite fill_loop_stop in Hrun by reflexivity.
    inversion Hrun; subst s'; clear Hrun. simpl.
    exists [mkTrade (id (f_taker s)) (id m) px (qty (f_taker s))].
    rewrite Ho. repeat split.
    + rewrite <- Hprice at 1. constructor. lia.
    + constructor; [|assumption].
      apply resting_ok_set_qty; [now repeat split | lia].
    + lia.
    + lia.
    + intros x Hx. simpl. unfold Int64.sub. rewrite Hx, wrap_sub_wrap.
      f_equal. lia.
    + constructor; [reflexivity | constructor].
Qed.

(** ** The outer loop *)

Lemma sweep_loop_stop (stop : Z -> Z -> bool) (fuel : nat) (s : SweepState) :
  sweep_cond s = false -> sweep_loop stop fuel s = Some s.
Proof. intros H. destruct fuel; simpl; now rewrite H. Qed.

Lemma sweep_loop_spec (sd : Side) (stop : Z -> Z -> bool) (fuel : nat) :
  forall s s',
    sweep_loop stop fuel s = Some s' ->
    Forall (level_ok sd) (s_book s) ->
    0 <= qty (s_taker s) <= Int64.max_signed ->
    exists new,
      s_trades s' = s_trades s ++ new /\
      consumed (id (s_taker s)) (qty (s_taker s)) (resting (s_book s))
               (qty (s_taker s')) (resting (s_book s')) new /\
      s_taker s' = set_qty (s_taker s) (qty (s_taker s')) /\
      Forall (level_ok sd) (s_book s') /\
      0 <= qty (s_taker s') <= qty (s_taker s) /\
      (exists dropped,
          map fst (s_book s) = dropped ++ map fst (s_book s')) /\
      (qty (s_taker s') = 0 \/ s_book s' = [] \/
       exists k l r, s_book s' = (k, l) :: r /\
                     stop (price (s_taker s)) k = true) /\
      Forall (fun t => stop (price (s_taker s)) (trade_price t) = false) new.
Proof.
  assert (Hstay : forall s,
             Forall (level_ok sd) (s_book s) ->
             0 <= qty (s_taker s) <= Int64.max_signed ->
             (qty (s_taker s) = 0 \/ s_book s = [] \/
              exists k l r, s_book s = (k, l) :: r /\
                            stop (price (s_taker s)) k = true) ->
             exists new,
               s_trades s = s_trades s ++ new /\
               consumed (id (s_taker s)) (qty (s_taker s)) (resting (s_book s))
                        (qty (s_taker s)) (resting (s_book s)) new /\
               s_taker s = set_qty (s_taker s) (qty (s_taker s)) /\
               Forall (level_ok sd) (s_book s) /\
               0 <= qty (s_taker s) <= qty (s_taker s) /\
               (exists dropped,
                   map fst (s_book s) = dropped ++ map fst (s_book s)) /\
               (qty (s_taker s) = 0 \/ s_book s = [] \/
                exists k l r, s_book s = (k, l) :: r /\
                              stop (price (s_taker s)) k = true) /\
               Forall (fun t => stop (price (s_taker s)) (trade_price t) = false)
                      new).
  { intros s Hok Hq Hexit. exists []. rewrite app_nil_r, set_qty_same.
    split; [reflexivity|]. split; [constructor|]. split; [reflexivity|].
    split; [assumption|]. split; [lia|]. split; [now exists []|].
    split; [assumption | constructor]. }
  assert (Hfalse : forall s,
             0 <= qty (s_taker s) -> sweep_cond s = false ->
             qty (s_taker s) = 0 \/ s_book s = [] \/
             exists k l r, s_book s = (k, l) :: r /\
                           stop (price (s_taker s)) k = true).
  { intros s Hq Hc. unfold sweep_cond in Hc. apply andb_false_iff in Hc.
    destruct Hc as [Hc|Hc].
    - left. lia.
    - right. left. apply negb_false_iff in Hc. now apply is_nil_true. }
  induction fuel as [|n IH]; intros s s' Hrun Hok Hq; simpl in Hrun;
    destruct (sweep_cond s) eqn:Hc; try discriminate;
    try (inversion Hrun; subst s'; apply Hstay; auto; apply Hfalse; auto; lia).
  destruct (sweep_cond_true s Hc) as [Hpos (px & level & rest & Hbk)].
  unfold sweep_body in Hrun. rewrite Hbk in Hrun.
  destruct (stop (price (s_taker s)) px) eqn:Hst.
  { inversion Hrun; subst s'. apply Hstay; auto.
    right. right. rewrite Hbk. eauto. }
  destruct (fill_loop n px (mkFill (s_taker s) level (s_trades s)))
    as [f|] eqn:Hf; [|discriminate].
  rewrite Hbk in Hok. inversion Hok as [|? ? Hlvl Hrest]; subst.
  destruct Hlvl as (Hne & Hords & Htotal). simpl in Hne, Hords, Htotal.
  pose proof (fill_loop_exit _ _ _ _ Hf) as Hexit.
  apply (fill_loop_spec sd) in Hf; simpl; [|assumption|lia].
  destruct Hf as (new1 & Ht1 & Hc1 & Htk1 & Hok1 & Hq1 & Htot1 & Hpx1).
  simpl in *.
  assert (Hstop1 : Forall (fun t => stop (price (s_taker s)) (trade_price t)
                                    = false) new1).
  { eapply Forall_impl; [|exact Hpx1]. simpl. intros t Ht. now rewrite Ht. }
  destruct (is_nil (orders (f_level f))) eqn:Hn.
  - (* the level is emptied and erased; the loop goes on *)
    apply is_nil_true in Hn. rewrite Hn in Hc1.
    apply IH in Hrun; simpl; [|assumption|lia].
    destruct Hrun as (new2 & Ht2 & Hc2 & Htk2 & Hok2 & Hq2 & Hdrop & Hex & Hst2).
    simpl in *. exists (new1 ++ new2). rewrite Hbk. simpl.
    assert (Hid : id (f_taker f) = id (s_taker s)) by now rewrite Htk1.
    assert (Hpr : price (f_taker f) = price (s_taker s)) by now rewrite Htk1.
    rewrite Hid in Hc2. rewrite Hpr in Hex, Hst2.
    repeat split.
    + rewrite Ht2, Ht1, <- app_assoc. reflexivity.
    + eapply consumed_trans; [|exact Hc2].
      apply (consumed_app _ _ _ _ _ _ (resting rest)) in Hc1. exact Hc1.
    + rewrite Htk2, Htk1. reflexivity.
    + assumption.
    + lia.
    + lia.
    + destruct Hdrop as [d Hd]. exists (px :: d). simpl. now rewrite Hd.
    + assumption.
    + apply Forall_app. now split.
  - (* makers remain at the level: the taker has nothing left to fill *)
    assert (Hz : qty (f_taker f) = 0).
    { unfold fill_cond in Hexit. rewrite Hn in Hexit. simpl in Hexit.
      rewrite andb_true_r in Hexit. lia. }
    rewrite sweep_loop_stop in Hrun
      by (unfold sweep_cond; simpl; rewrite Hz; reflexivity).
    inversion Hrun; subst s'; clear Hrun. simpl.
    exists new1. rewrite Hbk. simpl. repeat split.
    + assumption.
    + now apply consumed_app.
    + assumption.
    + constructor; [|assumption]. repeat split; simpl.
      * intros E. rewrite E in Hn. discriminate.
      * assumption.
      * destruct (consumed_sum _ _ _ _ _ _ Hc1) as [_ Hs]. rewrite Hs.
        now apply Htot1.
    + lia.
    + lia.
    + now exists [].
    + now left.
    + assumption.
Qed.

(** ** [OrderBook::match] as a whole *)

Lemma match_fuel_sides (fuel : nat) (b : OrderBook.t) (o : Order)
    (tr : list Trade) :
  OrderBook.match_fuel fuel b o tr
  = if qty o <=? 0 then Some (b, o, tr)
    else
      match sweep_loop (stop_of (side o)) fuel
              (mkSweep o (OrderBook.opposite b (side o)) tr) with
      | Some s =>
          Some (OrderBook.set_opposite b (side o) (s_book s),
                s_taker s, s_trades s)
      | None => None
      end.
Proof. unfold OrderBook.match_fuel. destruct (side o); reflexivity. Qed.

Lemma match_spec (b : OrderBook.t) (o : Order) (tr : list Trade) :
  0 < qty o <= Int64.max_signed ->
  Forall (level_ok (flip (side o))) (OrderBook.opposite b (side o)) ->
  exists opp' q' new,
    OrderBook.match_ b o tr
    = (OrderBook.set_opposite b (side o) opp', set_qty o q', tr ++ new) /\
    consumed (id o) (qty o) (resting (OrderBook.opposite b (side o)))
             q' (resting opp') new /\
    Forall (level_ok (flip (side o))) opp' /\
    0 <= q' <= qty o /\
    (exists dropped,
        map fst (OrderBook.opposite b (side o)) = dropped ++ map fst opp') /\
    (q' = 0 \/ opp' = [] \/
     exists k l r, opp' = (k, l) :: r /\ stop_of (side o) (price o) k = true) /\
    Forall (fun t => stop_of (side o) (price o) (trade_price t) = false) new.
Proof.
  intros Hq Hok. pose proof (match_eq b o tr) as E.
  rewrite match_fuel_sides in E.
  destruct (qty o <=? 0) eqn:Hz; [lia|].
  destruct (sweep_loop (stop_of (side o))
              (book_size (OrderBook.opposite b (side o)))
              (mkSweep o (OrderBook.opposite b (side o)) tr))
    as [s'|] eqn:Hrun; [|discriminate].
  inversion E as [E']; clear E.
  apply (sweep_loop_spec (flip (side o))) in Hrun; simpl; [|assumption|lia].
  destruct Hrun as (new & Ht & Hc & Htk & Hlv & Hq' & Hdrop & Hex & Hst).
  simpl in *.
  exists (s_book s'), (qty (s_taker s')), new.
  rewrite <- Htk, <- Ht. repeat split; try assumption; lia.
Qed.

(** A taker without quantity is not matched at all. *)
Lemma match_nonpositive (b : OrderBook.t) (o : Order) (tr : list Trade) :
  qty o <= 0 -> OrderBook.match_ b o tr = (b, o, tr).
Proof.
  intros Hq. pose proof (match_eq b o tr) as E.
  unfold OrderBook.match_fuel in E.
  destruct (qty o <=? 0) eqn:Hz; [|lia]. now inversion E.
Qed.

(** ** The comparators *)

Lemma cmp_of_true (sd : Side) (a b : Z) :
  cmp_of sd a b = true <-> better (flip sd) a b.
Proof. destruct sd; unfold cmp_of, greater, less; simpl; lia. Qed.

Lemma stop_of_true (sd : Side) (p k : Z) :
  stop_of sd p k = true <-> better sd p k.
Proof. destruct sd; unfold stop_of, buy_stop, sell_stop; simpl; lia. Qed.

Lemma stop_of_false (sd : Side) (p k : Z) :
  stop_of sd p k = false <-> ~ better sd p k.
Proof. destruct sd; unfold stop_of, buy_stop, sell_stop; simpl; lia. Qed.

Lemma better_trans (sd : Side) (a b c : Z) :
  better sd a b -> better sd b c -> better sd a c.
Proof. destruct sd; simpl; lia. Qed.

Lemma cmp_of_trans (sd : Side) (a b c : Z) :
  cmp_of sd a b = true -> cmp_of sd b c = true -> cmp_of sd a c = true.
Proof. rewrite !cmp_of_true. apply better_trans. Qed.

Lemma cmp_of_equiv (sd : Side) (a b : Z) :
  cmp_of sd a b = false -> cmp_of sd b a = false -> a = b.
Proof. destruct sd; unfold cmp_of, greater, less; lia. Qed.

Lemma sorted_keys_app (lt : Z -> Z -> bool) (d ks : list Z) :
  sorted_keys lt (d ++ ks) -> sorted_keys lt ks.
Proof.
  induction d as [|k d IH]; simpl; [auto|]. intros [_ H]. auto.
Qed.

Lemma sorted_keys_head (lt : Z -> Z -> bool) (d : list Z) (k k0 : Z)
    (r r0 : list Z) :
  sorted_keys lt (d ++ k :: r) -> d ++ k :: r = k0 :: r0 ->
  k0 = k \/ lt k0 k = true.
Proof.
  destruct d as [|x d]; simpl; intros Hs E; inversion E; subst.
  - now left.
  - right. destruct Hs as [Hall _]. rewrite Forall_forall in Hall.
    apply Hall. apply in_or_app. right. now left.
Qed.

(** ** [operator[]] and [OrderBook::add] *)

Lemma map_at_keys (lt : Z -> Z -> bool) (k : Z)
    (f : PriceLevel -> PriceLevel) (m : PriceMap) (x : Z) :
  In x (map fst (map_at lt k f m)) -> x = k \/ In x (map fst m).
Proof.
  induction m as [|[k' l] rest IH]; simpl.
  - intros [H|[]]. now left.
  - destruct (lt k k'); [|destruct (lt k' k)]; simpl; intuition.
Qed.

Lemma map_at_sorted (sd : Side) (k : Z) (f : PriceLevel -> PriceLevel)
    (m : PriceMap) :
  sorted_keys (cmp_of sd) (map fst m) ->
  sorted_keys (cmp_of sd) (map fst (map_at (cmp_of sd) k f m)).
Proof.
  induction m as [|[k' l] rest IH]; simpl.
  - intros _. split; [constructor | exact I].
  - intros [Hall Hs].
    destruct (cmp_of sd k k') eqn:E1; [|destruct (cmp_of sd k' k) eqn:E2];
      simpl.
    + split; [|now split]. constructor; [assumption|].
      eapply Forall_impl; [|exact Hall]. simpl. intros x Hx.
      now apply (cmp_of_trans sd k k' x).
    + split; [|auto]. apply Forall_forall. intros x Hx.
      apply map_at_keys in Hx. destruct Hx as [->|Hx]; [assumption|].
      rewrite Forall_forall in Hall. auto.
    + now split.
Qed.

Lemma insert_levels (sd : Side) (m : PriceMap) (o : Order) :
  Forall (level_ok sd) m ->
  resting_ok sd (price o) o ->
  Forall (level_ok sd) (OrderBook.insert (cmp_of sd) m o).
Proof.
  intros Hm Ho. unfold OrderBook.insert.
  assert (Hnew : level_ok sd
                   (price o,
                    mkLevel (orders new_level ++ [o])
                            (Int64.add (total_qty new_level) (qty o)))).
  { repeat split; simpl; try (apply Ho).
    - discriminate.
    - constructor; [assumption | constructor].
    - unfold Int64.add. f_equal. lia. }
  induction Hm as [|[k' l] rest Hl Hrest IH]; simpl.
  - constructor; [assumption | constructor].
  - destruct (cmp_of sd (price o) k') eqn:E1;
      [|destruct (cmp_of sd k' (price o)) eqn:E2].
    + constructor; [assumption|]. now constructor.
    + now constructor.
    + constructor; [|assumption].
      pose proof (cmp_of_equiv sd _ _ E1 E2) as Ek. subst k'.
      destruct Hl as (Hne & Hords & Htot). simpl in *.
      repeat split; simpl.
      * intros E. now destruct (orders l).
      * apply Forall_app. split; [assumption|].
        constructor; [assumption | constructor].
      * rewrite sum_qty_app. simpl. unfold Int64.add.
        rewrite Htot, wrap_add_wrap. f_equal. lia.
Qed.

Lemma insert_head (lt : Z -> Z -> bool) (m : PriceMap) (o : Order) :
  exists k l r,
    OrderBook.insert lt m o = (k, l) :: r /\
    (k = price o \/ exists l0 r0, m = (k, l0) :: r0).
Proof.
  unfold OrderBook.insert. destruct m as [|[k' l'] rest]; simpl.
  - eauto 6.
  - destruct (lt (price o) k'); [|destruct (lt k' (price o))]; eauto 10.
Qed.

(** ** The invariant of the book *)

Lemma uncrossed_apart (bids asks : PriceMap) :
  (uncrossed (OrderBook.mk bids asks) <-> apart Buy bids asks) /\
  (uncrossed (OrderBook.mk bids asks) <-> apart Sell asks bids).
Proof.
  unfold uncrossed, apart. simpl.
  destruct bids as [|[kb lb] rb], asks as [|[ka la] ra]; simpl;
    repeat split; intros; try discriminate; auto;
    repeat match goal with
           | H : Some _ = Some _ |- _ => inversion H; clear H; subst
           end; auto.
Qed.

Lemma book_ok_sides (sd : Side) (b : OrderBook.t) :
  book_ok b <->
  side_ok sd (own b sd) /\ side_ok (flip sd) (OrderBook.opposite b sd) /\
  apart sd (own b sd) (OrderBook.opposite b sd).
Proof.
  unfold book_ok. destruct b as [bids asks].
  destruct (uncrossed_apart bids asks) as [Hb Hs].
  destruct sd; simpl; tauto.
Qed.

Lemma own_set_opposite (b : OrderBook.t) (sd : Side) (m : PriceMap) :
  own (OrderBook.set_opposite b sd m) sd = own b sd /\
  OrderBook.opposite (OrderBook.set_opposite b sd m) sd = m.
Proof. destruct sd; split; reflexivity. Qed.

Lemma own_add (b : OrderBook.t) (o : Order) :
  own (OrderBook.add b o) (side o)
  = OrderBook.insert (cmp_of (side o)) (own b (side o)) o /\
  OrderBook.opposite (OrderBook.add b o) (side o)
  = OrderBook.opposite b (side o).
Proof. unfold OrderBook.add. destruct (side o); split; reflexivity. Qed.

Lemma apart_better (sd : Side) (own_side opp_side : PriceMap) :
  apart sd own_side opp_side <->
  (forall ko kp, hd_error (map fst own_side) = Some ko ->
                 hd_error (map fst opp_side) = Some kp -> better sd ko kp).
Proof. unfold apart. destruct sd; simpl; reflexivity. Qed.

(** Erasing levels from the front of the opposite side keeps the sides
    apart. *)
Lemma apart_suffix (sd : Side) (own_side opp opp' : PriceMap) (d : list Z) :
  sorted_keys (cmp_of (flip sd)) (map fst opp) ->
  map fst opp = d ++ map fst opp' ->
  apart sd own_side opp -> apart sd own_side opp'.
Proof.
  rewrite !apart_better. intros Hs Hd Ha ko kp Ho Hp.
  destruct opp' as [|[k' l'] r']; [discriminate|]. simpl in Hp, Hd.
  inversion Hp; subst k'.
  destruct opp as [|[k0 l0] r0]; [destruct d; discriminate|].
  simpl in Hs, Hd.
  assert (H0 : better sd ko k0) by (apply Ha; [assumption|reflexivity]).
  change (k0 :: map fst r0) with (map fst ((k0, l0) :: r0)) in Hd.
  destruct (sorted_keys_head (cmp_of (flip sd)) d kp k0 (map fst r')
              (map fst r0)) as [E|E].
  - rewrite <- Hd. exact Hs.
  - symmetry. exact Hd.
  - now subst.
  - apply cmp_of_true in E. destruct sd; simpl in *; lia.
Qed.

(** Posting a remainder that could not trade keeps the sides apart. *)
Lemma apart_insert (sd : Side) (own_side opp : PriceMap) (o : Order) :
  apart sd own_side opp ->
  (opp = [] \/
   exists k l r, opp = (k, l) :: r /\ stop_of sd (price o) k = true) ->
  apart sd (OrderBook.insert (cmp_of sd) own_side o) opp.
Proof.
  rewrite !apart_better. intros Ha Hex ko kp Ho Hp.
  destruct Hex as [->|(k & l & r & -> & Hst)]; [discriminate|].
  simpl in Hp. inversion Hp; subst k.
  destruct (insert_head (cmp_of sd) own_side o)
    as (k1 & l1 & r1 & E & [Hk|(l0 & r0 & Hm)]);
    rewrite E in Ho; simpl in Ho; inversion Ho; subst k1.
  - subst ko. now apply stop_of_true.
  - apply Ha; [|reflexivity]. rewrite Hm. reflexivity.
Qed.

(** [process] written out on the result of [match_]. *)
Lemma process_unfold (clock : Z * Z) (e : MatchingEngine.t) (o : Order)
    (tr : list Trade) (b1 : OrderBook.t) (o1 : Order) (tr1 : list Trade) :
  OrderBook.match_ (MatchingEngine.book_ e) o tr = (b1, o1, tr1) ->
  MatchingEngine.process clock e o tr
  = (MatchingEngine.mk
       (if 0 <? qty o1 then OrderBook.add b1 o1 else b1)
       (LatencyStats.add (MatchingEngine.latency_ e)
          (UInt64.sub (snd clock) (fst clock))),
     tr1).
Proof.
  intros E. unfold MatchingEngine.process. destruct clock as [start end_].
  rewrite E. reflexivity.
Qed.

Lemma process_book_ok (clock : Z * Z) (e : MatchingEngine.t) (o : Order)
    (tr : list Trade) :
  book_ok (MatchingEngine.book_ e) ->
  Int64.in_range (qty o) ->
  book_ok (MatchingEngine.book_ (fst (MatchingEngine.process clock e o tr))).
Proof.
  intros Hok Hty.
  destruct (Z_le_gt_dec (qty o) 0) as [Hle|Hgt].
  - rewrite (process_unfold clock e o tr _ _ _ (match_nonpositive _ o tr Hle)).
    simpl. destruct (0 <? qty o) eqn:E; [lia | assumption].
  - apply (book_ok_sides (side o)) in Hok. destruct Hok as (Hown & Hopp & Hap).
    destruct Hopp as [Hsorted Hlevels].
    destruct (match_spec (MatchingEngine.book_ e) o tr)
      as (opp' & q' & new & E & Hc & Hlv & Hq' & [d Hd] & Hex & Hst);
      [unfold Int64.in_range in Hty; lia | assumption |].
    rewrite (process_unfold clock e o tr _ _ _ E). simpl.
    set (b1 := OrderBook.set_opposite (MatchingEngine.book_ e) (side o) opp').
    destruct (own_set_opposite (MatchingEngine.book_ e) (side o) opp')
      as [Hown1 Hopp1]. fold b1 in Hown1, Hopp1.
    assert (Hsorted' : sorted_keys (cmp_of (flip (side o))) (map fst opp')).
    { rewrite Hd in Hsorted. now apply sorted_keys_app in Hsorted. }
    assert (Hap' : apart (side o) (own (MatchingEngine.book_ e) (side o)) opp').
    { now apply (apart_suffix _ _ _ _ d Hsorted Hd). }
    destruct (0 <? q') eqn:Hpos.
    + apply (book_ok_sides (side o)).
      pose proof (own_add b1 (set_qty o q')) as [Ha1 Ha2]. simpl in Ha1, Ha2.
      rewrite Ha1, Ha2, Hown1, Hopp1.
      destruct Hown as [Hos Hol]. repeat split.
      * now apply map_at_sorted.
      * apply insert_levels; [assumption|].
        unfold resting_ok, Int64.in_range in *. simpl. repeat split; lia.
      * assumption.
      * assumption.
      * apply (apart_insert (side o) _ opp' (set_qty o q')); [assumption|].
        simpl. destruct Hex as [Hz|[Hn|Hk]]; [lia | now left | now right].
    + apply (book_ok_sides (side o)). rewrite Hown1, Hopp1.
      repeat split; try assumption; apply Hown.
Qed.

Lemma empty_book_ok : book_ok OrderBook.empty.
Proof.
  unfold book_ok, side_ok, uncrossed. simpl.
  repeat split; try constructor.
Qed.

(** Every state the engine reaches satisfies the invariant. *)
Lemma run_book_ok (input : list (Z * Z * Order)) :
  forall e tr,
    book_ok (MatchingEngine.book_ e) ->
    Forall (fun x => order_typed (snd x)) input ->
    book_ok (MatchingEngine.book_ (fst (MatchingEngine.run e tr input))).
Proof.
  induction input as [|[clock o] rest IH]; intros e tr Hok Hty; simpl.
  - assumption.
  - inversion Hty as [|? ? Ho Hrest]; subst.
    pose proof (process_book_ok clock e o tr Hok) as Hstep.
    destruct (MatchingEngine.process clock e o tr) as [e' tr'].
    apply IH; [|assumption]. apply Hstep. apply Ho.
Qed.

(** * The claims of the specification *)

(** ** C10: an order without quantity is dropped *)

(** C10.  Submitting an order with [qty <= 0] has no effect on the book and
    emits no trade: [match] returns at once, the order is not added to a
    side, and [process], which returns nothing, signals no error; only a
    latency sample is recorded. *)
Theorem process_nonpositive_qty_noop (clock : Z * Z) (e : MatchingEngine.t)
    (o : Order) (trades : list Trade) :
  qty o <= 0 ->
  MatchingEngine.process clock e o trades
  = (MatchingEngine.mk (MatchingEngine.book_ e)
       (LatencyStats.add (MatchingEngine.latency_ e)
          (UInt64.sub (snd clock) (fst clock))),
     trades).
Proof.
  intros Hq.
  rewrite (process_unfold clock e o trades _ _ _
             (match_nonpositive _ o trades Hq)).
  destruct (0 <? qty o) eqn:E; [lia | reflexivity].
Qed.

Lemma process_nonpositive_qty_noop_witness :
  MatchingEngine.process (5, 9)
    (MatchingEngine.mk
       (OrderBook.mk [] [(100, mkLevel [S_sell 1 100 10] 10)])
       LatencyStats.empty)
    (S_buy 2 100 (-4)) [mkTrade 9 9 9 9]
  = (MatchingEngine.mk
       (OrderBook.mk [] [(100, mkLevel [S_sell 1 100 10] 10)])
       (LatencyStats.mk [4] 4 4),
     [mkTrade 9 9 9 9]).
Proof.
  apply (process_nonpositive_qty_noop (5, 9)
           (MatchingEngine.mk
              (OrderBook.mk [] [(100, mkLevel [S_sell 1 100 10] 10)])
              LatencyStats.empty)
           (S_buy 2 100 (-4)) [mkTrade 9 9 9 9]).
  simpl. lia.
Defined.

(** ** C9: termination of [match] *)

(** C9.  [match] terminates on every order and every book: run with a
    number of loop iterations at least the number of levels and resting
    orders of the opposite side, it returns.  A pass of the inner loop
    removes the maker at the front or strictly reduces the taker's quantity,
    to zero; a pass of the outer loop leaves the loop, or erases a level, or
    ends with the loop condition false. *)
Theorem match_terminates :
  (forall (b : OrderBook.t) (incoming : Order) (trades : list Trade)
          (extra : nat),
      exists r,
        OrderBook.match_fuel
          (book_size (OrderBook.opposite b (side incoming)) + extra)
          b incoming trades = Some r)
  /\ (forall (px : Z) (s : FillState),
         fill_cond s = true ->
         (length (orders (f_level (fill_body px s)))
          < length (orders (f_level s)))%nat
         \/ (qty (f_taker (fill_body px s)) < qty (f_taker s) /\
             fill_cond (fill_body px s) = false))
  /\ (forall (stop : Z -> Z -> bool) (fuel : nat) (s s' : SweepState)
             (c : Ctl),
         sweep_cond s = true ->
         sweep_body stop fuel s = Some (c, s') ->
         c = Break
         \/ (length (s_book s') < length (s_book s))%nat
         \/ sweep_cond s' = false).
Proof.
  split; [|split].
  - intros b incoming trades extra. apply match_fuel_total. lia.
  - intros px s Hc.
    destruct (fill_body_progress px s Hc) as [H | (Hz & Hlt & _)].
    + now left.
    + right. split; [assumption|]. unfold fill_cond. now rewrite Hz.
  - intros stop fuel s s' c Hc Hb.
    destruct (sweep_body_progress stop fuel s s' c Hc Hb) as [H|[H|[H _]]].
    + now left.
    + right. left. lia.
    + right. now right.
Qed.

Lemma match_terminates_witness :
  (exists r,
      OrderBook.match_fuel 3
        (OrderBook.mk [] [(100, mkLevel [S_sell 1 100 3; S_sell 2 100 7] 10)])
        (S_buy 3 100 4) [] = Some r)
  /\ (Nat.lt
        (length (orders (f_level
           (fill_body 100
              (mkFill (S_buy 3 100 4)
                      (mkLevel [S_sell 1 100 3; S_sell 2 100 7] 10) [])))))
        2
      \/ (qty (f_taker
            (fill_body 100
               (mkFill (S_buy 3 100 4)
                       (mkLevel [S_sell 1 100 3; S_sell 2 100 7] 10) [])))
          < 4 /\
          fill_cond
            (fill_body 100
               (mkFill (S_buy 3 100 4)
                       (mkLevel [S_sell 1 100 3; S_sell 2 100 7] 10) []))
          = false))
  /\ (Break = Break
      \/ Nat.lt
           (length (s_book
              (mkSweep (S_buy 3 99 4)
                 [(100, mkLevel [S_sell 1 100 3] 3)] [])))
           1
      \/ sweep_cond
           (mkSweep (S_buy 3 99 4) [(100, mkLevel [S_sell 1 100 3] 3)] [])
         = false).
Proof.
  destruct match_terminates as (Htotal & Hinner & Houter).
  split; [|split].
  - exact (Htotal
             (OrderBook.mk []
                [(100, mkLevel [S_sell 1 100 3; S_sell 2 100 7] 10)])
             (S_buy 3 100 4) [] 0%nat).
  - exact (Hinner 100
             (mkFill (S_buy 3 100 4)
                     (mkLevel [S_sell 1 100 3; S_sell 2 100 7] 10) [])
             eq_refl).
  - exact (Houter buy_stop 0%nat
             (mkSweep (S_buy 3 99 4) [(100, mkLevel [S_sell 1 100 3] 3)] [])
             (mkSweep (S_buy 3 99 4) [(100, mkLevel [S_sell 1 100 3] 3)] [])
             Break eq_refl eq_refl).
Defined.

(** ** C2: the book is never crossed at rest *)

(** C2.  Starting from the empty book, after every sequence of processed
    orders, when both sides have a level the best bid is strictly below the
    best ask. *)
Theorem no_cross_at_rest (latency : LatencyStats.t)
    (input : list (Z * Z * Order)) :
  Forall (fun x => order_typed (snd x)) input ->
  OrderBook.bids_
    (MatchingEngine.book_
       (fst (MatchingEngine.run (MatchingEngine.init latency) [] input)))
    <> [] ->
  OrderBook.asks_
    (MatchingEngine.book_
       (fst (MatchingEngine.run (MatchingEngine.init latency) [] input)))
    <> [] ->
  OrderBook.best_bid
    (MatchingEngine.book_
       (fst (MatchingEngine.run (MatchingEngine.init latency) [] input)))
  < OrderBook.best_ask
      (MatchingEngine.book_
         (fst (MatchingEngine.run (MatchingEngine.init latency) [] input))).
Proof.
  intros Hty.
  pose proof (run_book_ok input (MatchingEngine.init latency) []
                empty_book_ok Hty) as (_ & _ & Hu).
  unfold uncrossed in Hu. unfold OrderBook.best_bid, OrderBook.best_ask.
  destruct (OrderBook.bids_ _) as [|[kb lb] rb]; [congruence|].
  destruct (OrderBook.asks_ _) as [|[ka la] ra]; [congruence|].
  intros _ _. exact Hu.
Qed.

Lemma no_cross_at_rest_witness :
  OrderBook.best_bid
    (MatchingEngine.book_
       (fst (MatchingEngine.run (MatchingEngine.init LatencyStats.empty) []
               (at_zero [S_sell 1 101 5; S_buy 2 100 5]))))
  < OrderBook.best_ask
      (MatchingEngine.book_
         (fst (MatchingEngine.run (MatchingEngine.init LatencyStats.empty) []
                 (at_zero [S_sell 1 101 5; S_buy 2 100 5])))).
Proof.
  apply (no_cross_at_rest LatencyStats.empty
           (at_zero [S_sell 1 101 5; S_buy 2 100 5])).
  - typed.
  - vm_compute. discriminate.
  - vm_compute. discriminate.
Defined.

(** ** C5: level totals *)

(** C5, as stated, fails when the quantities resting at one price add up to
    more than an [int64_t] holds: after two sell orders of 2^62 at the price
    100 the level holds both orders, its cached total is -2^63 and the sum of
    the quantities is 2^63. *)
Lemma level_total_overflow :
  Forall (fun x => order_typed (snd x))
    (at_zero [S_sell 1 100 (2 ^ 62); S_sell 2 100 (2 ^ 62)]) /\
  ~ (forall k level,
        In (k, level)
          (all_levels
             (MatchingEngine.book_
                (fst (MatchingEngine.run
                        (MatchingEngine.init LatencyStats.empty) []
                        (at_zero [S_sell 1 100 (2 ^ 62);
                                  S_sell 2 100 (2 ^ 62)]))))) ->
        total_qty level = sum_qty (orders level) /\ 0 < total_qty level).
Proof.
  split; [typed|].
  intros H.
  specialize (H 100
                (mkLevel [S_sell 1 100 (2 ^ 62); S_sell 2 100 (2 ^ 62)]
                         (- 2 ^ 63))).
  destruct H as [_ H].
  - vm_compute. left. reflexivity.
  - vm_compute in H. discriminate.
Qed.

(** C5, amended.  Starting from the empty book, after every sequence of
    processed orders, every level of either side has a queue that is not
    empty, every order in it has a positive quantity, and the cached total is
    the sum of these quantities in 64-bit arithmetic; when the sum is at most
    the largest [int64_t], the total is that sum and it is positive. *)
Theorem level_totals (latency : LatencyStats.t)
    (input : list (Z * Z * Order)) (k : Z) (level : PriceLevel) :
  Forall (fun x => order_typed (snd x)) input ->
  In (k, level)
    (all_levels
       (MatchingEngine.book_
          (fst (MatchingEngine.run (MatchingEngine.init latency) [] input)))) ->
  orders level <> [] /\
  Forall (fun o => 0 < qty o) (orders level) /\
  total_qty level = Int64.wrap (sum_qty (orders level)) /\
  (sum_qty (orders level) <= Int64.max_signed ->
   total_qty level = sum_qty (orders level) /\ 0 < total_qty level).
Proof.
  intros Hty Hin.
  pose proof (run_book_ok input (MatchingEngine.init latency) []
                empty_book_ok Hty) as ([_ Hb] & [_ Ha] & _).
  assert (Hlv : exists sd, level_ok sd (k, level)).
  { unfold all_levels in Hin. apply in_app_or in Hin.
    rewrite Forall_forall in Hb, Ha. destruct Hin as [Hin|Hin]; eauto. }
  destruct Hlv as [sd (Hne & Hords & Htot)]. simpl in *.
  assert (Hpos : Forall (fun o => 0 < qty o) (orders level)).
  { eapply Forall_impl; [|exact Hords]. unfold resting_ok. intuition. }
  assert (Hsum : 0 < sum_qty (orders level)).
  { clear - Hne Hpos. destruct (orders level) as [|o r]; [congruence|].
    inversion Hpos as [|? ? Ho Hr]; subst. simpl.
    assert (0 <= sum_qty r); [|lia].
    clear - Hr. induction Hr; simpl; lia. }
  repeat split; try assumption.
  - rewrite Htot. apply wrap_small.
    unfold Int64.in_range, Int64.min_signed, Int64.max_signed in *. lia.
  - rewrite Htot, wrap_small; [assumption|].
    unfold Int64.in_range, Int64.min_signed, Int64.max_signed in *. lia.
Qed.

Lemma level_totals_witness :
  total_qty (mkLevel [S_sell 1 100 3; S_sell 2 100 7] 10)
  = sum_qty (orders (mkLevel [S_sell 1 100 3; S_sell 2 100 7] 10)) /\
  0 < total_qty (mkLevel [S_sell 1 100 3; S_sell 2 100 7] 10).
Proof.
  refine (proj2 (proj2 (proj2
            (level_totals LatencyStats.empty
               (at_zero [S_sell 1 100 3; S_sell 2 100 7]) 100
               (mkLevel [S_sell 1 100 3; S_sell 2 100 7] 10) _ _))) _).
  - typed.
  - vm_compute. left. reflexivity.
  - vm_compute. discriminate.
Defined.

(** ** C1: conservation of quantity *)

Lemma insert_rests (sd : Side) (m : PriceMap) (o : Order) :
  exists level front,
    In (price o, level) (OrderBook.insert (cmp_of sd) m o) /\
    orders level = front ++ [o].
Proof.
  unfold OrderBook.insert. induction m as [|[k' l] rest IH]; simpl.
  - eexists. exists []. split; [left; reflexivity | reflexivity].
  - destruct (cmp_of sd (price o) k') eqn:E1;
      [|destruct (cmp_of sd k' (price o)) eqn:E2].
    + eexists. exists []. split; [left; reflexivity | reflexivity].
    + destruct IH as (level & front & Hin & Ho).
      exists level, front. split; [now right | assumption].
    + rewrite (cmp_of_equiv sd _ _ E1 E2).
      eexists. exists (orders l). split; [left; reflexivity | reflexivity].
Qed.

(** C1.  For every order with [qty > 0] submitted in a state the engine
    reaches from the empty book, the quantities of the trades this submit
    appends to the trade vector and the residual quantity add up to the
    order's quantity.  A positive residual rests at the back of the queue of
    the order's price on its own side; with no residual that side is as it
    was.  The makers lose the quantity traded. *)
Theorem mass_conservation (latency : LatencyStats.t)
    (input : list (Z * Z * Order)) (clock : Z * Z) (o : Order)
    (trades : list Trade) :
  Forall (fun x => order_typed (snd x)) input ->
  order_typed o ->
  0 < qty o ->
  exists new residual,
    snd (MatchingEngine.process clock
           (fst (MatchingEngine.run (MatchingEngine.init latency) [] input))
           o trades)
    = trades ++ new /\
    sum_trades new + residual = qty o /\
    0 <= residual /\
    (0 < residual ->
     exists level front,
       In (price o, level)
         (own (MatchingEngine.book_
                 (fst (MatchingEngine.process clock
                         (fst (MatchingEngine.run
                                 (MatchingEngine.init latency) [] input))
                         o trades)))
              (side o)) /\
       orders level = front ++ [set_qty o residual]) /\
    (residual = 0 ->
     own (MatchingEngine.book_
            (fst (MatchingEngine.process clock
                    (fst (MatchingEngine.run
                            (MatchingEngine.init latency) [] input))
                    o trades)))
         (side o)
     = own (MatchingEngine.book_
              (fst (MatchingEngine.run (MatchingEngine.init latency) []
                      input)))
           (side o)) /\
    sum_qty (resting
               (OrderBook.opposite
                  (MatchingEngine.book_
                     (fst (MatchingEngine.process clock
                             (fst (MatchingEngine.run
                                     (MatchingEngine.init latency) [] input))
                             o trades)))
                  (side o)))
    = sum_qty (resting
                 (OrderBook.opposite
                    (MatchingEngine.book_
                       (fst (MatchingEngine.run
                               (MatchingEngine.init latency) [] input)))
                    (side o)))
      - sum_trades new.
Proof.
  intros Hty Ho Hq.
  set (e := fst (MatchingEngine.run (MatchingEngine.init latency) [] input)).
  assert (Hok : book_ok (MatchingEngine.book_ e)).
  { apply run_book_ok; [apply empty_book_ok | assumption]. }
  apply (book_ok_sides (side o)) in Hok. destruct Hok as (_ & [_ Hlv] & _).
  destruct Ho as (_ & _ & Hrange & _).
  destruct (match_spec (MatchingEngine.book_ e) o trades)
    as (opp' & q' & new & E & Hc & _ & Hq' & _);
    [unfold Int64.in_range in Hrange; lia | assumption |].
  rewrite (process_unfold clock e o trades _ _ _ E). simpl.
  destruct (consumed_sum _ _ _ _ _ _ Hc) as [Hsum Hmakers].
  set (b1 := OrderBook.set_opposite (MatchingEngine.book_ e) (side o) opp').
  destruct (own_set_opposite (MatchingEngine.book_ e) (side o) opp')
    as [Hown1 Hopp1]. fold b1 in Hown1, Hopp1.
  pose proof (own_add b1 (set_qty o q')) as [Ha1 Ha2]. simpl in Ha1, Ha2.
  exists new, q'. split; [reflexivity|]. split; [lia|]. split; [lia|].
  destruct (0 <? q') eqn:Hpos.
  - split; [|split].
    + intros _. rewrite Ha1.
      destruct (insert_rests (side o) (own b1 (side o)) (set_qty o q'))
        as (level & front & Hin & Hfront).
      exists level, front. split; assumption.
    + lia.
    + rewrite Ha2, Hopp1. assumption.
  - split; [|split].
    + lia.
    + intros _. assumption.
    + rewrite Hopp1. assumption.
Qed.

Lemma mass_conservation_witness :
  exists new residual,
    snd (MatchingEngine.process (0, 0)
           (fst (MatchingEngine.run (MatchingEngine.init LatencyStats.empty)
                   [] (at_zero [S_sell 1 100 3])))
           (S_buy 2 100 10) [])
    = [] ++ new /\
    sum_trades new + residual = 10 /\
    0 <= residual.
Proof.
  destruct (mass_conservation LatencyStats.empty (at_zero [S_sell 1 100 3])
              (0, 0) (S_buy 2 100 10) [])
    as (new & residual & H1 & H2 & H3 & _).
  - typed.
  - typed.
  - simpl. lia.
  - exists new, residual. repeat split; assumption.
Defined.

(** ** C6: no order is refused *)

Lemma insert_resting (lt : Z -> Z -> bool) (m : PriceMap) (o : Order) :
  length (resting (OrderBook.insert lt m o)) = S (length (resting m)).
Proof.
  unfold OrderBook.insert. induction m as [|[k' l] rest IH]; simpl.
  - reflexivity.
  - destruct (lt (price o) k'); [|destruct (lt k' (price o))]; simpl.
    + reflexivity.
    + rewrite !length_app, IH. lia.
    + rewrite !length_app. simpl. lia.
Qed.

(** C6, as stated, fails: [process] accepts an order with a negative price,
    which rests in the book at that price, and an order whose id is the id of
    an order already resting, which rests behind it. *)
Lemma invalid_orders_accepted :
  (invalid OrderBook.empty (S_sell 7 (-5) 3) /\
   ~ without_effect (0, 0) (MatchingEngine.init LatencyStats.empty)
       (S_sell 7 (-5) 3) [] /\
   MatchingEngine.book_
     (fst (MatchingEngine.process (0, 0)
             (MatchingEngine.init LatencyStats.empty) (S_sell 7 (-5) 3) []))
   = OrderBook.mk [] [(-5, mkLevel [S_sell 7 (-5) 3] 3)])
  /\
  (invalid (OrderBook.mk [] [(100, mkLevel [S_sell 1 100 5] 5)])
     (S_sell 1 100 5) /\
   ~ without_effect (0, 0)
       (MatchingEngine.mk (OrderBook.mk [] [(100, mkLevel [S_sell 1 100 5] 5)])
          LatencyStats.empty)
       (S_sell 1 100 5) [] /\
   MatchingEngine.book_
     (fst (MatchingEngine.process (0, 0)
             (MatchingEngine.mk
                (OrderBook.mk [] [(100, mkLevel [S_sell 1 100 5] 5)])
                LatencyStats.empty)
             (S_sell 1 100 5) []))
   = OrderBook.mk []
       [(100, mkLevel [S_sell 1 100 5; S_sell 1 100 5] 10)]).
Proof.
  split; (split; [|split]).
  - right. left. simpl. lia.
  - intros [H _]. vm_compute in H. discriminate H.
  - vm_compute. reflexivity.
  - right. right. simpl. now left.
  - intros [H _]. vm_compute in H. discriminate H.
  - vm_compute. reflexivity.
Qed.

(** C6, amended.  [process] returns nothing and refuses nothing.  In every
    state reached from the empty book, an order with [qty <= 0] leaves the
    book and the trade vector as they are, and an order with [qty > 0],
    whatever its price and its id, is accepted: it adds at least one trade to
    the vector, or it is posted to the book, where it rests at the back of
    the queue of its price on its own side.  In both cases the submit is not
    without effect. *)
Theorem submit_refuses_nothing (latency : LatencyStats.t)
    (input : list (Z * Z * Order)) (clock : Z * Z) (o : Order)
    (trades : list Trade) :
  Forall (fun x => order_typed (snd x)) input ->
  order_typed o ->
  (qty o <= 0 ->
   without_effect clock
     (fst (MatchingEngine.run (MatchingEngine.init latency) [] input))
     o trades) /\
  (0 < qty o ->
   ~ without_effect clock
       (fst (MatchingEngine.run (MatchingEngine.init latency) [] input))
       o trades /\
   exists new,
     snd (MatchingEngine.process clock
            (fst (MatchingEngine.run (MatchingEngine.init latency) [] input))
            o trades)
     = trades ++ new /\
     (new <> [] \/
      exists level front,
        In (price o, level)
          (own (MatchingEngine.book_
                  (fst (MatchingEngine.process clock
                          (fst (MatchingEngine.run
                                  (MatchingEngine.init latency) [] input))
                          o trades)))
               (side o)) /\
        orders level = front ++ [o])).
Proof.
  intros Hty Ho.
  set (e := fst (MatchingEngine.run (MatchingEngine.init latency) [] input)).
  split; intros Hq.
  - unfold without_effect.
    rewrite (process_unfold clock e o trades _ _ _
               (match_nonpositive _ o trades Hq)).
    simpl. destruct (0 <? qty o) eqn:E; [lia | now split].
  - assert (Hok : book_ok (MatchingEngine.book_ e)).
    { apply run_book_ok; [apply empty_book_ok | assumption]. }
    apply (book_ok_sides (side o)) in Hok. destruct Hok as (_ & [_ Hlv] & _).
    destruct Ho as (_ & _ & Hrange & _).
    destruct (match_spec (MatchingEngine.book_ e) o trades)
      as (opp' & q' & new & E & Hc & _ & Hq' & _);
      [unfold Int64.in_range in Hrange; lia | assumption |].
    unfold without_effect.
    rewrite (process_unfold clock e o trades _ _ _ E). simpl.
    set (b1 := OrderBook.set_opposite (MatchingEngine.book_ e) (side o) opp')
      in *.
    destruct (own_set_opposite (MatchingEngine.book_ e) (side o) opp')
      as [Hown1 _]. fold b1 in Hown1.
    split.
    + intros [Hbook Htr].
      rewrite <- (app_nil_r trades) in Htr at 2. apply app_inv_head in Htr.
      subst new. inversion Hc; subst.
      assert (Hpos : (0 <? qty o) = true) by lia. rewrite Hpos in Hbook.
      pose proof (own_add b1 (set_qty o (qty o))) as [Ha1 _]. simpl in Ha1.
      rewrite Hbook, Hown1 in Ha1.
      apply (f_equal (fun m => length (resting m))) in Ha1.
      rewrite insert_resting in Ha1. lia.
    + exists new. split; [reflexivity|].
      destruct new as [|t new']; [right | left; discriminate].
      inversion Hc; subst.
      assert (Hpos : (0 <? qty o) = true) by lia. rewrite Hpos.
      rewrite set_qty_same.
      pose proof (own_add b1 o) as [Ha1 _]. rewrite Ha1.
      destruct (insert_rests (side o) (own b1 (side o)) o)
        as (level & front & Hin & Hfront).
      exists level, front. split; assumption.
Qed.

Lemma submit_refuses_nothing_witness :
  without_effect (0, 0)
    (fst (MatchingEngine.run (MatchingEngine.init LatencyStats.empty) []
            (at_zero [S_sell 1 100 3])))
    (S_buy 2 100 0) []
  /\ (~ without_effect (0, 0)
          (fst (MatchingEngine.run (MatchingEngine.init LatencyStats.empty) []
                  (at_zero [S_sell 1 100 3])))
          (S_buy 1 (-7) 10) [] /\
      exists new,
        snd (MatchingEngine.process (0, 0)
               (fst (MatchingEngine.run
                       (MatchingEngine.init LatencyStats.empty) []
                       (at_zero [S_sell 1 100 3])))
               (S_buy 1 (-7) 10) [])
        = [] ++ new /\
        (new <> [] \/
         exists level front,
           In (price (S_buy 1 (-7) 10), level)
             (own (MatchingEngine.book_
                     (fst (MatchingEngine.process (0, 0)
                             (fst (MatchingEngine.run
                                     (MatchingEngine.init LatencyStats.empty)
                                     [] (at_zero [S_sell 1 100 3])))
                             (S_buy 1 (-7) 10) [])))
                  (side (S_buy 1 (-7) 10))) /\
           orders level = front ++ [S_buy 1 (-7) 10])).
Proof.
  split.
  - refine (proj1 (submit_refuses_nothing LatencyStats.empty
                     (at_zero [S_sell 1 100 3]) (0, 0) (S_buy 2 100 0) []
                     _ _) _).
    + typed.
    + typed.
    + simpl. lia.
  - refine (proj2 (submit_refuses_nothing LatencyStats.empty
                     (at_zero [S_sell 1 100 3]) (0, 0) (S_buy 1 (-7) 10) []
                     _ _) _).
    + typed.
    + typed.
    + simpl. lia.
Defined.

(** ** C3: price-time priority *)

(** The makers reached form a prefix of the queue; all of them but possibly
    the last are filled in full, in the order of the queue. *)
Lemma consumed_prefix (tid q q' : Z) (ms ms' : list Order) (ts : list Trade) :
  consumed tid q ms q' ms' ts ->
  exists filled rem part,
    ms = filled ++ rem /\
    ts = map (full_fill tid) filled ++ part /\
    (part = [] \/
     exists m r x, rem = m :: r /\ part = [mkTrade tid (id m) (price m) x]).
Proof.
  induction 1 as [q ms | q m ms q' ms' ts Hle _ IH | q m ms Hq].
  - exists [], ms, []. repeat split. now left.
  - destruct IH as (filled & rem & part & -> & -> & Hpart).
    exists (m :: filled), rem, part. repeat split. assumption.
  - exists [], (m :: ms), [mkTrade tid (id m) (price m) q].
    repeat split. right. eauto.
Qed.

Lemma consumed_makers (tid q q' : Z) (ms ms' : list Order) (ts : list Trade) :
  consumed tid q ms q' ms' ts ->
  Forall (fun t => taker_id t = tid /\
                   exists m, In m ms /\ maker_id t = id m /\
                             trade_price t = price m /\
                             trade_qty t <= qty m) ts.
Proof.
  induction 1 as [q ms | q m ms q' ms' ts Hle _ IH | q m ms Hq].
  - constructor.
  - constructor.
    + split; [reflexivity|]. exists m. simpl. intuition lia.
    + eapply Forall_impl; [|exact IH]. simpl.
      intros t (Ht & m' & Hin & Hrest). split; [assumption|].
      exists m'. split; [now right | assumption].
  - constructor; [|constructor].
    split; [reflexivity|]. exists m. simpl. intuition lia.
Qed.

Lemma resting_level (m : PriceMap) (x : Order) :
  In x (resting m) ->
  exists k level, In (k, level) m /\ In x (orders level).
Proof.
  induction m as [|[k l] rest IH]; simpl; [intros []|].
  intros H. apply in_app_or in H. destruct H as [H|H].
  - exists k, l. split; [now left | assumption].
  - destruct (IH H) as (k' & l' & Hin & Hx). exists k', l'.
    split; [now right | assumption].
Qed.

Lemma level_resting (m : PriceMap) (k : Z) (level : PriceLevel) :
  In (k, level) m ->
  exists pre post, resting m = pre ++ orders level ++ post.
Proof.
  induction m as [|[k' l'] rest IH]; simpl; [intros []|].
  intros [H|H].
  - inversion H; subst. exists [], (resting rest). reflexivity.
  - destruct (IH H) as (pre & post & E). exists (orders l' ++ pre), post.
    rewrite E, <- app_assoc. reflexivity.
Qed.

Lemma resting_price (sd : Side) (m : PriceMap) (x : Order) :
  Forall (level_ok sd) m -> In x (resting m) -> In (price x) (map fst m).
Proof.
  intros Hok Hx. destruct (resting_level m x Hx) as (k & level & Hin & Hxl).
  rewrite Forall_forall in Hok. destruct (Hok _ Hin) as (_ & Hords & _).
  simpl in Hords. rewrite Forall_forall in Hords.
  destruct (Hords _ Hxl) as (_ & -> & _).
  change k with (fst (k, level)). now apply in_map.
Qed.

(** In a side as the map keeps it, an order at a strictly better price comes
    earlier in the order of matching. *)
Lemma better_price_first (s : Side) (m : PriceMap) (A B : Order) :
  side_ok (flip s) m ->
  In A (resting m) -> In B (resting m) ->
  better s (price A) (price B) ->
  exists l1 l2 l3, resting m = l1 ++ A :: l2 ++ B :: l3.
Proof.
  intros [Hs Hl]. revert Hs Hl.
  induction m as [|[k l] rest IH]; simpl; [intros _ _ []|].
  intros [Hall Hs] Hl HA HB Hb.
  inversion Hl as [|? ? Hlk Hlrest]; subst.
  destruct Hlk as (_ & Hords & _). simpl in Hords.
  rewrite Forall_forall in Hords, Hall.
  assert (Hlater : forall x, In x (resting rest) -> better s k (price x)).
  { intros x Hx. apply (resting_price (flip s)) in Hx; [|assumption].
    apply Hall in Hx. apply cmp_of_true in Hx.
    destruct s; simpl in *; lia. }
  apply in_app_or in HA. apply in_app_or in HB.
  destruct HA as [HA|HA], HB as [HB|HB].
  - destruct (Hords _ HA) as (_ & EA & _), (Hords _ HB) as (_ & EB & _).
    rewrite EA, EB in Hb. destruct s; simpl in Hb; lia.
  - apply in_split in HA. destruct HA as (a1 & a2 & EA).
    apply in_split in HB. destruct HB as (b1 & b2 & EB).
    exists a1, (a2 ++ b1), b2. rewrite EA, EB. reassoc.
  - destruct (Hords _ HB) as (_ & EB & _). apply Hlater in HA.
    rewrite EB in Hb. destruct s; simpl in *; lia.
  - destruct (IH Hs Hlrest HA HB Hb) as (l1 & l2 & l3 & E).
    exists (orders l ++ l1), l2, l3. rewrite E, <- app_assoc. reflexivity.
Qed.

Lemma priority_order (s : Side) (m : PriceMap) (A B : Order) :
  side_ok (flip s) m ->
  has_priority s m A B ->
  exists l1 l2 l3, resting m = l1 ++ A :: l2 ++ B :: l3.
Proof.
  intros Hok [(HA & HB & Hb) | (k & level & a1 & a2 & a3 & Hin & E)].
  - now apply (better_price_first s).
  - destruct (level_resting m k level Hin) as (pre & post & Er).
    exists (pre ++ a1), a2, (a3 ++ post). rewrite Er, E. reassoc.
Qed.

Lemma NoDup_split_unique {A : Type} (x : A) :
  forall (a1 a2 b1 b2 : list A),
    NoDup (a1 ++ x :: b1) -> a1 ++ x :: b1 = a2 ++ x :: b2 -> a1 = a2.
Proof.
  induction a1 as [|y a1 IH]; intros a2 b1 b2 Hnd E.
  - destruct a2 as [|z a2]; [reflexivity|]. simpl in E. inversion E; subst.
    simpl in Hnd. inversion Hnd as [|? ? Hnotin _]; subst.
    exfalso. apply Hnotin. apply in_or_app. right. now left.
  - destruct a2 as [|z a2]; simpl in E; inversion E; subst.
    + simpl in Hnd. inversion Hnd as [|? ? Hnotin _]; subst.
      exfalso. apply Hnotin. apply in_or_app. right. now left.
    + f_equal. simpl in Hnd. inversion Hnd; subst. eapply IH; eauto.
Qed.

Lemma id_identifies (l : list Order) (x y : Order) :
  NoDup (map id l) -> In x l -> In y l -> id x = id y -> x = y.
Proof.
  intros Hnd Hx Hy E. apply in_split in Hx. destruct Hx as (a & b & ->).
  apply in_elt_inv in Hy. destruct Hy as [Hy|Hy]; [congruence|].
  rewrite map_app in Hnd. simpl in Hnd. apply NoDup_remove_2 in Hnd.
  exfalso. apply Hnd. rewrite <- map_app, E. now apply in_map.
Qed.

(** C3.  For every taker and every book whose opposite side is in the state
    the engine keeps it in, with resting orders of distinct ids: when [A] has
    priority over [B], by a strictly better price or by an earlier place in
    the queue of the same level, every trade of this match whose maker is [B]
    comes after a trade that fills [A] for its whole resting quantity. *)
Theorem price_time_priority (b : OrderBook.t) (o : Order)
    (trades : list Trade) (A B : Order) :
  0 < qty o <= Int64.max_signed ->
  side_ok (flip (side o)) (OrderBook.opposite b (side o)) ->
  NoDup (map id (resting (OrderBook.opposite b (side o)))) ->
  has_priority (side o) (OrderBook.opposite b (side o)) A B ->
  exists new,
    snd (OrderBook.match_ b o trades) = trades ++ new /\
    forall t,
      In t new -> maker_id t = id B ->
      exists before between after,
        new = before ++ full_fill (id o) A :: between ++ t :: after.
Proof.
  intros Hq Hok Hnd Hprio.
  destruct (priority_order _ _ _ _ Hok Hprio) as (l1 & l2 & l3 & Hrest).
  destruct (match_spec b o trades Hq (proj2 Hok))
    as (opp' & q' & new & E & Hc & _).
  exists new. rewrite E. split; [reflexivity|].
  intros t Ht Hmaker.
  destruct (consumed_prefix _ _ _ _ _ _ Hc)
    as (filled & rem & part & Hsplit & Hnew & Hpart).
  set (rest := resting (OrderBook.opposite b (side o))) in *.
  assert (HB : In B rest).
  { rewrite Hrest. apply in_or_app. right. right.
    apply in_or_app. right. now left. }
  assert (Hnd' : NoDup rest) by now apply NoDup_map_inv in Hnd.
  assert (Hrest' : rest = (l1 ++ A :: l2) ++ B :: l3).
  { rewrite Hrest. reassoc. }
  rewrite Hnew in Ht. apply in_app_or in Ht. destruct Ht as [Ht|Ht].
  - (* [B] is filled in full *)
    apply in_map_iff in Ht. destruct Ht as (m & Hm & Hin).
    assert (Hmr : In m rest).
    { rewrite Hsplit. apply in_or_app. now left. }
    assert (m = B).
    { apply (id_identifies rest); try assumption.
      rewrite <- Hmaker, <- Hm. reflexivity. }
    subst m. apply in_split in Hin. destruct Hin as (f1 & f2 & Hf).
    assert (Hpre : f1 = l1 ++ A :: l2).
    { apply (NoDup_split_unique B f1 (l1 ++ A :: l2) (f2 ++ rem) l3).
      - replace (f1 ++ B :: f2 ++ rem) with rest; [assumption|].
        rewrite Hsplit, Hf. reassoc.
      - rewrite <- Hrest', Hsplit, Hf. reassoc. }
    exists (map (full_fill (id o)) l1), (map (full_fill (id o)) l2),
      (map (full_fill (id o)) f2 ++ part).
    rewrite Hnew, Hf, Hpre, <- Hm.
    repeat first [rewrite map_app | rewrite map_cons]. reassoc.
  - (* [B] is the last maker reached, filled in part *)
    destruct Hpart as [->|(m & r & x & Hrem & Hp)]; [destruct Ht|].
    rewrite Hp in Ht. destruct Ht as [Ht|[]]. subst t. simpl in Hmaker.
    assert (Hmr : In m rest).
    { rewrite Hsplit, Hrem. apply in_or_app. right. now left. }
    assert (m = B) by (apply (id_identifies rest); assumption).
    subst m.
    assert (Hpre : filled = l1 ++ A :: l2).
    { apply (NoDup_split_unique B filled (l1 ++ A :: l2) r l3).
      - rewrite <- Hrem, <- Hsplit. assumption.
      - rewrite <- Hrest', Hsplit, Hrem. reflexivity. }
    exists (map (full_fill (id o)) l1), (map (full_fill (id o)) l2), [].
    rewrite Hnew, Hp, Hpre.
    repeat first [rewrite map_app | rewrite map_cons]. reassoc.
Qed.

Lemma price_time_priority_witness :
  exists new,
    snd (OrderBook.match_
           (OrderBook.mk []
              [(100, mkLevel [S_sell 1 100 3; S_sell 2 100 7] 10);
               (101, mkLevel [S_sell 3 101 5] 5)])
           (S_buy 4 101 12) [])
    = [] ++ new /\
    forall t,
      In t new -> maker_id t = id (S_sell 3 101 5) ->
      exists before between after,
        new = before ++ full_fill (id (S_buy 4 101 12)) (S_sell 2 100 7)
                :: between ++ t :: after.
Proof.
  apply (price_time_priority
           (OrderBook.mk []
              [(100, mkLevel [S_sell 1 100 3; S_sell 2 100 7] 10);
               (101, mkLevel [S_sell 3 101 5] 5)])
           (S_buy 4 101 12) [] (S_sell 2 100 7) (S_sell 3 101 5)).
  - simpl. unfold Int64.max_signed. lia.
  - split.
    + simpl. repeat split; repeat constructor.
    + repeat constructor; simpl; try discriminate;
        unfold Int64.max_signed; lia.
  - simpl. repeat constructor; simpl; intuition discriminate.
  - left. simpl. intuition lia.
Defined.

(** ** C4: the execution price *)

(** Every trade emitted by [match] names the taker and a maker resting on
    the opposite side; its price is the key of the maker's level, which is
    the maker's price, and it lies between the maker's price and the taker's
    limit. *)
Lemma trades_at_maker_price (b : OrderBook.t) (o : Order)
    (trades : list Trade) :
  0 < qty o <= Int64.max_signed ->
  side_ok (flip (side o)) (OrderBook.opposite b (side o)) ->
  exists new,
    snd (OrderBook.match_ b o trades) = trades ++ new /\
    forall t,
      In t new ->
      taker_id t = id o /\
      exists k level maker,
        In (k, level) (OrderBook.opposite b (side o)) /\
        In maker (orders level) /\
        maker_id t = id maker /\
        trade_price t = k /\
        trade_price t = price maker /\
        match side o with
        | Buy => price maker <= trade_price t <= price o
        | Sell => price o <= trade_price t <= price maker
        end.
Proof.
  intros Hq [_ Hlv].
  destruct (match_spec b o trades Hq Hlv)
    as (opp' & q' & new & E & Hc & _ & _ & _ & _ & Hst).
  exists new. rewrite E. split; [reflexivity|].
  intros t Ht. apply consumed_makers in Hc.
  rewrite Forall_forall in Hc, Hst.
  destruct (Hc t Ht) as (Htk & m & Hm & Hid & Hpx & _).
  specialize (Hst t Ht). apply stop_of_false in Hst.
  split; [assumption|].
  destruct (resting_level _ _ Hm) as (k & level & Hin & Hml).
  rewrite Forall_forall in Hlv. destruct (Hlv _ Hin) as (_ & Hords & _).
  simpl in Hords. rewrite Forall_forall in Hords.
  destruct (Hords _ Hml) as (_ & Hk & _).
  exists k, level, m. repeat split; try assumption; try congruence.
  destruct (side o); simpl in *; lia.
Qed.

(** ** Fields the matching does not read *)

(** The inner loop assigns to the [qty] member of the taker only. *)
Lemma fill_loop_taker (fuel : nat) (px : Z) :
  forall s f,
    fill_loop fuel px s = Some f ->
    exists q, f_taker f = set_qty (f_taker s) q.
Proof.
  induction fuel as [|n IH]; intros s f; simpl;
    destruct (fill_cond s); try discriminate;
    try (intros E; inversion E; subst; exists (qty (f_taker f));
         now rewrite set_qty_same).
  intros E. apply IH in E. destruct E as [q E]. rewrite E.
  unfold fill_body. destruct (orders (f_level s)); simpl;
    exists q; reflexivity.
Qed.

Section Erasure.

(** [phi] rewrites the taker and [psi] the resting orders; both leave the
    id and the quantity alone and commute with the assignment to [qty]. *)
Variables phi psi : Order -> Order.
Hypothesis phi_id : forall o, id (phi o) = id o.
Hypothesis phi_qty : forall o, qty (phi o) = qty o.
Hypothesis phi_set_qty : forall o q, phi (set_qty o q) = set_qty (phi o) q.
Hypothesis psi_id : forall o, id (psi o) = id o.
Hypothesis psi_qty : forall o, qty (psi o) = qty o.
Hypothesis psi_set_qty : forall o q, psi (set_qty o q) = set_qty (psi o) q.

Lemma fill_cond_erase (s : FillState) :
  fill_cond (erase_fill phi psi s) = fill_cond s.
Proof.
  unfold fill_cond, erase_fill. simpl. rewrite phi_qty.
  now destruct (orders (f_level s)).
Qed.

Lemma fill_body_erase (px : Z) (s : FillState) :
  fill_body px (erase_fill phi psi s) = erase_fill phi psi (fill_body px s).
Proof.
  destruct s as [tk [ms tot] tr]. unfold fill_body, erase_fill. simpl.
  destruct ms as [|m r]; simpl; [reflexivity|].
  rewrite !phi_qty, !psi_qty, !phi_id, !psi_id, phi_set_qty.
  destruct (Int64.sub (qty m) (Z.min (qty tk) (qty m)) =? 0);
    simpl; [reflexivity|].
  now rewrite psi_set_qty.
Qed.

Lemma fill_loop_erase (fuel : nat) (px : Z) :
  forall s,
    fill_loop fuel px (erase_fill phi psi s)
    = option_map (erase_fill phi psi) (fill_loop fuel px s).
Proof.
  induction fuel as [|n IH]; intros s; simpl; rewrite fill_cond_erase;
    destruct (fill_cond s); try reflexivity.
  rewrite fill_body_erase. apply IH.
Qed.

Lemma sweep_cond_erase (s : SweepState) :
  sweep_cond (erase_sweep phi psi s) = sweep_cond s.
Proof.
  unfold sweep_cond, erase_sweep. simpl. rewrite phi_qty.
  now destruct (s_book s).
Qed.

Lemma map_orders_resting (m : PriceMap) :
  resting (map_orders psi m) = map psi (resting m).
Proof.
  induction m as [|[k l] rest IH]; simpl; [reflexivity|].
  rewrite map_app. f_equal. exact IH.
Qed.

Lemma map_orders_size (m : PriceMap) :
  book_size (map_orders psi m) = book_size m.
Proof.
  unfold book_size. rewrite map_orders_resting, length_map.
  unfold map_orders. now rewrite length_map.
Qed.

(** The taker's price is read by the exit test only: when the test has
    the same outcome at every key of the side, the loop runs alike. *)
Lemma sweep_loop_erase (stop : Z -> Z -> bool) (fuel : nat) :
  forall s,
    (forall k, In k (map fst (s_book s)) ->
               stop (price (phi (s_taker s))) k
               = stop (price (s_taker s)) k) ->
    sweep_loop stop fuel (erase_sweep phi psi s)
    = option_map (erase_sweep phi psi) (sweep_loop stop fuel s).
Proof.
  induction fuel as [|n IH]; intros s Hkeys; simpl;
    rewrite sweep_cond_erase; destruct (sweep_cond s); try reflexivity.
  unfold sweep_body. simpl.
  destruct (s_book s) as [|[px level] rest] eqn:Hbk; simpl; [reflexivity|].
  rewrite (Hkeys px) by now left.
  destruct (stop (price (s_taker s)) px).
  { reflexivity. }
  pose proof (fill_loop_erase n px
                (mkFill (s_taker s) level (s_trades s))) as Hf.
  unfold erase_fill in Hf at 1. simpl in Hf. rewrite Hf. clear Hf.
  destruct (fill_loop n px (mkFill (s_taker s) level (s_trades s)))
    as [f|] eqn:Hrun; simpl; [|reflexivity].
  assert (Hprice : price (phi (f_taker f)) = price (phi (s_taker s)) /\
                   price (f_taker f) = price (s_taker s)).
  { destruct (fill_loop_taker _ _ _ _ Hrun) as [q E]. simpl in E.
    rewrite E, phi_set_qty. split; reflexivity. }
  destruct Hprice as [Hp1 Hp2].
  assert (Hnil : is_nil (map psi (orders (f_level f)))
                 = is_nil (orders (f_level f))).
  { now destruct (orders (f_level f)). }
  rewrite Hnil.
  match goal with
  | |- sweep_loop stop n ?x = _ =>
      replace x with
        (erase_sweep phi psi
           (mkSweep (f_taker f)
              (if is_nil (orders (f_level f)) then rest
               else (px, f_level f) :: rest)
              (f_trades f)))
  end.
  - apply IH. simpl. rewrite Hp1, Hp2. intros k Hk. apply Hkeys.
    destruct (is_nil (orders (f_level f))); simpl in Hk; simpl; tauto.
  - unfold erase_sweep. simpl.
    destruct (is_nil (orders (f_level f))); reflexivity.
Qed.

Hypothesis phi_side : forall o, side (phi o) = side o.

Lemma opposite_map_book (b : OrderBook.t) (sd : Side) :
  OrderBook.opposite (map_book psi b) sd
  = map_orders psi (OrderBook.opposite b sd).
Proof. destruct sd; reflexivity. Qed.

Lemma set_opposite_map_book (b : OrderBook.t) (sd : Side) (m : PriceMap) :
  OrderBook.set_opposite (map_book psi b) sd (map_orders psi m)
  = map_book psi (OrderBook.set_opposite b sd m).
Proof. destruct sd; reflexivity. Qed.

Lemma match_erase (b : OrderBook.t) (o : Order) (tr : list Trade) :
  (forall k, In k (map fst (OrderBook.opposite b (side o))) ->
             stop_of (side o) (price (phi o)) k
             = stop_of (side o) (price o) k) ->
  OrderBook.match_ (map_book psi b) (phi o) tr
  = (map_book psi (fst (fst (OrderBook.match_ b o tr))),
     phi (snd (fst (OrderBook.match_ b o tr))),
     snd (OrderBook.match_ b o tr)).
Proof.
  intros Hkeys.
  pose proof (match_eq (map_book psi b) (phi o) tr) as E1.
  pose proof (match_eq b o tr) as E2.
  rewrite match_fuel_sides in E1, E2.
  rewrite phi_side, phi_qty, opposite_map_book, map_orders_size in E1.
  destruct (qty o <=? 0).
  { inversion E1 as [H1]. inversion E2 as [H2]. reflexivity. }
  change (mkSweep (phi o) (map_orders psi (OrderBook.opposite b (side o))) tr)
    with (erase_sweep phi psi (mkSweep o (OrderBook.opposite b (side o)) tr)) in E1.
  rewrite sweep_loop_erase in E1 by exact Hkeys.
  destruct (sweep_loop (stop_of (side o))
              (book_size (OrderBook.opposite b (side o)))
              (mkSweep o (OrderBook.opposite b (side o)) tr)) as [s'|];
    [|discriminate].
  simpl in E1. inversion E1 as [H1]. inversion E2 as [H2]. simpl.
  now rewrite set_opposite_map_book.
Qed.

Hypothesis psi_price : forall o, price (psi o) = price o.
Hypothesis psi_side : forall o, side (psi o) = side o.

Lemma insert_erase (lt : Z -> Z -> bool) (m : PriceMap) (o : Order) :
  OrderBook.insert lt (map_orders psi m) (psi o)
  = map_orders psi (OrderBook.insert lt m o).
Proof.
  unfold OrderBook.insert. rewrite psi_price, psi_qty.
  induction m as [|[k' l] rest IH]; simpl.
  - reflexivity.
  - destruct (lt (price o) k'); [|destruct (lt k' (price o))]; simpl.
    + reflexivity.
    + f_equal. exact IH.
    + rewrite map_app. reflexivity.
Qed.

Lemma add_erase (b : OrderBook.t) (o : Order) :
  OrderBook.add (map_book psi b) (psi o) = map_book psi (OrderBook.add b o).
Proof.
  unfold OrderBook.add. rewrite psi_side.
  destruct (side o); unfold map_book; simpl; now rewrite insert_erase.
Qed.

End Erasure.

Lemma map_orders_same (m : PriceMap) : map_orders (fun o => o) m = m.
Proof.
  unfold map_orders. induction m as [|[k [os tot]] rest IH]; simpl.
  - reflexivity.
  - now rewrite map_id, IH.
Qed.

Lemma map_book_same (b : OrderBook.t) : map_book (fun o => o) b = b.
Proof. destruct b. unfold map_book. simpl. now rewrite !map_orders_same. Qed.

(** [match] reads the taker's price in the exit test only. *)
Lemma match_price_irrelevant (b : OrderBook.t) (o : Order)
    (tr : list Trade) (p' : Z) :
  (forall k, In k (map fst (OrderBook.opposite b (side o))) ->
             stop_of (side o) p' k = stop_of (side o) (price o) k) ->
  OrderBook.match_ b (set_price o p') tr
  = (fst (fst (OrderBook.match_ b o tr)),
     set_price (snd (fst (OrderBook.match_ b o tr))) p',
     snd (OrderBook.match_ b o tr)).
Proof.
  intros Hkeys. rewrite <- (map_book_same b) at 1.
  rewrite (match_erase (fun x => set_price x p') (fun x => x));
    try (intros; reflexivity); [|exact Hkeys].
  now rewrite map_book_same.
Qed.

(** [match] does not read the arrival tags. *)
Lemma book_step_untag (b : OrderBook.t) (o : Order) (tr : list Trade) :
  book_step (untag b) (untag_order o) tr
  = (untag (fst (book_step b o tr)), snd (book_step b o tr)).
Proof.
  unfold book_step, untag.
  rewrite (match_erase untag_order untag_order);
    try (intros; reflexivity).
  destruct (OrderBook.match_ b o tr) as [[b1 o1] tr1]. simpl.
  destruct (0 <? qty o1); simpl; [|reflexivity].
  rewrite (add_erase untag_order); try (intros; reflexivity).
Qed.

Lemma book_run_untag (os : list Order) :
  forall b tr,
    book_run (untag b) tr (map untag_order os)
    = (untag (fst (book_run b tr os)), snd (book_run b tr os)).
Proof.
  induction os as [|o rest IH]; intros b tr; simpl.
  - reflexivity.
  - rewrite book_step_untag.
    destruct (book_step b o tr) as [b' tr']. simpl. apply IH.
Qed.

(** The clock readings and the latency record do not reach the book. *)
Lemma run_book_run (input : list (Z * Z * Order)) :
  forall e tr,
    (MatchingEngine.book_ (fst (MatchingEngine.run e tr input)),
     snd (MatchingEngine.run e tr input))
    = book_run (MatchingEngine.book_ e) tr (map snd input).
Proof.
  induction input as [|[clock o] rest IH]; intros e tr; simpl.
  - reflexivity.
  - unfold book_step.
    destruct (OrderBook.match_ (MatchingEngine.book_ e) o tr)
      as [[b1 o1] tr1] eqn:E.
    rewrite (process_unfold clock e o tr _ _ _ E). rewrite IH. reflexivity.
Qed.

(** C4.  Every trade emitted by [match] has the price of the maker's level,
    which is the maker's resting price, and that price lies between the
    maker's price and the taker's limit price: [maker.price <= trade.price <=
    taker.price] for a buy taker and the reverse for a sell taker.  The
    taker's price decides only whether a level is crossable: a taker with
    another price for which the exit test has the same outcome at every level
    of the opposite side leaves the same book, the same trades and the same
    remaining quantity. *)
Theorem execution_price (b : OrderBook.t) (o : Order) (trades : list Trade) :
  0 < qty o <= Int64.max_signed ->
  side_ok (flip (side o)) (OrderBook.opposite b (side o)) ->
  (exists new,
      snd (OrderBook.match_ b o trades) = trades ++ new /\
      forall t,
        In t new ->
        taker_id t = id o /\
        exists k level maker,
          In (k, level) (OrderBook.opposite b (side o)) /\
          In maker (orders level) /\
          maker_id t = id maker /\
          trade_price t = k /\
          trade_price t = price maker /\
          match side o with
          | Buy => price maker <= trade_price t <= price o
          | Sell => price o <= trade_price t <= price maker
          end)
  /\ (forall p',
         (forall k, In k (map fst (OrderBook.opposite b (side o))) ->
                    stop_of (side o) p' k = stop_of (side o) (price o) k) ->
         OrderBook.match_ b (set_price o p') trades
         = (fst (fst (OrderBook.match_ b o trades)),
            set_price (snd (fst (OrderBook.match_ b o trades))) p',
            snd (OrderBook.match_ b o trades))).
Proof.
  intros Hq Hok. split.
  - now apply trades_at_maker_price.
  - intros p' Hkeys. now apply match_price_irrelevant.
Qed.

Lemma execution_price_witness :
  (exists new,
      snd (OrderBook.match_
             (OrderBook.mk []
                [(100, mkLevel [S_sell 1 100 5] 5);
                 (101, mkLevel [S_sell 2 101 5] 5)])
             (S_buy 3 101 8) [])
      = [] ++ new /\
      forall t,
        In t new ->
        taker_id t = 3 /\
        exists k level maker,
          In (k, level)
            [(100, mkLevel [S_sell 1 100 5] 5);
             (101, mkLevel [S_sell 2 101 5] 5)] /\
          In maker (orders level) /\
          maker_id t = id maker /\
          trade_price t = k /\
          trade_price t = price maker /\
          price maker <= trade_price t <= 101)
  /\ OrderBook.match_
       (OrderBook.mk []
          [(100, mkLevel [S_sell 1 100 5] 5);
           (101, mkLevel [S_sell 2 101 5] 5)])
       (set_price (S_buy 3 101 8) 250) []
     = (fst (fst (OrderBook.match_
                    (OrderBook.mk []
                       [(100, mkLevel [S_sell 1 100 5] 5);
                        (101, mkLevel [S_sell 2 101 5] 5)])
                    (S_buy 3 101 8) [])),
        set_price
          (snd (fst (OrderBook.match_
                       (OrderBook.mk []
                          [(100, mkLevel [S_sell 1 100 5] 5);
                           (101, mkLevel [S_sell 2 101 5] 5)])
                       (S_buy 3 101 8) []))) 250,
        snd (OrderBook.match_
               (OrderBook.mk []
                  [(100, mkLevel [S_sell 1 100 5] 5);
                   (101, mkLevel [S_sell 2 101 5] 5)])
               (S_buy 3 101 8) [])).
Proof.
  assert (Hq : 0 < qty (S_buy 3 101 8) <= Int64.max_signed).
  { simpl. unfold Int64.max_signed. lia. }
  assert (Hok : side_ok (flip (side (S_buy 3 101 8)))
                  (OrderBook.opposite
                     (OrderBook.mk []
                        [(100, mkLevel [S_sell 1 100 5] 5);
                         (101, mkLevel [S_sell 2 101 5] 5)])
                     (side (S_buy 3 101 8)))).
  { split.
    - simpl. repeat split; repeat constructor.
    - repeat constructor; simpl; try discriminate;
        unfold Int64.max_signed; lia. }
  destruct (execution_price
              (OrderBook.mk []
                 [(100, mkLevel [S_sell 1 100 5] 5);
                  (101, mkLevel [S_sell 2 101 5] 5)])
              (S_buy 3 101 8) [] Hq Hok) as [H1 H2].
  split.
  - exact H1.
  - apply H2. simpl. intros k [<-|[<-|[]]]; reflexivity.
Defined.

(** ** C8: determinism *)

(** C8, as stated, fails for the book: two runs of one order that differ in
    the arrival tag only leave books that differ, because the order rests
    with its tag. *)
Lemma arrival_tag_rests_in_book :
  map (fun x => key_of (snd x)) [(0, 0, mkOrder 1 Sell 100 5 1)]
  = map (fun x => key_of (snd x)) [(0, 0, mkOrder 1 Sell 100 5 2)]
  /\ MatchingEngine.book_
       (fst (MatchingEngine.run (MatchingEngine.init LatencyStats.empty) []
               [(0, 0, mkOrder 1 Sell 100 5 1)]))
     <> MatchingEngine.book_
          (fst (MatchingEngine.run (MatchingEngine.init LatencyStats.empty) []
                  [(0, 0, mkOrder 1 Sell 100 5 2)])).
Proof.
  split; [reflexivity|]. vm_compute. intros H. discriminate H.
Qed.

(** C8, amended.  Two runs from the empty book whose order sequences agree
    on the id, side, price and qty of every order produce the same trade
    sequence, and final books that are the same up to the arrival tags
    stored in the resting orders, whatever the tags, the clock readings and
    the latency records are; when the sequences agree on the tags too, the
    final books are the same. *)
Theorem determinism (latency1 latency2 : LatencyStats.t)
    (input1 input2 : list (Z * Z * Order)) :
  map (fun x => key_of (snd x)) input1
  = map (fun x => key_of (snd x)) input2 ->
  snd (MatchingEngine.run (MatchingEngine.init latency1) [] input1)
  = snd (MatchingEngine.run (MatchingEngine.init latency2) [] input2)
  /\ untag (MatchingEngine.book_
              (fst (MatchingEngine.run (MatchingEngine.init latency1) []
                      input1)))
     = untag (MatchingEngine.book_
                (fst (MatchingEngine.run (MatchingEngine.init latency2) []
                        input2)))
  /\ (map snd input1 = map snd input2 ->
      MatchingEngine.book_
        (fst (MatchingEngine.run (MatchingEngine.init latency1) [] input1))
      = MatchingEngine.book_
          (fst (MatchingEngine.run (MatchingEngine.init latency2) [] input2))).
Proof.
  intros Hkeys.
  pose proof (run_book_run input1 (MatchingEngine.init latency1) []) as R1.
  pose proof (run_book_run input2 (MatchingEngine.init latency2) []) as R2.
  simpl in R1, R2.
  assert (Hu : map untag_order (map snd input1)
               = map untag_order (map snd input2)).
  { clear - Hkeys. revert input2 Hkeys.
    induction input1 as [|x r1 IH]; intros [|y r2] H; simpl in *;
      try discriminate; [reflexivity|].
    inversion H as [[Hid Hside Hprice Hqty Hrest]].
    f_equal; [unfold untag_order; congruence | apply IH; assumption]. }
  pose proof (book_run_untag (map snd input1) OrderBook.empty []) as U1.
  pose proof (book_run_untag (map snd input2) OrderBook.empty []) as U2.
  rewrite Hu in U1. rewrite U1 in U2. rewrite <- R1, <- R2 in U2.
  pose proof (f_equal fst U2) as Hb. pose proof (f_equal snd U2) as Ht.
  cbn [fst snd] in Hb, Ht.
  split; [exact Ht|]. split; [exact Hb|].
  intros Hsame. rewrite Hsame in R1. rewrite <- R2 in R1.
  exact (f_equal fst R1).
Qed.

Lemma determinism_witness :
  snd (MatchingEngine.run (MatchingEngine.init LatencyStats.empty) []
         [(0, 7, mkOrder 1 Sell 100 5 11); (8, 9, mkOrder 2 Buy 100 3 12)])
  = snd (MatchingEngine.run (MatchingEngine.init (LatencyStats.mk [4] 4 4)) []
           [(3, 5, mkOrder 1 Sell 100 5 21); (6, 6, mkOrder 2 Buy 100 3 22)])
  /\ untag (MatchingEngine.book_
              (fst (MatchingEngine.run
                      (MatchingEngine.init LatencyStats.empty) []
                      [(0, 7, mkOrder 1 Sell 100 5 11);
                       (8, 9, mkOrder 2 Buy 100 3 12)])))
     = untag (MatchingEngine.book_
                (fst (MatchingEngine.run
                        (MatchingEngine.init (LatencyStats.mk [4] 4 4)) []
                        [(3, 5, mkOrder 1 Sell 100 5 21);
                         (6, 6, mkOrder 2 Buy 100 3 22)]))).
Proof.
  destruct (determinism LatencyStats.empty (LatencyStats.mk [4] 4 4)
              [(0, 7, mkOrder 1 Sell 100 5 11); (8, 9, mkOrder 2 Buy 100 3 12)]
              [(3, 5, mkOrder 1 Sell 100 5 21); (6, 6, mkOrder 2 Buy 100 3 22)]
              eq_refl) as (H1 & H2 & _).
  split; assumption.
Defined.

(** ** C7: there is no cancellation *)

Lemma consumed_fate (tid q q' : Z) (ms ms' : list Order) (ts : list Trade)
    (m : Order) :
  consumed tid q ms q' ms' ts ->
  In m ms ->
  In m ms'
  \/ (exists x, 0 < x < qty m /\ In (set_qty m (qty m - x)) ms' /\
                In (mkTrade tid (id m) (price m) x) ts)
  \/ In (full_fill tid m) ts.
Proof.
  induction 1 as [q ms | q m0 ms q' ms' ts Hle _ IH | q m0 ms Hq];
    intros Hin.
  - now left.
  - destruct Hin as [->|Hin].
    + right. right. now left.
    + destruct (IH Hin) as [H|[(x & Hx & H1 & H2)|H]].
      * now left.
      * right. left. exists x. repeat split; try assumption; try lia.
        now right.
      * right. right. now right.
  - destruct Hin as [->|Hin].
    + right. left. exists q. repeat split; try lia; now left.
    + left. now right.
Qed.

Lemma insert_keeps (lt : Z -> Z -> bool) (m : PriceMap) (o x : Order) :
  In x (resting m) -> In x (resting (OrderBook.insert lt m o)).
Proof.
  unfold OrderBook.insert. induction m as [|[k' l] rest IH]; simpl.
  - intros [].
  - intros Hin.
    destruct (lt (price o) k'); [|destruct (lt k' (price o))]; simpl.
    + now right.
    + apply in_app_or in Hin. apply in_or_app. intuition.
    + apply in_app_or in Hin. apply in_or_app.
      destruct Hin as [Hin|Hin]; [left | now right].
      apply in_or_app. now left.
Qed.

Lemma resting_orders_sides (sd : Side) (b : OrderBook.t) (x : Order) :
  In x (resting_orders b) <->
  In x (resting (own b sd)) \/ In x (resting (OrderBook.opposite b sd)).
Proof.
  unfold resting_orders. rewrite in_app_iff. destruct sd; simpl; tauto.
Qed.

Lemma add_keeps (b : OrderBook.t) (o x : Order) :
  In x (resting_orders b) -> In x (resting_orders (OrderBook.add b o)).
Proof.
  rewrite !(resting_orders_sides (side o)).
  destruct (own_add b o) as [-> ->].
  intros [H|H]; [left; now apply insert_keeps | now right].
Qed.

(** An order resting in the book is still there after a call, as it was or
    with its quantity reduced by a trade of the call, unless the call emitted
    the trade that fills it in full. *)
Lemma call_keeps_or_fills (b : OrderBook.t) (c : Mutator)
    (trades : list Trade) (m : Order) :
  book_ok b ->
  order_typed (call_order c) ->
  In m (resting_orders b) ->
  exists new,
    snd (call b trades c) = trades ++ new /\
    (In m (resting_orders (fst (call b trades c)))
     \/ (exists x,
            0 < x < qty m /\
            In (set_qty m (qty m - x))
               (resting_orders (fst (call b trades c))) /\
            In (mkTrade (id (call_order c)) (id m) (price m) x) new)
     \/ In (full_fill (id (call_order c)) m) new).
Proof.
  intros Hok Hty Hm.
  assert (Hmatch : forall o,
             order_typed o ->
             exists new,
               snd (OrderBook.match_ b o trades) = trades ++ new /\
               (In m (resting_orders (fst (fst (OrderBook.match_ b o trades))))
                \/ (exists x,
                       0 < x < qty m /\
                       In (set_qty m (qty m - x))
                          (resting_orders
                             (fst (fst (OrderBook.match_ b o trades)))) /\
                       In (mkTrade (id o) (id m) (price m) x) new)
                \/ In (full_fill (id o) m) new)).
  { intros o (_ & _ & Hrange & _).
    destruct (Z_le_gt_dec (qty o) 0) as [Hle|Hgt].
    - rewrite (match_nonpositive b o trades Hle). simpl.
      exists []. rewrite app_nil_r. split; [reflexivity | now left].
    - apply (book_ok_sides (side o)) in Hok.
      destruct Hok as (_ & [_ Hlv] & _).
      destruct (match_spec b o trades)
        as (opp' & q' & new & E & Hc & _);
        [unfold Int64.in_range in Hrange; lia | assumption |].
      rewrite E. simpl. exists new. split; [reflexivity|].
      destruct (own_set_opposite b (side o) opp') as [Hown Hopp].
      apply (resting_orders_sides (side o)) in Hm.
      destruct Hm as [Hm|Hm].
      + left. apply (resting_orders_sides (side o)). left. now rewrite Hown.
      + destruct (consumed_fate _ _ _ _ _ _ m Hc Hm)
          as [H|[(x & Hx & H1 & H2)|H]].
        * left. apply (resting_orders_sides (side o)). right.
          now rewrite Hopp.
        * right. left. exists x. repeat split; try assumption; try lia.
          apply (resting_orders_sides (side o)). right. now rewrite Hopp.
        * right. now right. }
  destruct c as [o|o|o]; simpl in *.
  - exists []. rewrite app_nil_r. split; [reflexivity|]. left.
    now apply add_keeps.
  - now apply Hmatch.
  - destruct (Hmatch o Hty) as (new & Ht & Hfate).
    unfold book_step.
    destruct (OrderBook.match_ b o trades) as [[b1 o1] tr1]. simpl in *.
    exists new. split; [assumption|].
    destruct (0 <? qty o1); [|assumption].
    destruct Hfate as [H|[(x & Hx & H1 & H2)|H]].
    + left. now apply add_keeps.
    + right. left. exists x. repeat split; try assumption; try lia.
      now apply add_keeps.
    + right. now right.
Qed.

(** C7, as it bears on the source, fails: the book has no operation that
    cancels.  With one sell order of id 1 resting, no call of [add], [match]
    or [process], whatever its argument, leaves the book without an order of
    id 1 unless it emits a trade. *)
Lemma no_call_cancels :
  book_ok (OrderBook.mk [] [(100, mkLevel [S_sell 1 100 5] 5)]) /\
  In 1 (map id (resting_orders
                  (OrderBook.mk [] [(100, mkLevel [S_sell 1 100 5] 5)]))) /\
  ~ (exists c,
        order_typed (call_order c) /\
        cancels c (OrderBook.mk [] [(100, mkLevel [S_sell 1 100 5] 5)]) 1).
Proof.
  assert (Hok : book_ok (OrderBook.mk [] [(100, mkLevel [S_sell 1 100 5] 5)])).
  { unfold book_ok, side_ok, uncrossed. simpl.
    repeat split; repeat constructor; simpl; try discriminate;
      unfold Int64.max_signed; lia. }
  split; [exact Hok|]. split; [simpl; now left|].
  intros (c & Hty & Hcancel).
  destruct (Hcancel []) as [Hgone Hquiet].
  destruct (call_keeps_or_fills _ c [] (S_sell 1 100 5) Hok Hty)
    as (new & Hnew & Hfate); [simpl; now left|].
  rewrite Hquiet in Hnew. simpl in Hnew. subst new.
  destruct Hfate as [H|[(x & _ & _ & [])|[]]].
  apply Hgone. change 1 with (id (S_sell 1 100 5)). now apply in_map.
Qed.

(** C7, amended.  The book has no cancellation and no index of ids: its
    operations that change it are [add], [match] and [process], and under each
    of them an order resting in a book the engine has reached stays in the
    book, as it was or with its quantity reduced by a trade of the call,
    unless the call emits the trade that fills its whole quantity. *)
Theorem resting_orders_leave_by_fill (latency : LatencyStats.t)
    (input : list (Z * Z * Order)) (c : Mutator) (trades : list Trade)
    (m : Order) :
  Forall (fun x => order_typed (snd x)) input ->
  order_typed (call_order c) ->
  In m (resting_orders
          (MatchingEngine.book_
             (fst (MatchingEngine.run (MatchingEngine.init latency) []
                     input)))) ->
  exists new,
    snd (call (MatchingEngine.book_
                 (fst (MatchingEngine.run (MatchingEngine.init latency) []
                         input)))
              trades c)
    = trades ++ new /\
    (In m (resting_orders
             (fst (call (MatchingEngine.book_
                           (fst (MatchingEngine.run
                                   (MatchingEngine.init latency) [] input)))
                        trades c)))
     \/ (exists x,
            0 < x < qty m /\
            In (set_qty m (qty m - x))
               (resting_orders
                  (fst (call (MatchingEngine.book_
                                (fst (MatchingEngine.run
                                        (MatchingEngine.init latency) []
                                        input)))
                             trades c))) /\
            In (mkTrade (id (call_order c)) (id m) (price m) x) new)
     \/ In (full_fill (id (call_order c)) m) new).
Proof.
  intros Hty Hc Hm. apply call_keeps_or_fills; try assumption.
  apply run_book_ok; [apply empty_book_ok | assumption].
Qed.

Lemma resting_orders_leave_by_fill_witness :
  exists new,
    snd (call (MatchingEngine.book_
                 (fst (MatchingEngine.run
                         (MatchingEngine.init LatencyStats.empty) []
                         (at_zero [S_sell 1 100 5; S_sell 2 100 5]))))
              [] (CallProcess (S_buy 3 100 5)))
    = [] ++ new /\
    (In (S_sell 1 100 5)
        (resting_orders
           (fst (call (MatchingEngine.book_
                         (fst (MatchingEngine.run
                                 (MatchingEngine.init LatencyStats.empty) []
                                 (at_zero [S_sell 1 100 5; S_sell 2 100 5]))))
                      [] (CallProcess (S_buy 3 100 5)))))
     \/ (exists x,
            0 < x < 5 /\
            In (set_qty (S_sell 1 100 5) (5 - x))
               (resting_orders
                  (fst (call (MatchingEngine.book_
                                (fst (MatchingEngine.run
                                        (MatchingEngine.init
                                           LatencyStats.empty) []
                                        (at_zero [S_sell 1 100 5;
                                                  S_sell 2 100 5]))))
                             [] (CallProcess (S_buy 3 100 5))))) /\
            In (mkTrade 3 1 100 x) new)
     \/ In (full_fill 3 (S_sell 1 100 5)) new).
Proof.
  apply (resting_orders_leave_by_fill LatencyStats.empty
           (at_zero [S_sell 1 100 5; S_sell 2 100 5])
           (CallProcess (S_buy 3 100 5)) [] (S_sell 1 100 5)).
  - typed.
  - typed.
  - vm_compute. left. reflexivity.
Defined.

(** * Further properties of the matching core *)

(** ** The trade vector is only appended to *)

Lemma fill_loop_prefix (pre : list Trade) (fuel : nat) (px : Z) :
  forall tk level tr,
    fill_loop fuel px (mkFill tk level (pre ++ tr))
    = option_map
        (fun f => mkFill (f_taker f) (f_level f) (pre ++ f_trades f))
        (fill_loop fuel px (mkFill tk level tr)).
Proof.
  induction fuel as [|n IH]; intros tk level tr; simpl;
    unfold fill_cond; simpl;
    destruct ((0 <? qty tk) && negb (is_nil (orders level))) eqn:Hc;
    try reflexivity.
  unfold fill_body. simpl. destruct (orders level) as [|m r] eqn:Ho.
  - rewrite andb_false_r in Hc. discriminate.
  - cbv zeta. rewrite <- app_assoc. apply IH.
Qed.

Lemma sweep_loop_prefix (pre : list Trade) (stop : Z -> Z -> bool)
    (fuel : nat) :
  forall tk book tr,
    sweep_loop stop fuel (mkSweep tk book (pre ++ tr))
    = option_map
        (fun s => mkSweep (s_taker s) (s_book s) (pre ++ s_trades s))
        (sweep_loop stop fuel (mkSweep tk book tr)).
Proof.
  induction fuel as [|n IH]; intros tk book tr; simpl;
    unfold sweep_cond; simpl;
    destruct ((0 <? qty tk) && negb (is_nil book)) eqn:Hc;
    try reflexivity.
  unfold sweep_body. simpl. destruct book as [|[px level] rest].
  - reflexivity.
  - destruct (stop (price tk) px); [reflexivity|].
    rewrite fill_loop_prefix.
    destruct (fill_loop n px (mkFill tk level tr)) as [f|]; simpl;
      [|reflexivity].
    apply IH.
Qed.

Lemma match_appends (b : OrderBook.t) (o : Order) (trades : list Trade) :
  OrderBook.match_ b o trades
  = (fst (fst (OrderBook.match_ b o [])),
     snd (fst (OrderBook.match_ b o [])),
     trades ++ snd (OrderBook.match_ b o [])).
Proof.
  pose proof (match_eq b o trades) as E1.
  pose proof (match_eq b o []) as E2.
  rewrite match_fuel_sides in E1, E2.
  destruct (qty o <=? 0).
  { inversion E1 as [H1]. inversion E2 as [H2]. simpl.
    now rewrite app_nil_r. }
  rewrite <- (app_nil_r trades) in E1 at 1.
  rewrite sweep_loop_prefix in E1.
  destruct (sweep_loop (stop_of (side o))
              (book_size (OrderBook.opposite b (side o)))
              (mkSweep o (OrderBook.opposite b (side o)) [])) as [s'|];
    [|discriminate].
  simpl in E1. inversion E1 as [H1]. inversion E2 as [H2]. reflexivity.
Qed.

Lemma process_appends (clock : Z * Z) (e : MatchingEngine.t) (o : Order)
    (trades : list Trade) :
  MatchingEngine.process clock e o trades
  = (fst (MatchingEngine.process clock e o []),
     trades ++ snd (MatchingEngine.process clock e o [])).
Proof.
  destruct (OrderBook.match_ (MatchingEngine.book_ e) o [])
    as [[b1 o1] tr1] eqn:E0.
  rewrite (process_unfold clock e o [] _ _ _ E0).
  pose proof (match_appends (MatchingEngine.book_ e) o trades) as E.
  rewrite E0 in E. simpl in E.
  rewrite (process_unfold clock e o trades _ _ _ E). reflexivity.
Qed.

(** X1.  [match] and [process] only append to the caller's trade vector:
    its earlier entries stay in place, and the book, the taker and the trades
    added are those of a call with an empty vector.  This holds in every
    state of the book. *)
Theorem trades_only_appended (b : OrderBook.t) (o : Order)
    (trades : list Trade) (clock : Z * Z) (e : MatchingEngine.t) :
  OrderBook.match_ b o trades
  = (fst (fst (OrderBook.match_ b o [])),
     snd (fst (OrderBook.match_ b o [])),
     trades ++ snd (OrderBook.match_ b o []))
  /\ MatchingEngine.process clock e o trades
     = (fst (MatchingEngine.process clock e o []),
        trades ++ snd (MatchingEngine.process clock e o [])).
Proof.
  split; [apply match_appends | apply process_appends].
Qed.

(** ** An order that does not cross *)

Lemma set_opposite_same (b : OrderBook.t) (sd : Side) :
  OrderBook.set_opposite b sd (OrderBook.opposite b sd) = b.
Proof. destruct b, sd; reflexivity. Qed.

(** X2.  An order with a positive quantity that meets an empty opposite side,
    or a best opposite price its limit does not reach, emits no trade and is
    posted with its whole quantity: [process] then does what [add] does.
    This holds in every state of the book. *)
Theorem uncrossing_order_is_posted (clock : Z * Z) (e : MatchingEngine.t)
    (o : Order) (trades : list Trade) :
  0 < qty o ->
  (OrderBook.opposite (MatchingEngine.book_ e) (side o) = [] \/
   exists k level rest,
     OrderBook.opposite (MatchingEngine.book_ e) (side o)
     = (k, level) :: rest /\
     stop_of (side o) (price o) k = true) ->
  OrderBook.match_ (MatchingEngine.book_ e) o trades
  = (MatchingEngine.book_ e, o, trades)
  /\ MatchingEngine.book_ (fst (MatchingEngine.process clock e o trades))
     = OrderBook.add (MatchingEngine.book_ e) o
  /\ snd (MatchingEngine.process clock e o trades) = trades.
Proof.
  intros Hq Hopp.
  assert (Hm : OrderBook.match_ (MatchingEngine.book_ e) o trades
               = (MatchingEngine.book_ e, o, trades)).
  { pose proof (match_eq (MatchingEngine.book_ e) o trades) as E.
    rewrite match_fuel_sides in E.
    destruct (qty o <=? 0) eqn:Hz; [lia|].
    destruct Hopp as [Hnil | (k & level & rest & Hbk & Hst)].
    - rewrite Hnil in E.
      rewrite sweep_loop_stop in E
        by (unfold sweep_cond; simpl; apply andb_false_r).
      simpl in E. rewrite <- Hnil, set_opposite_same in E. now inversion E.
    - rewrite Hbk, resting_length_cons in E. simpl in E.
      unfold sweep_cond in E. simpl in E.
      assert (Hpos : (0 <? qty o) = true) by lia. rewrite Hpos in E.
      simpl in E. unfold sweep_body in E. simpl in E. rewrite Hst in E.
      simpl in E. rewrite <- Hbk, set_opposite_same in E. now inversion E. }
  split; [exact Hm|].
  rewrite (process_unfold clock e o trades _ _ _ Hm). simpl.
  assert (Hpos : (0 <? qty o) = true) by lia. rewrite Hpos. now split.
Qed.

Lemma uncrossing_order_is_posted_witness :
  MatchingEngine.book_
    (fst (MatchingEngine.process (0, 0)
            (MatchingEngine.mk
               (OrderBook.mk [] [(101, mkLevel [S_sell 1 101 5] 5)])
               LatencyStats.empty)
            (S_buy 2 100 5) []))
  = OrderBook.add (OrderBook.mk [] [(101, mkLevel [S_sell 1 101 5] 5)])
      (S_buy 2 100 5).
Proof.
  refine (proj1 (proj2
            (uncrossing_order_is_posted (0, 0)
               (MatchingEngine.mk
                  (OrderBook.mk [] [(101, mkLevel [S_sell 1 101 5] 5)])
                  LatencyStats.empty)
               (S_buy 2 100 5) [] _ _))).
  - simpl. lia.
  - right. exists 101, (mkLevel [S_sell 1 101 5] 5), []. split; reflexivity.
Defined.

(** ** The best prices *)

Lemma head_price_first (sd : Side) (k : Z) (level : PriceLevel)
    (rest : PriceMap) (r : Order) :
  side_ok sd ((k, level) :: rest) ->
  In r (resting ((k, level) :: rest)) ->
  price r = k \/ cmp_of sd k (price r) = true.
Proof.
  intros [Hs Hl] Hr. simpl in Hs, Hr. destruct Hs as [Hall _].
  inversion Hl as [|? ? Hlk Hlrest]; subst.
  apply in_app_or in Hr. destruct Hr as [Hr|Hr].
  - left. destruct Hlk as (_ & Hords & _). simpl in Hords.
    rewrite Forall_forall in Hords. now destruct (Hords _ Hr) as (_ & E & _).
  - right. apply (resting_price sd) in Hr; [|assumption].
    rewrite Forall_forall in Hall. now apply Hall.
Qed.

Lemma head_price_rests (sd : Side) (k : Z) (level : PriceLevel)
    (rest : PriceMap) :
  side_ok sd ((k, level) :: rest) ->
  exists r, In r (resting ((k, level) :: rest)) /\ price r = k /\ side r = sd.
Proof.
  intros [_ Hl]. inversion Hl as [|? ? Hlk _]; subst.
  destruct Hlk as (Hne & Hords & _). simpl in *.
  destruct (orders level) as [|r rs]; [congruence|].
  inversion Hords as [|? ? Hr _]; subst. destruct Hr as (Hside & Hprice & _).
  exists r. repeat split; try assumption. now left.
Qed.

(** X3.  In every state reached from the empty book, [best_bid] is the
    highest price of a resting buy order and [best_ask] the lowest price of a
    resting sell order, each attained by an order at rest; on an empty side
    they return 0. *)
Theorem best_prices_are_extremal (latency : LatencyStats.t)
    (input : list (Z * Z * Order)) :
  Forall (fun x => order_typed (snd x)) input ->
  (forall r,
      In r (resting (OrderBook.bids_
                       (MatchingEngine.book_
                          (fst (MatchingEngine.run
                                  (MatchingEngine.init latency) [] input))))) ->
      price r <= OrderBook.best_bid
                   (MatchingEngine.book_
                      (fst (MatchingEngine.run
                              (MatchingEngine.init latency) [] input))))
  /\ (forall r,
         In r (resting (OrderBook.asks_
                          (MatchingEngine.book_
                             (fst (MatchingEngine.run
                                     (MatchingEngine.init latency) []
                                     input))))) ->
         OrderBook.best_ask
           (MatchingEngine.book_
              (fst (MatchingEngine.run (MatchingEngine.init latency) []
                      input)))
         <= price r)
  /\ (OrderBook.bids_
        (MatchingEngine.book_
           (fst (MatchingEngine.run (MatchingEngine.init latency) [] input)))
      <> [] ->
      exists r,
        In r (resting (OrderBook.bids_
                         (MatchingEngine.book_
                            (fst (MatchingEngine.run
                                    (MatchingEngine.init latency) []
                                    input))))) /\
        side r = Buy /\
        price r = OrderBook.best_bid
                    (MatchingEngine.book_
                       (fst (MatchingEngine.run
                               (MatchingEngine.init latency) [] input))))
  /\ (OrderBook.asks_
        (MatchingEngine.book_
           (fst (MatchingEngine.run (MatchingEngine.init latency) [] input)))
      <> [] ->
      exists r,
        In r (resting (OrderBook.asks_
                         (MatchingEngine.book_
                            (fst (MatchingEngine.run
                                    (MatchingEngine.init latency) []
                                    input))))) /\
        side r = Sell /\
        price r = OrderBook.best_ask
                    (MatchingEngine.book_
                       (fst (MatchingEngine.run
                               (MatchingEngine.init latency) [] input))))
  /\ (OrderBook.bids_
        (MatchingEngine.book_
           (fst (MatchingEngine.run (MatchingEngine.init latency) [] input)))
      = [] ->
      OrderBook.best_bid
        (MatchingEngine.book_
           (fst (MatchingEngine.run (MatchingEngine.init latency) [] input)))
      = 0)
  /\ (OrderBook.asks_
        (MatchingEngine.book_
           (fst (MatchingEngine.run (MatchingEngine.init latency) [] input)))
      = [] ->
      OrderBook.best_ask
        (MatchingEngine.book_
           (fst (MatchingEngine.run (MatchingEngine.init latency) [] input)))
      = 0).
Proof.
  intros Hty.
  pose proof (run_book_ok input (MatchingEngine.init latency) []
                empty_book_ok Hty) as (Hb & Ha & _).
  unfold OrderBook.best_bid, OrderBook.best_ask.
  destruct (MatchingEngine.book_ _) as [bids asks]. simpl in *.
  split; [|split; [|split; [|split; [|split]]]].
  - intros r Hr. destruct bids as [|[k l] rest]; [destruct Hr|].
    destruct (head_price_first Buy k l rest r Hb Hr) as [E|E].
    + lia.
    + unfold cmp_of, greater in E. lia.
  - intros r Hr. destruct asks as [|[k l] rest]; [destruct Hr|].
    destruct (head_price_first Sell k l rest r Ha Hr) as [E|E].
    + lia.
    + unfold cmp_of, less in E. lia.
  - intros Hne. destruct bids as [|[k l] rest]; [congruence|].
    destruct (head_price_rests Buy k l rest Hb) as (r & Hr & Hp & Hs).
    exists r. repeat split; assumption.
  - intros Hne. destruct asks as [|[k l] rest]; [congruence|].
    destruct (head_price_rests Sell k l rest Ha) as (r & Hr & Hp & Hs).
    exists r. repeat split; assumption.
  - intros ->. reflexivity.
  - intros ->. reflexivity.
Qed.

Lemma best_prices_are_extremal_witness :
  exists r,
    In r (resting (OrderBook.bids_
                     (MatchingEngine.book_
                        (fst (MatchingEngine.run
                                (MatchingEngine.init LatencyStats.empty) []
                                (at_zero [S_buy 1 99 5; S_buy 2 100 5;
                                          S_buy 3 98 1])))))) /\
    side r = Buy /\
    price r = OrderBook.best_bid
                (MatchingEngine.book_
                   (fst (MatchingEngine.run
                           (MatchingEngine.init LatencyStats.empty) []
                           (at_zero [S_buy 1 99 5; S_buy 2 100 5;
                                     S_buy 3 98 1])))).
Proof.
  refine (proj1 (proj2 (proj2
            (best_prices_are_extremal LatencyStats.empty
               (at_zero [S_buy 1 99 5; S_buy 2 100 5; S_buy 3 98 1]) _))) _).
  - typed.
  - vm_compute. discriminate.
Defined.

(** ** The trades of one submit *)

Lemma consumed_quantities (tid q q' : Z) (ms ms' : list Order)
    (ts : list Trade) :
  consumed tid q ms q' ms' ts ->
  Forall (fun m => 0 < qty m) ms ->
  Forall (fun t => 0 < trade_qty t <= q) ts /\
  (length ts <= length ms)%nat.
Proof.
  induction 1 as [q ms | q m ms q' ms' ts Hle _ IH | q m ms Hq]; intros Hpos.
  - split; [constructor | simpl; lia].
  - inversion Hpos as [|? ? Hm Hrest]; subst.
    destruct (IH Hrest) as [Hall Hlen]. split; [|simpl; lia].
    constructor; [simpl; lia|].
    eapply Forall_impl; [|exact Hall]. simpl. intros t Ht. lia.
  - split; [|simpl; lia]. constructor; [simpl; lia | constructor].
Qed.

(** X4.  In every state reached from the empty book, each trade a submit
    adds has a positive quantity, at most the quantity of the incoming order,
    and the submit adds at most one trade per order resting on the opposite
    side. *)
Theorem trade_quantities (latency : LatencyStats.t)
    (input : list (Z * Z * Order)) (clock : Z * Z) (o : Order)
    (trades : list Trade) :
  Forall (fun x => order_typed (snd x)) input ->
  order_typed o ->
  exists new,
    snd (MatchingEngine.process clock
           (fst (MatchingEngine.run (MatchingEngine.init latency) [] input))
           o trades)
    = trades ++ new /\
    Forall (fun t => 0 < trade_qty t <= qty o) new /\
    (length new
     <= length (resting
                  (OrderBook.opposite
                     (MatchingEngine.book_
                        (fst (MatchingEngine.run
                                (MatchingEngine.init latency) [] input)))
                     (side o))))%nat.
Proof.
  intros Hty Ho.
  set (e := fst (MatchingEngine.run (MatchingEngine.init latency) [] input)).
  destruct (Z_le_gt_dec (qty o) 0) as [Hle|Hgt].
  - rewrite (process_unfold clock e o trades _ _ _
               (match_nonpositive _ o trades Hle)).
    simpl. exists []. rewrite app_nil_r.
    split; [reflexivity|]. split; [constructor | simpl; lia].
  - assert (Hok : book_ok (MatchingEngine.book_ e)).
    { apply run_book_ok; [apply empty_book_ok | assumption]. }
    apply (book_ok_sides (side o)) in Hok. destruct Hok as (_ & [_ Hlv] & _).
    destruct Ho as (_ & _ & Hrange & _).
    destruct (match_spec (MatchingEngine.book_ e) o trades)
      as (opp' & q' & new & E & Hc & _);
      [unfold Int64.in_range in Hrange; lia | assumption |].
    rewrite (process_unfold clock e o trades _ _ _ E). simpl.
    exists new. split; [reflexivity|].
    apply (consumed_quantities _ _ _ _ _ _ Hc).
    apply Forall_forall. intros m Hm.
    destruct (resting_level _ _ Hm) as (k & level & Hin & Hml).
    rewrite Forall_forall in Hlv. destruct (Hlv _ Hin) as (_ & Hords & _).
    simpl in Hords. rewrite Forall_forall in Hords.
    now destruct (Hords _ Hml) as (_ & _ & Hq & _).
Qed.

Lemma trade_quantities_witness :
  exists new,
    snd (MatchingEngine.process (0, 0)
           (fst (MatchingEngine.run (MatchingEngine.init LatencyStats.empty)
                   [] (at_zero [S_sell 1 100 3; S_sell 2 101 4])))
           (S_buy 3 101 5) [])
    = [] ++ new /\
    Forall (fun t => 0 < trade_qty t <= 5) new.
Proof.
  destruct (trade_quantities LatencyStats.empty
              (at_zero [S_sell 1 100 3; S_sell 2 101 4]) (0, 0)
              (S_buy 3 101 5) []) as (new & H1 & H2 & _).
  - typed.
  - typed.
  - exists new. split; assumption.
Defined.

(** ** Where the resting orders come from *)

Lemma book_ok_resting (b : OrderBook.t) (r : Order) :
  book_ok b -> In r (resting_orders b) -> 0 < qty r.
Proof.
  intros ([_ Hb] & [_ Ha] & _) Hr. unfold resting_orders in Hr.
  apply in_app_or in Hr.
  assert (H : exists sd k level,
             level_ok sd (k, level) /\ In r (orders level)).
  { rewrite Forall_forall in Hb, Ha.
    destruct Hr as [Hr|Hr];
      destruct (resting_level _ _ Hr) as (k & level & Hin & Hrl); eauto 6. }
  destruct H as (sd & k & level & (_ & Hords & _) & Hrl). simpl in Hords.
  rewrite Forall_forall in Hords. now destruct (Hords _ Hrl) as (_ & _ & Hq & _).
Qed.

Lemma consumed_origin (tid q q' : Z) (ms ms' : list Order) (ts : list Trade)
    (r : Order) :
  consumed tid q ms q' ms' ts ->
  Forall (fun m => 0 < qty m) ms ->
  In r ms' ->
  exists m, In m ms /\ r = set_qty m (qty r) /\ 0 < qty r <= qty m.
Proof.
  induction 1 as [q ms | q m0 ms q' ms' ts Hle _ IH | q m0 ms Hq];
    intros Hpos Hr.
  - exists r. rewrite set_qty_same. rewrite Forall_forall in Hpos.
    specialize (Hpos _ Hr). repeat split; try assumption; lia.
  - inversion Hpos as [|? ? _ Hrest]; subst.
    destruct (IH Hrest Hr) as (m & Hm & E & Hq). exists m.
    repeat split; try assumption; try lia. now right.
  - destruct Hr as [<-|Hr].
    + exists m0. simpl. repeat split; try lia. now left.
    + exists r. rewrite set_qty_same. rewrite Forall_forall in Hpos.
      assert (Hin : In r (m0 :: ms)) by now right.
      specialize (Hpos _ Hin). repeat split; try assumption; lia.
Qed.

Lemma insert_origin (lt : Z -> Z -> bool) (m : PriceMap) (o r : Order) :
  In r (resting (OrderBook.insert lt m o)) -> r = o \/ In r (resting m).
Proof.
  unfold OrderBook.insert. induction m as [|[k' l] rest IH]; simpl.
  - intros [H|[]]. now left.
  - destruct (lt (price o) k'); [|destruct (lt k' (price o))]; simpl.
    + intros [H|H]; [now left | now right].
    + intros H. apply in_app_or in H. destruct H as [H|H].
      * right. apply in_or_app. now left.
      * destruct (IH H) as [E|E]; [now left|]. right. apply in_or_app.
        now right.
    + intros H. apply in_app_or in H. destruct H as [H|H].
      * apply in_app_or in H. destruct H as [H|[H|[]]]; [|now left].
        right. apply in_or_app. now left.
      * right. apply in_or_app. now right.
Qed.

Lemma process_origin (clock : Z * Z) (e : MatchingEngine.t) (o : Order)
    (trades : list Trade) (r : Order) :
  book_ok (MatchingEngine.book_ e) ->
  Int64.in_range (qty o) ->
  In r (resting_orders
          (MatchingEngine.book_
             (fst (MatchingEngine.process clock e o trades)))) ->
  (exists m, In m (resting_orders (MatchingEngine.book_ e)) /\
             r = set_qty m (qty r) /\ 0 < qty r <= qty m)
  \/ (r = set_qty o (qty r) /\ 0 < qty r <= qty o).
Proof.
  intros Hok Hrange.
  assert (Hsame : forall x,
             In x (resting_orders (MatchingEngine.book_ e)) ->
             exists m, In m (resting_orders (MatchingEngine.book_ e)) /\
                       x = set_qty m (qty x) /\ 0 < qty x <= qty m).
  { intros x Hx. exists x. rewrite set_qty_same.
    pose proof (book_ok_resting _ _ Hok Hx). repeat split; try assumption.
    lia. }
  destruct (Z_le_gt_dec (qty o) 0) as [Hle|Hgt].
  - rewrite (process_unfold clock e o trades _ _ _
               (match_nonpositive _ o trades Hle)).
    simpl. destruct (0 <? qty o) eqn:E; [lia|]. intros Hr. left. auto.
  - pose proof Hok as Hok'.
    apply (book_ok_sides (side o)) in Hok'.
    destruct Hok' as (_ & [_ Hlv] & _).
    destruct (match_spec (MatchingEngine.book_ e) o trades)
      as (opp' & q' & new & E & Hc & _ & Hq' & _);
      [unfold Int64.in_range in Hrange; lia | assumption |].
    rewrite (process_unfold clock e o trades _ _ _ E). simpl.
    set (b1 := OrderBook.set_opposite (MatchingEngine.book_ e) (side o) opp').
    destruct (own_set_opposite (MatchingEngine.book_ e) (side o) opp')
      as [Hown1 Hopp1]. fold b1 in Hown1, Hopp1.
    assert (Hpos : Forall (fun m => 0 < qty m)
                     (resting (OrderBook.opposite (MatchingEngine.book_ e)
                                 (side o)))).
    { apply Forall_forall. intros m Hm. apply (book_ok_resting _ _ Hok).
      apply (resting_orders_sides (side o)). now right. }
    assert (Hb1 : In r (resting_orders b1) ->
                  exists m, In m (resting_orders (MatchingEngine.book_ e)) /\
                            r = set_qty m (qty r) /\ 0 < qty r <= qty m).
    { intros Hr. apply (resting_orders_sides (side o)) in Hr.
      rewrite Hown1, Hopp1 in Hr. destruct Hr as [Hr|Hr].
      - apply Hsame. apply (resting_orders_sides (side o)). now left.
      - destruct (consumed_origin _ _ _ _ _ _ r Hc Hpos Hr)
          as (m & Hm & Em & Hqm).
        exists m. repeat split; try assumption; try lia.
        apply (resting_orders_sides (side o)). now right. }
    destruct (0 <? q') eqn:Hq'pos; [|intros Hr; left; auto].
    intros Hr.
    apply (resting_orders_sides (side o)) in Hr.
    pose proof (own_add b1 (set_qty o q')) as [Ha1 Ha2]. simpl in Ha1, Ha2.
    rewrite Ha1, Ha2 in Hr. destruct Hr as [Hr|Hr].
    + apply insert_origin in Hr. destruct Hr as [->|Hr].
      * right. simpl. split; [reflexivity | lia].
      * left. apply Hb1. apply (resting_orders_sides (side o)). now left.
    + left. apply Hb1. apply (resting_orders_sides (side o)). now right.
Qed.

Lemma run_origin (input : list (Z * Z * Order)) :
  forall e tr r,
    book_ok (MatchingEngine.book_ e) ->
    Forall (fun x => order_typed (snd x)) input ->
    In r (resting_orders
            (MatchingEngine.book_ (fst (MatchingEngine.run e tr input)))) ->
    (exists m, In m (resting_orders (MatchingEngine.book_ e)) /\
               r = set_qty m (qty r) /\ 0 < qty r <= qty m)
    \/ (exists x, In x input /\
                  r = set_qty (snd x) (qty r) /\ 0 < qty r <= qty (snd x)).
Proof.
  induction input as [|[clock o] rest IH]; intros e tr r Hok Hty Hr; simpl in Hr.
  - left. exists r. rewrite set_qty_same.
    pose proof (book_ok_resting _ _ Hok Hr). repeat split; try assumption.
    lia.
  - inversion Hty as [|? ? Ho Hrest]; subst. simpl in Ho.
    pose proof (process_book_ok clock e o tr Hok (proj1 (proj2 (proj2 Ho))))
      as Hok'.
    pose proof (fun r0 => process_origin clock e o tr r0 Hok
                            (proj1 (proj2 (proj2 Ho)))) as Hstep.
    destruct (MatchingEngine.process clock e o tr) as [e' tr']. simpl in *.
    destruct (IH e' tr' r Hok' Hrest Hr)
      as [(m & Hm & Em & Hqm) | (x & Hx & Ex & Hqx)].
    + destruct (Hstep m Hm) as [(m0 & Hm0 & Em0 & Hqm0) | (Eo & Hqo)].
      * left. exists m0. repeat split; try assumption; try lia.
        rewrite Em, Em0. reflexivity.
      * right. exists (clock, o). simpl. repeat split; try lia.
        -- now left.
        -- rewrite Em, Eo. reflexivity.
    + right. exists x. repeat split; try assumption; try lia. now right.
Qed.

(** X5.  In every state reached from the empty book, each resting order is
    one of the submitted orders with its id, side, price and arrival tag as
    submitted, and with a quantity that is positive and at most the quantity
    submitted. *)
Theorem resting_orders_were_submitted (latency : LatencyStats.t)
    (input : list (Z * Z * Order)) (r : Order) :
  Forall (fun x => order_typed (snd x)) input ->
  In r (resting_orders
          (MatchingEngine.book_
             (fst (MatchingEngine.run (MatchingEngine.init latency) []
                     input)))) ->
  exists o,
    In o (map snd input) /\
    id r = id o /\ side r = side o /\ price r = price o /\
    ts_ns r = ts_ns o /\ 0 < qty r <= qty o.
Proof.
  intros Hty Hr.
  destruct (run_origin input (MatchingEngine.init latency) [] r
              empty_book_ok Hty Hr)
    as [(m & [] & _) | (x & Hx & Ex & Hq)].
  exists (snd x). split; [now apply in_map|].
  rewrite Ex. simpl. repeat split; lia.
Qed.

Lemma resting_orders_were_submitted_witness :
  exists o,
    In o (map snd (at_zero [S_sell 1 100 10; S_buy 2 100 4])) /\
    id (S_sell 1 100 6) = id o /\ side (S_sell 1 100 6) = side o /\
    price (S_sell 1 100 6) = price o /\
    ts_ns (S_sell 1 100 6) = ts_ns o /\
    0 < qty (S_sell 1 100 6) <= qty o.
Proof.
  apply (resting_orders_were_submitted LatencyStats.empty
           (at_zero [S_sell 1 100 10; S_buy 2 100 4]) (S_sell 1 100 6)).
  - typed.
  - vm_compute. left. reflexivity.
Defined.

(** ** Distinct ids *)

Lemma consumed_ids (tid q q' : Z) (ms ms' : list Order) (ts : list Trade) :
  consumed tid q ms q' ms' ts ->
  exists gone, map id ms = gone ++ map id ms'.
Proof.
  induction 1 as [q ms | q m ms q' ms' ts Hle _ [gone IH] | q m ms Hq].
  - now exists [].
  - exists (id m :: gone). simpl. now rewrite IH.
  - now exists [].
Qed.

Lemma insert_ids (lt : Z -> Z -> bool) (m : PriceMap) (o : Order) :
  Permutation (map id (resting (OrderBook.insert lt m o)))
              (id o :: map id (resting m)).
Proof.
  unfold OrderBook.insert. induction m as [|[k' l] rest IH]; simpl.
  - apply Permutation_refl.
  - destruct (lt (price o) k'); [|destruct (lt k' (price o))]; simpl.
    + apply Permutation_refl.
    + rewrite !map_app. rewrite IH. symmetry. apply Permutation_middle.
    + rewrite !map_app. simpl. rewrite <- app_assoc. simpl.
      symmetry. apply Permutation_middle.
Qed.

Lemma resting_orders_ids (sd : Side) (b : OrderBook.t) :
  Permutation (map id (resting_orders b))
              (map id (resting (own b sd))
               ++ map id (resting (OrderBook.opposite b sd))).
Proof.
  unfold resting_orders. rewrite map_app. destruct sd; simpl.
  - apply Permutation_refl.
  - apply Permutation_app_comm.
Qed.

(** The ids at rest after a submit are among the ids at rest before it and
    the id submitted, each as often as there. *)
Lemma process_ids (clock : Z * Z) (e : MatchingEngine.t) (o : Order)
    (trades : list Trade) :
  book_ok (MatchingEngine.book_ e) ->
  Int64.in_range (qty o) ->
  exists gone,
    Permutation
      (id o :: map id (resting_orders (MatchingEngine.book_ e)))
      (map id (resting_orders
                 (MatchingEngine.book_
                    (fst (MatchingEngine.process clock e o trades))))
       ++ gone).
Proof.
  intros Hok Hrange.
  destruct (Z_le_gt_dec (qty o) 0) as [Hle|Hgt].
  - rewrite (process_unfold clock e o trades _ _ _
               (match_nonpositive _ o trades Hle)).
    simpl. destruct (0 <? qty o) eqn:E; [lia|]. exists [id o].
    apply Permutation_cons_append.
  - apply (book_ok_sides (side o)) in Hok. destruct Hok as (_ & [_ Hlv] & _).
    destruct (match_spec (MatchingEngine.book_ e) o trades)
      as (opp' & q' & new & E & Hc & _);
      [unfold Int64.in_range in Hrange; lia | assumption |].
    rewrite (process_unfold clock e o trades _ _ _ E). simpl.
    set (b1 := OrderBook.set_opposite (MatchingEngine.book_ e) (side o) opp').
    destruct (own_set_opposite (MatchingEngine.book_ e) (side o) opp')
      as [Hown1 Hopp1]. fold b1 in Hown1, Hopp1.
    destruct (consumed_ids _ _ _ _ _ _ Hc) as [gone Hgone].
    pose proof (resting_orders_ids (side o) (MatchingEngine.book_ e)) as P0.
    rewrite Hgone in P0.
    destruct (0 <? q').
    + exists gone. rewrite P0.
      rewrite (resting_orders_ids (side o) (OrderBook.add b1 (set_qty o q'))).
      pose proof (own_add b1 (set_qty o q')) as [Ha1 Ha2]. simpl in Ha1, Ha2.
      rewrite Ha1, Ha2, Hown1, Hopp1, insert_ids. simpl.
      apply perm_skip. rewrite <- app_assoc. apply Permutation_app_head.
      apply Permutation_app_comm.
    + exists (id o :: gone). rewrite P0.
      rewrite (resting_orders_ids (side o) b1), Hown1, Hopp1.
      rewrite <- app_assoc.
      rewrite (Permutation_app_comm (map id (resting opp')) (id o :: gone)).
      simpl. rewrite <- Permutation_middle. reflexivity.
Qed.

Lemma run_distinct_ids (input : list (Z * Z * Order)) :
  forall e tr,
    book_ok (MatchingEngine.book_ e) ->
    Forall (fun x => order_typed (snd x)) input ->
    NoDup (map id (resting_orders (MatchingEngine.book_ e))
           ++ map (fun x => id (snd x)) input) ->
    NoDup (map id (resting_orders
                     (MatchingEngine.book_
                        (fst (MatchingEngine.run e tr input))))).
Proof.
  induction input as [|[clock o] rest IH]; intros e tr Hok Hty Hnd; simpl.
  - simpl in Hnd. now rewrite app_nil_r in Hnd.
  - inversion Hty as [|? ? Ho Hrest]; subst. simpl in Ho, Hnd.
    pose proof (process_book_ok clock e o tr Hok (proj1 (proj2 (proj2 Ho))))
      as Hok'.
    destruct (process_ids clock e o tr Hok (proj1 (proj2 (proj2 Ho))))
      as [gone Hperm].
    destruct (MatchingEngine.process clock e o tr) as [e' tr']. simpl in *.
    apply IH; try assumption.
    apply NoDup_app_remove_r with (l' := gone).
    eapply Permutation_NoDup; [|exact Hnd].
    rewrite <- Permutation_middle.
    change (id o :: map id (resting_orders (MatchingEngine.book_ e))
              ++ map (fun x => id (snd x)) rest)
      with ((id o :: map id (resting_orders (MatchingEngine.book_ e)))
              ++ map (fun x => id (snd x)) rest).
    rewrite Hperm. rewrite <- !app_assoc. apply Permutation_app_head.
    apply Permutation_app_comm.
Qed.

(** X6.  When the submitted orders have pairwise distinct ids, the orders
    resting in any state reached from the empty book have pairwise distinct
    ids: the engine never puts an order to rest twice. *)
Theorem resting_ids_distinct (latency : LatencyStats.t)
    (input : list (Z * Z * Order)) :
  Forall (fun x => order_typed (snd x)) input ->
  NoDup (map (fun x => id (snd x)) input) ->
  NoDup (map id
           (resting_orders
              (MatchingEngine.book_
                 (fst (MatchingEngine.run (MatchingEngine.init latency) []
                         input))))).
Proof.
  intros Hty Hnd. apply run_distinct_ids; try assumption.
  apply empty_book_ok.
Qed.

Lemma resting_ids_distinct_witness :
  NoDup (map id
           (resting_orders
              (MatchingEngine.book_
                 (fst (MatchingEngine.run
                         (MatchingEngine.init LatencyStats.empty) []
                         (at_zero [S_sell 1 100 10; S_buy 2 100 4;
                                   S_buy 3 99 1])))))).
Proof.
  apply (resting_ids_distinct LatencyStats.empty
           (at_zero [S_sell 1 100 10; S_buy 2 100 4; S_buy 3 99 1])).
  - typed.
  - simpl. repeat constructor; simpl; intuition discriminate.
Defined.

(** * The latency record *)

(** The record as [add] keeps it: [min_] and [max_] bound every sample and
    are samples themselves, or are the initial values when there is none. *)
Lemma latency_add_bounds (l : LatencyStats.t) (ns : Z) :
  UInt64.in_range ns ->
  Forall UInt64.in_range (LatencyStats.samples_ l) ->
  Forall (fun s => LatencyStats.min_ l <= s <= LatencyStats.max_ l)
         (LatencyStats.samples_ l) ->
  (LatencyStats.samples_ l = [] ->
   LatencyStats.min_ l = UInt64.max_unsigned /\ LatencyStats.max_ l = 0) ->
  (LatencyStats.samples_ l <> [] ->
   In (LatencyStats.min_ l) (LatencyStats.samples_ l) /\
   In (LatencyStats.max_ l) (LatencyStats.samples_ l)) ->
  Forall UInt64.in_range (LatencyStats.samples_ (LatencyStats.add l ns)) /\
  Forall (fun s => LatencyStats.min_ (LatencyStats.add l ns) <= s
                   <= LatencyStats.max_ (LatencyStats.add l ns))
         (LatencyStats.samples_ (LatencyStats.add l ns)) /\
  In (LatencyStats.min_ (LatencyStats.add l ns))
     (LatencyStats.samples_ (LatencyStats.add l ns)) /\
  In (LatencyStats.max_ (LatencyStats.add l ns))
     (LatencyStats.samples_ (LatencyStats.add l ns)).
Proof.
  intros Hns Hty Hb Hnil Hin. unfold LatencyStats.add. simpl.
  assert (Hlast : In ns (LatencyStats.samples_ l ++ [ns])).
  { apply in_or_app. right. now left. }
  split; [|split; [|split]].
  - apply Forall_app. split; [assumption | now constructor].
  - apply Forall_app. split.
    + eapply Forall_impl; [|exact Hb]. simpl. intros s Hs.
      destruct (ns <? LatencyStats.min_ l) eqn:E1;
        destruct (LatencyStats.max_ l <? ns) eqn:E2; lia.
    + constructor; [|constructor].
      destruct (ns <? LatencyStats.min_ l) eqn:E1;
        destruct (LatencyStats.max_ l <? ns) eqn:E2; lia.
  - destruct (ns <? LatencyStats.min_ l) eqn:E1; [assumption|].
    destruct (LatencyStats.samples_ l) as [|s r] eqn:Es.
    + destruct (Hnil eq_refl) as [Hmin _]. unfold UInt64.in_range in Hns.
      replace (LatencyStats.min_ l) with ns by lia. now left.
    + apply in_or_app. left. apply Hin. discriminate.
  - destruct (LatencyStats.max_ l <? ns) eqn:E2; [assumption|].
    destruct (LatencyStats.samples_ l) as [|s r] eqn:Es.
    + destruct (Hnil eq_refl) as [_ Hmax]. unfold UInt64.in_range in Hns.
      replace (LatencyStats.max_ l) with ns by lia. now left.
    + apply in_or_app. left. apply Hin. discriminate.
Qed.

Lemma latency_fold_bounds (samples : list Z) :
  forall l,
    Forall UInt64.in_range samples ->
    Forall UInt64.in_range (LatencyStats.samples_ l) ->
    Forall (fun s => LatencyStats.min_ l <= s <= LatencyStats.max_ l)
           (LatencyStats.samples_ l) ->
    (LatencyStats.samples_ l = [] ->
     LatencyStats.min_ l = UInt64.max_unsigned /\ LatencyStats.max_ l = 0) ->
    (LatencyStats.samples_ l <> [] ->
     In (LatencyStats.min_ l) (LatencyStats.samples_ l) /\
     In (LatencyStats.max_ l) (LatencyStats.samples_ l)) ->
    LatencyStats.samples_ (fold_left LatencyStats.add samples l)
    = LatencyStats.samples_ l ++ samples /\
    Forall (fun s => LatencyStats.min_ (fold_left LatencyStats.add samples l)
                     <= s
                     <= LatencyStats.max_ (fold_left LatencyStats.add samples l))
           (LatencyStats.samples_ l ++ samples) /\
    (LatencyStats.samples_ l ++ samples <> [] ->
     In (LatencyStats.min_ (fold_left LatencyStats.add samples l))
        (LatencyStats.samples_ l ++ samples) /\
     In (LatencyStats.max_ (fold_left LatencyStats.add samples l))
        (LatencyStats.samples_ l ++ samples)).
Proof.
  induction samples as [|ns rest IH]; intros l Hs Hty Hb Hnil Hin; simpl.
  - rewrite app_nil_r. repeat split; try assumption; now apply Hin.
  - inversion Hs as [|? ? Hns Hrest]; subst.
    destruct (latency_add_bounds l ns Hns Hty Hb Hnil Hin)
      as (Hty' & Hb' & Hmin' & Hmax').
    destruct (IH (LatencyStats.add l ns) Hrest Hty' Hb') as (E & Hall & Hex).
    + simpl. intros H. now destruct (LatencyStats.samples_ l).
    + intros _. now split.
    + simpl in E, Hall, Hex. rewrite <- app_assoc in E, Hall, Hex.
      simpl in E, Hall, Hex. repeat split; try assumption; now apply Hex.
Qed.

(** X7.  Starting from an empty record, after any sequence of [add] the record
    holds the samples in the order added, [count] is their number, and, when
    there is one, [min_] is the least sample and [max_] the greatest. *)
Theorem latency_min_max (samples : list Z) :
  Forall UInt64.in_range samples ->
  LatencyStats.samples_ (fold_left LatencyStats.add samples LatencyStats.empty)
  = samples /\
  LatencyStats.count (fold_left LatencyStats.add samples LatencyStats.empty)
  = length samples /\
  Forall (fun s =>
            LatencyStats.min_
              (fold_left LatencyStats.add samples LatencyStats.empty)
            <= s
            <= LatencyStats.max_
                 (fold_left LatencyStats.add samples LatencyStats.empty))
         samples /\
  (samples <> [] ->
   In (LatencyStats.min_
         (fold_left LatencyStats.add samples LatencyStats.empty)) samples /\
   In (LatencyStats.max_
         (fold_left LatencyStats.add samples LatencyStats.empty)) samples).
Proof.
  intros Hty.
  destruct (latency_fold_bounds samples LatencyStats.empty Hty)
    as (E & Hall & Hex).
  - constructor.
  - constructor.
  - intros _. split; reflexivity.
  - intros H. now contradiction H.
  - simpl in *. unfold LatencyStats.count. rewrite E.
    repeat split; try assumption; now apply Hex.
Qed.

Lemma latency_min_max_witness :
  LatencyStats.samples_
    (fold_left LatencyStats.add [40; 7; 19] LatencyStats.empty)
  = [40; 7; 19] /\
  LatencyStats.count
    (fold_left LatencyStats.add [40; 7; 19] LatencyStats.empty) = 3%nat.
Proof.
  destruct (latency_min_max [40; 7; 19]) as (H1 & H2 & _).
  - repeat constructor; unfold UInt64.max_unsigned; simpl; lia.
  - split; assumption.
Defined.

(** The durations the engine measures, one per order processed. *)
Lemma run_latency (input : list (Z * Z * Order)) :
  forall e tr,
    MatchingEngine.latency_ (fst (MatchingEngine.run e tr input))
    = fold_left LatencyStats.add
        (map (fun x => UInt64.sub (snd (fst x)) (fst (fst x))) input)
        (MatchingEngine.latency_ e).
Proof.
  induction input as [|[[start end_] o] rest IH]; intros e tr; simpl.
  - reflexivity.
  - destruct (OrderBook.match_ (MatchingEngine.book_ e) o tr)
      as [[b1 o1] tr1] eqn:E.
    rewrite IH. reflexivity.
Qed.

Lemma uint64_sub_range (a b : Z) : UInt64.in_range (UInt64.sub a b).
Proof.
  unfold UInt64.in_range, UInt64.sub, UInt64.wrap, UInt64.max_unsigned.
  pose proof (Z.mod_pos_bound (a - b) (2 ^ 64)). lia.
Qed.

(** X8.  An engine started with an empty latency record holds, after a run,
    one sample per order processed, orders without quantity included: the
    difference of the two clock readings modulo 2^64, in the order of
    processing; [min_] and [max_] bound all of them. *)
Theorem one_sample_per_order (input : list (Z * Z * Order)) :
  LatencyStats.samples_
    (MatchingEngine.latency_
       (fst (MatchingEngine.run (MatchingEngine.init LatencyStats.empty) []
               input)))
  = map (fun x => UInt64.sub (snd (fst x)) (fst (fst x))) input
  /\ LatencyStats.count
       (MatchingEngine.latency_
          (fst (MatchingEngine.run (MatchingEngine.init LatencyStats.empty) []
                  input)))
     = length input
  /\ Forall (fun s =>
               LatencyStats.min_
                 (MatchingEngine.latency_
                    (fst (MatchingEngine.run
                            (MatchingEngine.init LatencyStats.empty) []
                            input)))
               <= s
               <= LatencyStats.max_
                    (MatchingEngine.latency_
                       (fst (MatchingEngine.run
                               (MatchingEngine.init LatencyStats.empty) []
                               input))))
            (map (fun x => UInt64.sub (snd (fst x)) (fst (fst x))) input).
Proof.
  rewrite run_latency. simpl.
  destruct (latency_fold_bounds
              (map (fun x => UInt64.sub (snd (fst x)) (fst (fst x))) input)
              LatencyStats.empty) as (E & Hall & _).
  - apply Forall_forall. intros s Hs. apply in_map_iff in Hs.
    destruct Hs as (x & <- & _). apply uint64_sub_range.
  - constructor.
  - constructor.
  - intros _. split; reflexivity.
  - intros H. now contradiction H.
  - simpl in *. unfold LatencyStats.count. rewrite E, length_map.
    repeat split; assumption.
Qed.

(** * The book as [dump] prints it *)

Module DumpFacts.
Import String.
Local Open Scope string_scope.

Lemma append_assoc (a b c : string) : (a ++ b) ++ c = a ++ (b ++ c).
Proof. induction a as [|ch a IH]; simpl; [reflexivity | now rewrite IH]. Qed.

Lemma append_empty (a : string) : a ++ "" = a.
Proof. induction a as [|ch a IH]; simpl; [reflexivity | now rewrite IH]. Qed.

(** The loop over one side, entered with a counter below the larger of 1 and
    [depth], writes the lines of the next levels until the counter reaches
    that bound. *)
Lemma dump_levels_lines (depth : Z) (m : PriceMap) :
  forall count os,
    0 <= depth <= UInt64.max_unsigned ->
    (0 <= count < Z.max 1 depth)%Z ->
    Dump.dump_levels depth count m os
    = os ++ Dump.lines (firstn (Z.to_nat (Z.max 1 depth - count)) m).
Proof.
  induction m as [|[px level] rest IH]; intros count os Hd Hc; simpl.
  - rewrite firstn_nil. simpl. now rewrite append_empty.
  - assert (Hw : UInt64.wrap (count + 1) = (count + 1)%Z).
    { unfold UInt64.wrap. apply Z.mod_small.
      unfold UInt64.max_unsigned in Hd. lia. }
    rewrite Hw.
    assert (Hn : Z.to_nat (Z.max 1 depth - count)
                 = S (Z.to_nat (Z.max 1 depth - (count + 1)))).
    { rewrite <- Z2Nat.inj_succ by lia. f_equal. lia. }
    rewrite Hn, firstn_cons.
    change (Dump.lines
              ((px, level)
                 :: firstn (Z.to_nat (Z.max 1 depth - (count + 1))) rest))
      with (Dump.line (px, level)
              ++ Dump.lines
                   (firstn (Z.to_nat (Z.max 1 depth - (count + 1))) rest)).
    unfold Dump.line. cbn [fst snd].
    destruct (depth <=? count + 1)%Z eqn:E.
    + assert (Hz : Z.to_nat (Z.max 1 depth - (count + 1)) = 0%nat) by lia.
      rewrite Hz. change (Dump.lines (firstn 0 rest)) with "".
      rewrite append_empty, !append_assoc. reflexivity.
    + rewrite IH by lia. rewrite !append_assoc. reflexivity.
Qed.

(** X9.  [dump] writes, under each of the two headings, the lines of the
    best levels of that side in the order of the map, one line [price / qty]
    per level: [depth] of them, or all when the side has fewer levels, and
    one line when [depth] is 0, as for a [depth] of 1. *)
Theorem dump_prints_best_levels (os : string) (b : OrderBook.t) (depth : Z) :
  0 <= depth <= UInt64.max_unsigned ->
  Dump.dump os b depth
  = os ++ "BIDS (price/qty)" ++ Dump.nl
      ++ Dump.lines (firstn (Z.to_nat (Z.max 1 depth)) (OrderBook.bids_ b))
      ++ "ASKS (price/qty)" ++ Dump.nl
      ++ Dump.lines (firstn (Z.to_nat (Z.max 1 depth)) (OrderBook.asks_ b))
  /\ Dump.dump os b 0 = Dump.dump os b 1.
Proof.
  intros Hd.
  assert (H : forall d,
             0 <= d <= UInt64.max_unsigned ->
             Dump.dump os b d
             = os ++ "BIDS (price/qty)" ++ Dump.nl
                 ++ Dump.lines (firstn (Z.to_nat (Z.max 1 d))
                                  (OrderBook.bids_ b))
                 ++ "ASKS (price/qty)" ++ Dump.nl
                 ++ Dump.lines (firstn (Z.to_nat (Z.max 1 d))
                                  (OrderBook.asks_ b))).
  { intros d Hdr. unfold Dump.dump. cbv zeta.
    rewrite !dump_levels_lines by lia.
    rewrite !Z.sub_0_r, !append_assoc. reflexivity. }
  split; [now apply H|].
  rewrite (H 0), (H 1); [reflexivity | |];
    unfold UInt64.max_unsigned; lia.
Qed.

Lemma dump_prints_best_levels_witness :
  Dump.dump "" (OrderBook.mk [(99, mkLevel [S_buy 1 99 5] 5);
                              (98, mkLevel [S_buy 2 98 1] 1)]
                             [(101, mkLevel [S_sell 3 101 7] 7)]) 1
  = "" ++ "BIDS (price/qty)" ++ Dump.nl
       ++ Dump.lines [(99, mkLevel [S_buy 1 99 5] 5)]
       ++ "ASKS (price/qty)" ++ Dump.nl
       ++ Dump.lines [(101, mkLevel [S_sell 3 101 7] 7)].
Proof.
  refine (proj1 (dump_prints_best_levels ""
                   (OrderBook.mk [(99, mkLevel [S_buy 1 99 5] 5);
                                  (98, mkLevel [S_buy 2 98 1] 1)]
                                 [(101, mkLevel [S_sell 3 101 7] 7)]) 1 _)).
  unfold UInt64.max_unsigned. lia.
Defined.

End DumpFacts.

(** * The intrusive list *)

Module IntrusiveListFacts.
Import IntrusiveList.

(** Reads of a memory after writes, at equal or distinct addresses. *)
Ltac heap :=
  unfold set_next, set_prev; simpl;
  repeat (match goal with
          | |- context [Nat.eqb ?a ?b] =>
              destruct (Nat.eqb_spec a b); subst; simpl
          end);
  try congruence; try contradiction.

Lemma first_or_app (q : ptr) (l1 l2 : list nat) :
  first_or q (l1 ++ l2) = first_or (first_or q l2) l1.
Proof. destruct l1; reflexivity. Qed.

Lemma last_or_app (l1 l2 : list nat) :
  forall p, last_or p (l1 ++ l2) = last_or (last_or p l1) l2.
Proof. induction l1 as [|x r IH]; intros p; simpl; [reflexivity | apply IH]. Qed.

Lemma linked_frame (h h' : Heap) (l : list nat) (q : ptr) :
  forall p,
    (forall x, In x l -> h' x = h x) ->
    linked h p l q -> linked h' p l q.
Proof.
  induction l as [|x r IH]; intros p Hsame; simpl; [auto|].
  intros (Hp & Hn & Hr). rewrite (Hsame x) by now left.
  repeat split; try assumption. apply IH; [|assumption].
  intros y Hy. apply Hsame. now right.
Qed.

Lemma linked_app (h : Heap) (l1 l2 : list nat) (q : ptr) :
  forall p,
    linked h p (l1 ++ l2) q <->
    linked h p l1 (first_or q l2) /\ linked h (last_or p l1) l2 q.
Proof.
  induction l1 as [|x r IH]; intros p; simpl.
  - tauto.
  - rewrite IH, first_or_app. tauto.
Qed.

Lemma list_end (l : list nat) : l = [] \/ exists l0 x, l = l0 ++ [x].
Proof.
  destruct l as [|a r]; [now left|]. right.
  destruct (exists_last (l := a :: r)) as (l0 & x & E); [discriminate|].
  eauto.
Qed.

Lemma wrap_succ (a : Z) : UInt64.wrap (UInt64.wrap a + 1) = UInt64.wrap (a + 1).
Proof. unfold UInt64.wrap. apply Zplus_mod_idemp_l. Qed.

Lemma wrap_pred (a : Z) : UInt64.wrap (UInt64.wrap a - 1) = UInt64.wrap (a - 1).
Proof. unfold UInt64.wrap. apply Zminus_mod_idemp_l. Qed.

Lemma push_back_holds (h : Heap) (L : t) (l : list nat) (node : nat) :
  holds h L l ->
  ~ In node l ->
  holds (fst (push_back h L node)) (snd (push_back h L node)) (l ++ [node]).
Proof.
  intros (Hnd & Hhead & Htail & Hlink & Hsize) Hfresh.
  assert (Hnd' : NoDup (l ++ [node])).
  { apply NoDup_app; [assumption | repeat constructor; intros [] |].
    intros x Hx [<-|[]]. contradiction. }
  assert (Hsz : UInt64.wrap (size_ L + 1)
                = UInt64.wrap (Z.of_nat (length (l ++ [node])))).
  { rewrite Hsize, wrap_succ, length_app. simpl. f_equal. lia. }
  unfold push_back. destruct (list_end l) as [->|(l0 & tl & ->)].
  - simpl in Htail. rewrite Htail. simpl.
    repeat split; try assumption; try reflexivity; heap.
  - rewrite last_or_app in Htail. simpl in Htail. rewrite Htail. simpl.
    assert (Htl : tl <> node).
    { intros ->. apply Hfresh. apply in_or_app. right. now left. }
    apply linked_app in Hlink. destruct Hlink as [Hl0 Hltl].
    simpl in Hl0, Hltl. destruct Hltl as (Hp & Hn & _).
    split; [assumption|]. split.
    { rewrite Hhead. now destruct l0. }
    split.
    { rewrite last_or_app. reflexivity. }
    split; [|assumption].
    apply linked_app. split.
    + apply linked_app. split.
      * simpl. eapply linked_frame; [|exact Hl0].
        intros x Hx.
        assert (x <> node).
        { intros ->. apply Hfresh. apply in_or_app. now left. }
        assert (x <> tl).
        { intros ->. apply NoDup_remove_2 in Hnd. apply Hnd.
          rewrite app_nil_r. assumption. }
        heap.
      * simpl. repeat split; heap.
    + rewrite last_or_app. simpl. repeat split; heap.
Qed.

Lemma pop_front_holds (h : Heap) (L : t) (x : nat) (r : list nat) :
  holds h L (x :: r) ->
  snd (pop_front h L) = Some x /\
  holds (fst (fst (pop_front h L))) (snd (fst (pop_front h L))) r /\
  fst (fst (pop_front h L)) x = mkLinks None None /\
  (forall a, ~ In a (x :: r) -> fst (fst (pop_front h L)) a = h a).
Proof.
  intros (Hnd & Hhead & Htail & Hlink & Hsize).
  simpl in Hhead, Hlink. destruct Hlink as (Hp & Hn & Hr).
  inversion Hnd as [|? ? Hx Hndr]; subst.
  unfold pop_front. rewrite Hhead, Hn. simpl.
  assert (Hsz : UInt64.wrap (size_ L - 1) = UInt64.wrap (Z.of_nat (length r))).
  { rewrite Hsize, wrap_pred. simpl length. f_equal. lia. }
  split; [reflexivity|].
  destruct r as [|y r']; simpl.
  - repeat split; try assumption; try constructor; heap.
    intros a Ha. heap. exfalso. apply Ha. now left.
  - assert (Hxy : y <> x). { intros ->. apply Hx. now left. }
    simpl in Hr. destruct Hr as (Hyp & Hyn & Hr').
    inversion Hndr as [|? ? Hy _]; subst.
    split; [|split].
    + split; [assumption|]. split; [reflexivity|].
      split; [exact Htail|]. split; [|assumption].
      simpl. split; [heap|]. split; [heap|].
      eapply linked_frame; [|exact Hr']. intros a Ha.
      assert (a <> x). { intros ->. apply Hx. now right. }
      assert (a <> y). { intros ->. contradiction. }
      heap.
    + heap.
    + intros a Ha.
      assert (a <> x). { intros ->. apply Ha. now left. }
      assert (a <> y). { intros ->. apply Ha. right. now left. }
      heap.
Qed.

Lemma remove_holds (h : Heap) (L : t) (l1 l2 : list nat) (node : nat) :
  holds h L (l1 ++ node :: l2) ->
  holds (fst (remove h L node)) (snd (remove h L node)) (l1 ++ l2) /\
  fst (remove h L node) node = mkLinks None None.
Proof.
  intros (Hnd & Hhead & Htail & Hlink & Hsize).
  apply linked_app in Hlink. destruct Hlink as [Hl1 Hl2]. simpl in Hl1, Hl2.
  destruct Hl2 as (Hp & Hn & Hl2).
  assert (Hnd' : NoDup (l1 ++ l2)) by now apply NoDup_remove_1 in Hnd.
  assert (Hnode : ~ In node (l1 ++ l2)) by now apply NoDup_remove_2 in Hnd.
  assert (Hsz : UInt64.wrap (size_ L - 1)
                = UInt64.wrap (Z.of_nat (length (l1 ++ l2)))).
  { rewrite Hsize, wrap_pred, !length_app. simpl length. f_equal. lia. }
  assert (Hn1 : forall x, In x l1 -> x <> node).
  { intros x Hx ->. apply Hnode. apply in_or_app. now left. }
  assert (Hn2 : forall x, In x l2 -> x <> node).
  { intros x Hx ->. apply Hnode. apply in_or_app. now right. }
  assert (H12 : forall x, In x l1 -> ~ In x l2).
  { intros x H1 H2. apply in_split in H1. destruct H1 as (a & b & ->).
    rewrite <- app_assoc in Hnd'. simpl in Hnd'.
    apply NoDup_remove_2 in Hnd'. apply Hnd'.
    apply in_or_app. right. apply in_or_app. now right. }
  unfold remove. rewrite Hp, Hn.
  destruct (list_end l1) as [->|(l0 & p & ->)];
    destruct l2 as [|n l2'].
  - (* the only node *)
    simpl in *. rewrite Hn. simpl.
    split; [|heap]. repeat split; try assumption; try constructor.
  - (* the first node *)
    simpl in *. rewrite Hn. simpl.
    destruct Hl2 as (Hnp & Hnn & Hl2').
    assert (n <> node) by (apply Hn2; now left).
    split; [|heap].
    split; [assumption|]. split; [reflexivity|]. split; [exact Htail|].
    split; [|assumption]. simpl. split; [heap|]. split; [heap|].
    eapply linked_frame; [|exact Hl2']. intros a Ha.
    assert (a <> node) by (apply Hn2; now right).
    assert (a <> n).
    { intros ->. inversion Hnd' as [|? ? Hx _]; subst. contradiction. }
    heap.
  - (* the last node *)
    rewrite app_nil_r in *. rewrite last_or_app in Hp |- *.
    simpl in Hp, Hn |- *.
    assert (Hpn : p <> node) by (apply Hn1; apply in_or_app; right; now left).
    assert (Hnext : next (set_next h p None node) = None) by heap.
    rewrite Hnext.
    assert (Hprev : prev (set_next h p None node) = Some p) by heap.
    rewrite Hprev. simpl.
    split; [|heap].
    split; [assumption|]. split.
    { rewrite Hhead. now destruct l0. }
    split; [rewrite last_or_app; reflexivity|]. split; [|assumption].
    apply linked_app in Hl1. destruct Hl1 as [Hl0 Hlp]. simpl in Hl0, Hlp.
    destruct Hlp as (Hpp & Hpnx & _).
    apply linked_app. split.
    + simpl. eapply linked_frame; [|exact Hl0]. intros a Ha.
      assert (a <> node) by (apply Hn1; apply in_or_app; now left).
      assert (a <> p).
      { intros ->. apply NoDup_remove_2 in Hnd'. apply Hnd'.
        rewrite app_nil_r. assumption. }
      heap.
    + simpl. repeat split; heap.
  - (* a node in the middle *)
    rewrite last_or_app in Hp |- *. simpl in Hp, Hn, Hl2 |- *.
    destruct Hl2 as (Hnp & Hnn & Hl2').
    assert (Hpn : p <> node) by (apply Hn1; apply in_or_app; right; now left).
    assert (Hnn' : n <> node) by (apply Hn2; now left).
    assert (Hpn' : p <> n).
    { intros ->. apply (H12 n); [apply in_or_app; right|]; now left. }
    assert (Hnext : next (set_next h p (Some n) node) = Some n) by heap.
    rewrite Hnext.
    assert (Hprev : prev (set_next h p (Some n) node) = Some p) by heap.
    rewrite Hprev. simpl.
    split; [|heap].
    split; [assumption|]. split.
    { rewrite Hhead. now destruct l0. }
    split.
    { rewrite Htail, !last_or_app. reflexivity. }
    split; [|assumption].
    apply linked_app in Hl1. destruct Hl1 as [Hl0 Hlp]. simpl in Hl0, Hlp.
    destruct Hlp as (Hpp & Hpnx & _).
    apply linked_app. split.
    + apply linked_app. split.
      * simpl. eapply linked_frame; [|exact Hl0]. intros a Ha.
        assert (a <> node) by (apply Hn1; apply in_or_app; now left).
        assert (a <> p).
        { intros ->. apply NoDup_remove_1 in Hnd.
          rewrite <- app_assoc in Hnd. apply NoDup_remove_2 in Hnd.
          apply Hnd. apply in_or_app. now left. }
        assert (a <> n).
        { intros ->. apply (H12 n); [apply in_or_app; now left | now left]. }
        heap.
      * simpl. repeat split; heap.
    + rewrite last_or_app. simpl. split; [heap|]. split; [heap|].
      eapply linked_frame; [|exact Hl2']. intros a Ha.
      assert (a <> node) by (apply Hn2; now right).
      assert (a <> p).
      { intros ->. apply (H12 p); [apply in_or_app; right; now left|].
        now right. }
      assert (a <> n).
      { intros ->. apply NoDup_remove_1 in Hnd.
        apply NoDup_app_remove_l in Hnd.
        inversion Hnd as [|? ? Hx _]; subst. contradiction. }
      heap.
Qed.

Lemma holds_empty (h : Heap) : holds h empty_list [].
Proof. repeat split; constructor. Qed.

Lemma holds_tail_in (h : Heap) (L : t) (l : list nat) (a : nat) :
  holds h L l -> tail_ L = Some a -> In a l.
Proof.
  intros (_ & _ & Htail & _) E. rewrite Htail in E.
  destruct (list_end l) as [->|(l0 & x & ->)]; [discriminate|].
  rewrite last_or_app in E. simpl in E. inversion E; subst.
  apply in_or_app. right. now left.
Qed.

(** X10.  [push_back] of a node that is not in the list puts it behind the
    nodes the list holds: the front stays, unless the list was empty, and
    [size_] grows by one.  It writes the links of the node and of the former
    last node only. *)
Theorem push_back_appends (h : Heap) (L : t) (l : list nat) (node : nat) :
  holds h L l ->
  ~ In node l ->
  holds (fst (push_back h L node)) (snd (push_back h L node)) (l ++ [node]) /\
  front (snd (push_back h L node)) = first_or (Some node) l /\
  size (snd (push_back h L node)) = UInt64.wrap (size L + 1) /\
  (forall a, a <> node -> tail_ L <> Some a ->
             fst (push_back h L node) a = h a).
Proof.
  intros Hh Hfresh. split; [now apply push_back_holds|].
  pose proof Hh as (_ & Hhead & Htail & _).
  unfold push_back, front, size.
  destruct (list_end l) as [->|(l0 & tl & ->)].
  - simpl in Htail. rewrite Htail. simpl. repeat split.
    intros a Ha _. heap.
  - rewrite last_or_app in Htail. simpl in Htail. rewrite Htail. simpl.
    split; [rewrite Hhead; now destruct l0|]. split; [reflexivity|].
    intros a Ha Htl. assert (a <> tl) by congruence. heap.
Qed.

Lemma push_back_appends_witness :
  holds (fst (push_back (fun _ => mkLinks None None) empty_list 7))
        (snd (push_back (fun _ => mkLinks None None) empty_list 7))
        ([] ++ [7%nat]).
Proof.
  refine (proj1 (push_back_appends (fun _ => mkLinks None None) empty_list
                   [] 7%nat _ _)).
  - apply holds_empty.
  - intros [].
Defined.

(** X11.  [pop_front] on an empty list returns [nullptr] and changes
    neither the list nor the memory.  On a list that holds nodes it returns
    the node at the front, which is the one pushed first, leaves the others
    in their order, resets both links of the node returned and writes no
    node outside the list. *)
Theorem pop_front_returns_oldest (h : Heap) (L : t) (l : list nat) :
  holds h L l ->
  (l = [] -> pop_front h L = (h, L, None)) /\
  (forall x r,
      l = x :: r ->
      snd (pop_front h L) = Some x /\
      holds (fst (fst (pop_front h L))) (snd (fst (pop_front h L))) r /\
      fst (fst (pop_front h L)) x = mkLinks None None /\
      (forall a, ~ In a (x :: r) -> fst (fst (pop_front h L)) a = h a)).
Proof.
  intros Hh. split.
  - intros ->. destruct Hh as (_ & Hhead & _). unfold pop_front.
    simpl in Hhead. now rewrite Hhead.
  - intros x r ->. now apply pop_front_holds.
Qed.

Lemma pop_front_returns_oldest_witness :
  pop_front (fun _ => mkLinks None None) empty_list
  = (fun _ => mkLinks None None, empty_list, None)
  /\ snd (pop_front
            (fst (push_back (fun _ => mkLinks None None) empty_list 7))
            (snd (push_back (fun _ => mkLinks None None) empty_list 7)))
     = Some 7%nat.
Proof.
  split.
  - refine (proj1 (pop_front_returns_oldest (fun _ => mkLinks None None)
                     empty_list [] _) eq_refl).
    apply holds_empty.
  - refine (proj1 (proj2 (pop_front_returns_oldest
                            (fst (push_back (fun _ => mkLinks None None)
                                    empty_list 7))
                            (snd (push_back (fun _ => mkLinks None None)
                                    empty_list 7))
                            [7%nat] _) 7%nat [] eq_refl)).
    apply (push_back_holds (fun _ => mkLinks None None) empty_list [] 7%nat).
    + apply holds_empty.
    + intros [].
Defined.

(** X12.  [remove] of a node the list holds takes that node out, wherever it
    stands, keeps the other nodes in their order, lowers [size_] by one and
    resets both links of the node. *)
Theorem remove_detaches (h : Heap) (L : t) (l1 l2 : list nat) (node : nat) :
  holds h L (l1 ++ node :: l2) ->
  holds (fst (remove h L node)) (snd (remove h L node)) (l1 ++ l2) /\
  fst (remove h L node) node = mkLinks None None /\
  size (snd (remove h L node)) = UInt64.wrap (size L - 1).
Proof.
  intros Hh. destruct (remove_holds h L l1 l2 node Hh) as [H1 H2].
  repeat split; try assumption; apply H1.
Qed.

(** The list after a sequence of [push_back]. *)
Lemma push_all_holds (ns : list nat) :
  forall h L l,
    holds h L l ->
    NoDup (l ++ ns) ->
    holds
      (fst (fold_left (fun st n => push_back (fst st) (snd st) n) ns (h, L)))
      (snd (fold_left (fun st n => push_back (fst st) (snd st) n) ns (h, L)))
      (l ++ ns).
Proof.
  induction ns as [|n rest IH]; intros h L l Hh Hnd; simpl.
  - now rewrite app_nil_r.
  - replace (l ++ n :: rest) with ((l ++ [n]) ++ rest)
      by (rewrite <- app_assoc; reflexivity).
    destruct (push_back h L n) as [h1 L1] eqn:E.
    apply IH.
    + pose proof (push_back_holds h L l n Hh) as H. rewrite E in H.
      apply H. apply NoDup_remove_2 in Hnd. intros Hin. apply Hnd.
      apply in_or_app. now left.
    + rewrite <- app_assoc. exact Hnd.
Qed.

(** X13.  After distinct nodes are pushed on an empty list, the list holds
    them in the order pushed: [front] is the first pushed, [size] is their
    number, [empty] tells whether there is none, and [pop_front] returns the
    first pushed. *)
Theorem first_in_first_out (h : Heap) (ns : list nat) :
  NoDup ns ->
  Z.of_nat (length ns) <= UInt64.max_unsigned ->
  holds
    (fst (fold_left (fun st n => push_back (fst st) (snd st) n) ns
            (h, empty_list)))
    (snd (fold_left (fun st n => push_back (fst st) (snd st) n) ns
            (h, empty_list)))
    ns /\
  front (snd (fold_left (fun st n => push_back (fst st) (snd st) n) ns
                (h, empty_list)))
  = hd_error ns /\
  size (snd (fold_left (fun st n => push_back (fst st) (snd st) n) ns
               (h, empty_list)))
  = Z.of_nat (length ns) /\
  (empty (snd (fold_left (fun st n => push_back (fst st) (snd st) n) ns
                 (h, empty_list)))
   = true <-> ns = []) /\
  snd (pop_front
         (fst (fold_left (fun st n => push_back (fst st) (snd st) n) ns
                 (h, empty_list)))
         (snd (fold_left (fun st n => push_back (fst st) (snd st) n) ns
                 (h, empty_list))))
  = hd_error ns.
Proof.
  intros Hnd Hlen.
  pose proof (push_all_holds ns h empty_list [] (holds_empty h) Hnd) as Hh.
  simpl in Hh.
  set (st := fold_left (fun st n => push_back (fst st) (snd st) n) ns
               (h, empty_list)) in *.
  split; [exact Hh|].
  pose proof Hh as (_ & Hhead & _ & _ & Hsize).
  unfold front, size, empty. rewrite Hhead, Hsize.
  split; [now destruct ns|]. split.
  { unfold UInt64.wrap. apply Z.mod_small.
    unfold UInt64.max_unsigned in Hlen. lia. }
  split.
  { destruct ns; simpl; split; intros; congruence. }
  destruct ns as [|x r].
  - unfold pop_front. now rewrite Hhead.
  - now destruct (pop_front_holds (fst st) (snd st) x r Hh) as (E & _).
Qed.

Lemma first_in_first_out_witness :
  snd (pop_front
         (fst (fold_left (fun st n => push_back (fst st) (snd st) n)
                 [5; 3; 8]%nat (fun _ => mkLinks None None, empty_list)))
         (snd (fold_left (fun st n => push_back (fst st) (snd st) n)
                 [5; 3; 8]%nat (fun _ => mkLinks None None, empty_list))))
  = hd_error [5; 3; 8]%nat.
Proof.
  refine (proj2 (proj2 (proj2 (proj2
            (first_in_first_out (fun _ => mkLinks None None) [5; 3; 8]%nat
               _ _))))).
  - repeat constructor; simpl; intuition discriminate.
  - unfold UInt64.max_unsigned. simpl. lia.
Defined.

Lemma remove_detaches_witness :
  holds
    (fst (remove
            (fst (fold_left (fun st n => push_back (fst st) (snd st) n)
                    [1; 2; 3]%nat (fun _ => mkLinks None None, empty_list)))
            (snd (fold_left (fun st n => push_back (fst st) (snd st) n)
                    [1; 2; 3]%nat (fun _ => mkLinks None None, empty_list)))
            2))
    (snd (remove
            (fst (fold_left (fun st n => push_back (fst st) (snd st) n)
                    [1; 2; 3]%nat (fun _ => mkLinks None None, empty_list)))
            (snd (fold_left (fun st n => push_back (fst st) (snd st) n)
                    [1; 2; 3]%nat (fun _ => mkLinks None None, empty_list)))
            2))
    ([1%nat] ++ [3%nat]).
Proof.
  refine (proj1 (remove_detaches _ _ [1%nat] [3%nat] 2%nat _)).
  apply (push_all_holds [1; 2; 3]%nat (fun _ => mkLinks None None)
           empty_list [] (holds_empty _)).
  repeat constructor; simpl; intuition discriminate.
Defined.

(** X14.  [remove] does not check that the node is in the list.  Given a node
    that is not in the list and has both links reset, it clears [head_] and
    [tail_], so that [empty] holds and [front] is [nullptr] although the list
    held nodes, lowers [size_] all the same, and leaves the links of every
    node untouched. *)
Theorem remove_of_detached_node (h : Heap) (L : t) (node : nat) :
  h node = mkLinks None None ->
  empty (snd (remove h L node)) = true /\
  front (snd (remove h L node)) = None /\
  tail_ (snd (remove h L node)) = None /\
  size (snd (remove h L node)) = UInt64.wrap (size L - 1) /\
  (forall a, fst (remove h L node) a = h a).
Proof.
  intros Hn. unfold remove, empty, front, size. rewrite Hn. simpl.
  rewrite Hn. simpl. repeat split. intros a. heap.
Qed.

Lemma remove_of_detached_node_witness :
  empty (snd (remove
                (fst (push_back (fun _ => mkLinks None None) empty_list 7))
                (snd (push_back (fun _ => mkLinks None None) empty_list 7))
                9))
  = true.
Proof.
  refine (proj1 (remove_of_detached_node
                   (fst (push_back (fun _ => mkLinks None None) empty_list 7))
                   (snd (push_back (fun _ => mkLinks None None) empty_list 7))
                   9%nat _)).
  reflexivity.
Defined.

End IntrusiveListFacts.

(** * The object pool *)

Module ObjectPoolFacts.
Import ObjectPool.

Lemma slot_eqb_eq (a b : slot) : slot_eqb a b = true <-> a = b.
Proof.
  destruct a as [a1 a2], b as [b1 b2]. unfold slot_eqb. simpl.
  rewrite andb_true_iff, !Nat.eqb_eq. split.
  - intros [-> ->]. reflexivity.
  - intros E. inversion E. now split.
Qed.

Lemma write_same (m : Memory) (a : slot) (c : Cell) : write m a c a = c.
Proof.
  unfold write. destruct (slot_eqb a a) eqn:E; [reflexivity|].
  assert (H : slot_eqb a a = true) by now apply slot_eqb_eq.
  congruence.
Qed.

Lemma write_other (m : Memory) (a x : slot) (c : Cell) :
  x <> a -> write m a c x = m x.
Proof.
  intros Hne. unfold write. destruct (slot_eqb x a) eqn:E; [|reflexivity].
  apply slot_eqb_eq in E. contradiction.
Qed.

Lemma free_chain_frame (m m' : Memory) (l : list slot) :
  forall head,
    (forall s, In s l -> m' s = m s) ->
    free_chain m head l -> free_chain m' head l.
Proof.
  induction l as [|s r IH]; intros head Hsame; simpl; [auto|].
  intros (Hh & nxt & Hs & Hr). split; [assumption|]. exists nxt.
  rewrite (Hsame s) by now left. split; [assumption|].
  apply IH; [|assumption]. intros x Hx. apply Hsame. now right.
Qed.

(** The loop of [grow] puts the slots below [i] of the block in front of the
    free list, lowest first, and writes no other slot. *)
Lemma thread_chain (b : nat) (i : nat) :
  forall m head l,
    free_chain m head l ->
    (forall s, In s l -> fst s = b -> (i <= snd s)%nat) ->
    free_chain (fst (thread b i m head)) (snd (thread b i m head))
               (map (fun k => (b, k)) (seq 0 i) ++ l) /\
    (forall s, fst s <> b \/ (i <= snd s)%nat ->
               fst (thread b i m head) s = m s).
Proof.
  induction i as [|j IH]; intros m head l Hc Hl.
  - simpl. split; [assumption | reflexivity].
  - change (thread b (S j) m head)
      with (thread b j (write m (b, j) (FreeNode head)) (Some (b, j))).
    destruct (IH (write m (b, j) (FreeNode head)) (Some (b, j))
                ((b, j) :: l)) as [Hchain Hsame].
    + simpl. split; [reflexivity|]. exists head.
      split; [apply write_same|].
      eapply free_chain_frame; [|exact Hc]. intros s Hs.
      apply write_other. intros ->. specialize (Hl _ Hs eq_refl). simpl in Hl.
      lia.
    + intros s [<-|Hs] Hb; simpl; [lia|]. specialize (Hl _ Hs Hb). lia.
    + split.
      * replace (seq 0 (S j)) with (seq 0 j ++ [j]) by (symmetry; apply seq_S).
        rewrite map_app, <- app_assoc. exact Hchain.
      * intros s Hs. rewrite Hsame by (destruct Hs; [left | right]; lia).
        apply write_other. intros ->. simpl in Hs. lia.
Qed.

Lemma block_slots_in (BlockSize b : nat) (s : slot) :
  In s (block_slots BlockSize b) <-> fst s = b /\ (snd s < BlockSize)%nat.
Proof.
  unfold block_slots. rewrite in_map_iff. split.
  - intros (i & <- & Hi). apply in_seq in Hi. simpl. lia.
  - intros [<- Hlt]. exists (snd s). split; [now destruct s|].
    apply in_seq. lia.
Qed.

Lemma block_slots_nodup (BlockSize b : nat) : NoDup (block_slots BlockSize b).
Proof.
  unfold block_slots. generalize (seq_NoDup BlockSize 0).
  generalize (seq 0 BlockSize). intros l. induction 1 as [|x r Hx _ IH]; simpl.
  - constructor.
  - constructor; [|assumption]. rewrite in_map_iff.
    intros (i & E & Hi). inversion E; subst. contradiction.
Qed.

Lemma all_slots_in (BlockSize n : nat) (s : slot) :
  In s (all_slots BlockSize n) <->
  (fst s < n)%nat /\ (snd s < BlockSize)%nat.
Proof.
  induction n as [|k IH]; simpl.
  - split; [intros [] | lia].
  - rewrite in_app_iff, IH, block_slots_in. lia.
Qed.

Lemma wrap_add (a b : Z) : UInt64.wrap (UInt64.wrap a + b) = UInt64.wrap (a + b).
Proof. unfold UInt64.wrap. apply Zplus_mod_idemp_l. Qed.

Lemma wrap_sub (a b : Z) : UInt64.wrap (UInt64.wrap a - b) = UInt64.wrap (a - b).
Proof. unfold UInt64.wrap. apply Zminus_mod_idemp_l. Qed.

(** [grow] puts the slots of a new block in front of the free list. *)
Lemma grow_ok (BlockSize : nat) (p : t) (free live : list slot) :
  pool_ok BlockSize p free live ->
  pool_ok BlockSize (grow BlockSize p)
    (block_slots BlockSize (blocks_ p) ++ free) live.
Proof.
  intros (Hc & Hnd & Hperm & Ha & Hcap).
  assert (Hold : forall s, In s (free ++ live) -> (fst s < blocks_ p)%nat).
  { intros s Hs. apply (Permutation_in _ Hperm) in Hs.
    now apply all_slots_in in Hs. }
  destruct (thread_chain (blocks_ p) BlockSize (memory p) (free_list_ p) free)
    as [Hchain _]; [assumption | |].
  { intros s Hs Hb. assert (fst s < blocks_ p)%nat; [|lia].
    apply Hold. apply in_or_app. now left. }
  unfold grow, pool_ok. simpl. fold (block_slots BlockSize (blocks_ p)) in Hchain.
  split; [exact Hchain|]. split; [|split; [|split]].
  - rewrite <- app_assoc. apply NoDup_app;
      [apply block_slots_nodup | assumption |].
    intros s Hs Hs'. apply block_slots_in in Hs. apply Hold in Hs'. lia.
  - rewrite <- app_assoc, Hperm. apply Permutation_app_comm.
  - assumption.
  - rewrite Hcap, wrap_add. f_equal. lia.
Qed.

Lemma allocate_from_free (BlockSize : nat) (p : t) (s : slot)
    (free live : list slot) :
  pool_ok BlockSize p (s :: free) live ->
  exists p',
    allocate BlockSize p = Some (p', s) /\
    pool_ok BlockSize p' free (s :: live) /\
    (blocks_ p' = blocks_ p /\ capacity_ p' = capacity_ p /\
     allocated_ p' = UInt64.wrap (allocated_ p + 1)) /\
    ~ In s live.
Proof.
  intros (Hc & Hnd & Hperm & Ha & Hcap). simpl in Hc.
  destruct Hc as (Hhead & nxt & Hs & Hr).
  unfold allocate. rewrite Hhead. cbv zeta. rewrite Hhead, Hs.
  eexists. split; [reflexivity|].
  simpl in Hnd. inversion Hnd as [|? ? Hnotin Hnd']; subst.
  split; [|split].
  - unfold pool_ok. simpl. split; [|split; [|split; [|split]]].
    + eapply free_chain_frame; [|exact Hr]. intros x Hx.
      apply write_other. intros ->. apply Hnotin. apply in_or_app. now left.
    + eapply Permutation_NoDup; [|exact Hnd]. apply Permutation_middle.
    + rewrite <- Hperm. symmetry. apply Permutation_middle.
    + rewrite Ha, wrap_add. f_equal. lia.
    + assumption.
  - repeat split.
  - intros Hin. apply Hnotin. apply in_or_app. now right.
Qed.

Lemma deallocate_ok (BlockSize : nat) (p : t) (s : slot)
    (free l1 l2 : list slot) :
  pool_ok BlockSize p free (l1 ++ s :: l2) ->
  pool_ok BlockSize (deallocate p s) (s :: free) (l1 ++ l2).
Proof.
  intros (Hc & Hnd & Hperm & Ha & Hcap).
  assert (Hmove : Permutation (free ++ l1 ++ s :: l2)
                              ((s :: free) ++ l1 ++ l2)).
  { simpl. rewrite app_assoc. rewrite <- Permutation_middle.
    rewrite <- app_assoc. reflexivity. }
  unfold deallocate, pool_ok. simpl. split; [|split; [|split; [|split]]].
  - split; [reflexivity|]. exists (free_list_ p). split; [apply write_same|].
    eapply free_chain_frame; [|exact Hc]. intros x Hx.
    apply write_other. intros ->.
    rewrite app_assoc in Hnd. apply NoDup_remove_2 in Hnd. apply Hnd.
    apply in_or_app. left. apply in_or_app. now left.
  - eapply Permutation_NoDup; [exact Hmove | exact Hnd].
  - rewrite <- Hperm. symmetry. exact Hmove.
  - rewrite Ha, wrap_sub, !length_app. simpl length. f_equal. lia.
  - assumption.
Qed.

Lemma init_ok (BlockSize : nat) :
  pool_ok BlockSize (init BlockSize) (block_slots BlockSize 0) [].
Proof.
  pose proof (grow_ok BlockSize (mk 0 None 0 0 (fun _ => Object)) [] []) as H.
  rewrite app_nil_r in H. apply H.
  repeat split; simpl; try constructor.
Qed.

Lemma block_slots_cons (BlockSize b : nat) :
  (0 < BlockSize)%nat ->
  block_slots BlockSize b
  = (b, 0%nat) :: map (fun i => (b, i)) (seq 1 (BlockSize - 1)).
Proof.
  intros Hpos. unfold block_slots. destruct BlockSize as [|n]; [lia|].
  simpl. now rewrite Nat.sub_0_r.
Qed.

(** X15.  A pool as constructed has one block; its free list runs through
    the slots of the block from the lowest up, no slot is handed out,
    [capacity] is the block size, and the first [allocate] returns the lowest
    slot of the block. *)
Theorem fresh_pool (BlockSize : nat) :
  pool_ok BlockSize (init BlockSize) (block_slots BlockSize 0) [] /\
  blocks_ (init BlockSize) = 1%nat /\
  allocated (init BlockSize) = 0 /\
  capacity (init BlockSize) = UInt64.wrap (Z.of_nat BlockSize) /\
  ((0 < BlockSize)%nat ->
   exists p', allocate BlockSize (init BlockSize) = Some (p', (0%nat, 0%nat))).
Proof.
  split; [apply init_ok|]. repeat split.
  intros Hpos. pose proof (init_ok BlockSize) as Hok.
  rewrite (block_slots_cons BlockSize 0 Hpos) in Hok.
  destruct (allocate_from_free _ _ _ _ _ Hok) as (p' & E & _). eauto.
Qed.

Lemma fresh_pool_witness :
  exists p', allocate 4 (init 4) = Some (p', (0%nat, 0%nat)).
Proof.
  refine (proj2 (proj2 (proj2 (proj2 (fresh_pool 4)))) _). lia.
Defined.

Lemma allocate_grow (BlockSize : nat) (p : t) (s : slot) :
  free_list_ p = None ->
  free_list_ (grow BlockSize p) = Some s ->
  allocate BlockSize p = allocate BlockSize (grow BlockSize p).
Proof.
  intros Hnone Hs. unfold allocate. rewrite Hnone, Hs.
  cbv beta iota zeta. rewrite Hs. reflexivity.
Qed.

(** X16.  On a pool in order, with a block size that is not 0, [allocate]
    returns a slot that is not handed out at present and counts it.  It takes
    the head of the free list; only when the free list is empty does it add a
    block, exactly one, and return the lowest slot of that block. *)
Theorem allocate_hands_out_free_slot (BlockSize : nat) (p : t)
    (free live : list slot) :
  pool_ok BlockSize p free live ->
  (0 < BlockSize)%nat ->
  exists p' s free',
    allocate BlockSize p = Some (p', s) /\
    pool_ok BlockSize p' free' (s :: live) /\
    ~ In s live /\
    allocated p' = UInt64.wrap (allocated p + 1) /\
    ((free = s :: free' /\ blocks_ p' = blocks_ p /\
      capacity p' = capacity p)
     \/ (free = [] /\ s = (blocks_ p, 0%nat) /\
         blocks_ p' = S (blocks_ p) /\
         capacity p' = UInt64.wrap (capacity p + Z.of_nat BlockSize))).
Proof.
  intros Hok Hpos. destruct free as [|s free'].
  - pose proof Hok as (Hc & _). simpl in Hc.
    pose proof (grow_ok BlockSize p [] live Hok) as Hg.
    rewrite app_nil_r, (block_slots_cons BlockSize (blocks_ p) Hpos) in Hg.
    destruct (allocate_from_free _ _ _ _ _ Hg)
      as (p' & E & Hok' & (Hb & Hcap & Hal) & Hfresh).
    exists p', (blocks_ p, 0%nat),
      (map (fun i => (blocks_ p, i)) (seq 1 (BlockSize - 1))).
    pose proof (proj1 Hg) as Hch. simpl in Hch. destruct Hch as [Hhd _].
    rewrite (allocate_grow BlockSize p (blocks_ p, 0%nat) Hc Hhd).
    split; [exact E|]. split; [exact Hok'|]. split; [exact Hfresh|].
    split; [exact Hal|]. right. repeat split; assumption.
  - destruct (allocate_from_free _ _ _ _ _ Hok)
      as (p' & E & Hok' & (Hb & Hcap & Hal) & Hfresh).
    exists p', s, free'.
    split; [exact E|]. split; [exact Hok'|]. split; [exact Hfresh|].
    split; [exact Hal|]. left. repeat split; assumption.
Qed.

Lemma allocate_hands_out_free_slot_witness :
  exists p' s free',
    allocate 2 (init 2) = Some (p', s) /\
    pool_ok 2 p' free' (s :: []) /\
    ~ In s [].
Proof.
  destruct (allocate_hands_out_free_slot 2 (init 2) (block_slots 2 0) []
              (init_ok 2)) as (p' & s & free' & H1 & H2 & H3 & _).
  - lia.
  - exists p', s, free'. split; [exact H1|]. split; [exact H2 | exact H3].
Defined.

(** X17.  [deallocate] of a slot that is handed out puts it at the head of
    the free list and counts it out; the next [allocate] returns this very
    slot, and the counter is where it was. *)
Theorem deallocate_recycles (BlockSize : nat) (p : t) (s : slot)
    (free l1 l2 : list slot) :
  pool_ok BlockSize p free (l1 ++ s :: l2) ->
  pool_ok BlockSize (deallocate p s) (s :: free) (l1 ++ l2) /\
  allocated (deallocate p s) = UInt64.wrap (allocated p - 1) /\
  exists p',
    allocate BlockSize (deallocate p s) = Some (p', s) /\
    pool_ok BlockSize p' free (s :: l1 ++ l2) /\
    allocated p' = allocated p.
Proof.
  intros Hok. pose proof (deallocate_ok _ _ _ _ _ _ Hok) as Hd.
  split; [exact Hd|]. split; [reflexivity|].
  destruct (allocate_from_free _ _ _ _ _ Hd)
    as (p' & E & Hok' & (_ & _ & Hal) & _).
  exists p'. split; [exact E|]. split; [exact Hok'|].
  unfold allocated. rewrite Hal. simpl.
  destruct Hok as (_ & _ & _ & Ha & _). rewrite wrap_add, Ha.
  replace (UInt64.wrap (Z.of_nat (length (l1 ++ s :: l2))) - 1 + 1)
    with (UInt64.wrap (Z.of_nat (length (l1 ++ s :: l2)))) by lia.
  unfold UInt64.wrap. apply Z.mod_mod. lia.
Qed.

Lemma pool_after_one_allocate :
  pool_ok 2
    (match allocate 2 (init 2) with Some (p, _) => p | None => init 2 end)
    [(0%nat, 1%nat)] ([] ++ (0%nat, 0%nat) :: []).
Proof.
  pose proof (init_ok 2) as Hok.
  change (block_slots 2 0) with [(0%nat, 0%nat); (0%nat, 1%nat)] in Hok.
  destruct (allocate_from_free _ _ _ _ _ Hok) as (p' & E & Hok' & _).
  rewrite E. exact Hok'.
Qed.

Lemma deallocate_recycles_witness :
  exists p',
    allocate 2
      (deallocate
         (match allocate 2 (init 2) with Some (p, _) => p | None => init 2 end)
         (0%nat, 0%nat))
    = Some (p', (0%nat, 0%nat)).
Proof.
  destruct (deallocate_recycles 2
              (match allocate 2 (init 2) with
               | Some (p, _) => p
               | None => init 2
               end)
              (0%nat, 0%nat) [(0%nat, 1%nat)] [] []
              pool_after_one_allocate) as (_ & _ & p' & E' & _).
  exists p'. exact E'.
Defined.

(** X18.  [deallocate] does not check that the slot is handed out.  After
    the same slot is returned twice, [allocate] returns it and leaves it at
    the head of the free list, so that the slot is handed out and free at the
    same time. *)
Theorem double_free_keeps_slot_free (BlockSize : nat) (p : t) (s : slot) :
  exists p',
    allocate BlockSize (deallocate (deallocate p s) s) = Some (p', s) /\
    free_list_ p' = Some s.
Proof.
  unfold allocate, deallocate. simpl. rewrite write_same.
  eexists. split; reflexivity.
Qed.

End ObjectPoolFacts.

(** * The simulation *)

Module SimFacts.
Import Sim.

Lemma sim_loop_fold {State : Type} (cfg : SimConfig) (draw : nat -> Draw)
    (f : State -> Order -> State) (n : nat) :
  forall i st,
    sim_loop cfg draw f n i st
    = fold_left f (map (fun k => sim_order cfg k (draw k)) (seq i n)) st.
Proof.
  induction n as [|k IH]; intros i st; simpl; [reflexivity | apply IH].
Qed.

Lemma sim_order_id (cfg : SimConfig) (i : nat) (d : Draw) :
  Z.of_nat i + 1 <= UInt64.max_unsigned ->
  id (sim_order cfg i d) = Z.of_nat i + 1.
Proof.
  intros Hi. simpl. unfold UInt64.wrap. apply Z.mod_small.
  unfold UInt64.max_unsigned in Hi. lia.
Qed.

Lemma int64_add_range (a b : Z) : Int64.in_range (Int64.add a b).
Proof.
  unfold Int64.in_range, Int64.add, Int64.wrap, Int64.min_signed,
    Int64.max_signed.
  pose proof (Z.mod_pos_bound (a + b + 2 ^ 63) (2 ^ 64)). lia.
Qed.

Lemma sim_order_typed (cfg : SimConfig) (i : nat) (d : Draw) :
  Int64.in_range (max_qty cfg) ->
  draw_ok cfg d ->
  order_typed (sim_order cfg i d) /\
  1 <= price (sim_order cfg i d) /\ 1 <= qty (sim_order cfg i d).
Proof.
  intros Hmax (Hd & Hq & Hn). split; [|split].
  - unfold order_typed. simpl. repeat split.
    + unfold UInt64.wrap. pose proof (Z.mod_pos_bound (Z.of_nat i + 1) (2 ^ 64)).
      lia.
    + unfold UInt64.wrap, UInt64.max_unsigned.
      pose proof (Z.mod_pos_bound (Z.of_nat i + 1) (2 ^ 64)). lia.
    + pose proof (int64_add_range (base_price cfg) (delta d)) as H.
      unfold Int64.in_range, Int64.min_signed in *. lia.
    + pose proof (int64_add_range (base_price cfg) (delta d)) as H.
      unfold Int64.in_range, Int64.max_signed in *. lia.
    + unfold Int64.in_range, Int64.min_signed in *. lia.
    + unfold Int64.in_range, Int64.max_signed in *. lia.
    + apply Hn.
    + apply Hn.
  - simpl. lia.
  - simpl. lia.
Qed.

(** X19.  [run_simulation] calls [on_order] once in each of its [count]
    passes, in order, with an order whose id is the number of the pass
    counted from 1 and whose price is at least 1, whatever the generator
    gives; the ids of a run are pairwise distinct. *)
Theorem simulated_orders (State : Type) (cfg : SimConfig)
    (draw : nat -> Draw) (f : State -> Order -> State) (st : State) :
  Z.of_nat (count cfg) <= UInt64.max_unsigned ->
  run_simulation cfg draw f st
  = fold_left f (map (fun i => sim_order cfg i (draw i)) (seq 0 (count cfg)))
      st /\
  map id (map (fun i => sim_order cfg i (draw i)) (seq 0 (count cfg)))
  = map (fun i => Z.of_nat i + 1) (seq 0 (count cfg)) /\
  NoDup (map id (map (fun i => sim_order cfg i (draw i))
                   (seq 0 (count cfg)))) /\
  Forall (fun o => 1 <= price o)
         (map (fun i => sim_order cfg i (draw i)) (seq 0 (count cfg))).
Proof.
  intros Hc.
  assert (Hids : map id (map (fun i => sim_order cfg i (draw i))
                           (seq 0 (count cfg)))
                 = map (fun i => Z.of_nat i + 1) (seq 0 (count cfg))).
  { rewrite map_map. apply map_ext_in. intros i Hi. apply in_seq in Hi.
    apply sim_order_id. lia. }
  split; [apply sim_loop_fold|]. split; [exact Hids|]. split.
  - rewrite Hids. generalize (seq_NoDup (count cfg) 0).
    generalize (seq 0 (count cfg)). intros l.
    induction 1 as [|x r Hx _ IH]; simpl; constructor; [|assumption].
    rewrite in_map_iff. intros (y & E & Hy).
    assert (y = x) by lia. subst. contradiction.
  - apply Forall_forall. intros o Ho. apply in_map_iff in Ho.
    destruct Ho as (i & <- & _). simpl. lia.
Qed.

Lemma simulated_orders_witness :
  map id (map (fun i => sim_order (mkConfig 3 10000 50 100 1) i
                          (mkDraw (-20000) true 5 0))
            (seq 0 3))
  = map (fun i => Z.of_nat i + 1) (seq 0 3) /\
  Forall (fun o => 1 <= price o)
         (map (fun i => sim_order (mkConfig 3 10000 50 100 1) i
                          (mkDraw (-20000) true 5 0))
            (seq 0 3)).
Proof.
  destruct (simulated_orders unit (mkConfig 3 10000 50 100 1)
              (fun _ => mkDraw (-20000) true 5 0) (fun u _ => u) tt)
    as (_ & H1 & _ & H2).
  - unfold UInt64.max_unsigned. simpl. lia.
  - split; assumption.
Defined.

(** The engine after the callback of [main] has taken the orders of the
    passes from [i] on is the engine that processes them in a row; the trade
    vectors do not matter. *)
Lemma on_order_run (keep_trades : bool) (cfg : SimConfig)
    (draw : nat -> Draw) (clock : nat -> Z * Z) (n : nat) :
  forall i e trades trades0,
    fst (fst (fold_left (on_order keep_trades clock)
                (map (fun k => sim_order cfg k (draw k)) (seq i n))
                (e, trades, i)))
    = fst (MatchingEngine.run e trades0
             (map (fun k => (clock k, sim_order cfg k (draw k))) (seq i n)))
    /\ snd (fold_left (on_order keep_trades clock)
              (map (fun k => sim_order cfg k (draw k)) (seq i n))
              (e, trades, i))
       = (i + n)%nat.
Proof.
  induction n as [|k IH]; intros i e trades trades0; simpl.
  - split; [reflexivity | lia].
  - pose proof (process_appends (clock i) e (sim_order cfg i (draw i)) trades)
      as E1.
    pose proof (process_appends (clock i) e (sim_order cfg i (draw i)) trades0)
      as E2.
    destruct (MatchingEngine.process (clock i) e (sim_order cfg i (draw i))
                trades) as [e1 tr1].
    destruct (MatchingEngine.process (clock i) e (sim_order cfg i (draw i))
                trades0) as [e2 tr2].
    inversion E1. inversion E2. subst.
    destruct (IH (S i) (fst (MatchingEngine.process (clock i) e
                               (sim_order cfg i (draw i)) []))
                (if keep_trades
                 then trades ++ snd (MatchingEngine.process (clock i) e
                                       (sim_order cfg i (draw i)) [])
                 else [])
                (trades0 ++ snd (MatchingEngine.process (clock i) e
                                   (sim_order cfg i (draw i)) [])))
      as [H1 H2].
    split; [exact H1 | rewrite H2; lia].
Qed.

(** X20.  The simulation branch of [main], whatever the generator and the
    clock give within their types: the callback runs [count] times; the
    engine at the end is the one that has processed the simulated orders in
    a row, with or without [--keep-trades]; the orders resting in its book
    have pairwise distinct ids, prices of at least 1 and quantities of at
    least 1. *)
Theorem simulation_run (keep_trades : bool) (cfg : SimConfig)
    (draw : nat -> Draw) (clock : nat -> Z * Z) (latency : LatencyStats.t) :
  Z.of_nat (count cfg) <= UInt64.max_unsigned ->
  Int64.in_range (max_qty cfg) ->
  (forall i, draw_ok cfg (draw i)) ->
  snd (simulate keep_trades cfg draw clock latency) = count cfg /\
  fst (fst (simulate keep_trades cfg draw clock latency))
  = fst (MatchingEngine.run (MatchingEngine.init latency) []
           (sim_input cfg draw clock)) /\
  fst (fst (simulate true cfg draw clock latency))
  = fst (fst (simulate false cfg draw clock latency)) /\
  NoDup (map id
           (resting_orders
              (MatchingEngine.book_
                 (fst (fst (simulate keep_trades cfg draw clock latency)))))) /\
  (forall r,
      In r (resting_orders
              (MatchingEngine.book_
                 (fst (fst (simulate keep_trades cfg draw clock latency))))) ->
      1 <= price r /\ 1 <= qty r).
Proof.
  intros Hc Hmax Hdraw.
  assert (Hrun : forall keep,
             fst (fst (simulate keep cfg draw clock latency))
             = fst (MatchingEngine.run (MatchingEngine.init latency) []
                      (sim_input cfg draw clock)) /\
             snd (simulate keep cfg draw clock latency) = count cfg).
  { intros keep. unfold simulate, run_simulation. rewrite sim_loop_fold.
    apply (on_order_run keep cfg draw clock (count cfg) 0
             (MatchingEngine.init latency) [] []). }
  assert (Hty : Forall (fun x => order_typed (snd x))
                       (sim_input cfg draw clock)).
  { apply Forall_forall. intros x Hx. apply in_map_iff in Hx.
    destruct Hx as (i & <- & _). simpl.
    now apply sim_order_typed. }
  destruct (Hrun keep_trades) as [He Hn].
  split; [exact Hn|]. split; [exact He|]. split.
  { rewrite (proj1 (Hrun true)), (proj1 (Hrun false)). reflexivity. }
  rewrite He. split.
  - apply run_distinct_ids; [apply empty_book_ok | exact Hty |].
    simpl. unfold sim_input. rewrite map_map. simpl.
    generalize (seq_NoDup (count cfg) 0).
    assert (Hin : forall i, In i (seq 0 (count cfg)) ->
                            (i < count cfg)%nat).
    { intros i Hi. apply in_seq in Hi. lia. }
    revert Hin. generalize (seq 0 (count cfg)). intros l Hin.
    induction 1 as [|x r Hx _ IH]; simpl; constructor.
    + rewrite in_map_iff. intros (y & E & Hy).
      assert (Hxl : (x < count cfg)%nat) by (apply Hin; now left).
      assert (Hyl : (y < count cfg)%nat) by (apply Hin; now right).
      unfold UInt64.wrap in E. unfold UInt64.max_unsigned in Hc.
      rewrite !Z.mod_small in E by lia.
      assert (y = x) by lia. subst. contradiction.
    + apply IH. intros i Hi. apply Hin. now right.
  - intros r Hr.
    destruct (run_origin _ (MatchingEngine.init latency) [] r empty_book_ok
                Hty Hr) as [(m & [] & _) | (x & Hx & Ex & Hq)].
    apply in_map_iff in Hx. destruct Hx as (i & <- & _). simpl in Ex, Hq.
    rewrite Ex. simpl. lia.
Qed.

Lemma simulation_run_witness :
  snd (simulate false (mkConfig 3 10000 50 100 1)
         (fun i => mkDraw 0 (Nat.even i) 5 0)
         (fun _ => (0, 0)) LatencyStats.empty)
  = 3%nat.
Proof.
  refine (proj1 (simulation_run false (mkConfig 3 10000 50 100 1)
                   (fun i => mkDraw 0 (Nat.even i) 5 0)
                   (fun _ => (0, 0)) LatencyStats.empty _ _ _)).
  - unfold UInt64.max_unsigned. simpl. lia.
  - unfold Int64.in_range, Int64.min_signed, Int64.max_signed. simpl. lia.
  - intros i. unfold draw_ok, Int64.in_range, UInt64.in_range,
      Int64.min_signed, Int64.max_signed, UInt64.max_unsigned. simpl. lia.
Defined.

End SimFacts.
